(** * Intelligent Mobile Agent: the action resolution engine

    A shallow embedding of the Python sources

      - [core/qwen_vision_agent.py]     (reply parser, coordinate scaling)
      - [core/action_coordinator.py]    (dispatch and repetition guard)
      - [core/task_execution_state.py]  (progress flags, screen-loop check)
      - [core/ui_element_parser.py]     (search ranking, UI fallback)
      - [core/app_utilities.py]         (fixed fallback list, target application)
      - [core/android_controller.py]    (commands of the device bridge)
      - [agent_config.py]               (configuration file and instance)
      - [intelligent_mobile_agent.py]   (the step loop)

    Text is modelled as a list of characters of the 8-bit alphabet
    U+0000..U+00FF (Rocq's [ascii], read as Latin-1 code points); on this
    alphabet [str.strip], [str.lower], [str.upper], [\s] and [\d] are the
    ones of CPython 3.  Python integers are [Z]; Python floats are IEEE
    binary64 values, taken from [SpecFloat] with [prec = 53] and
    [emax = 1024].  [int(s)] raises [ValueError] for a number written with
    more than 4300 digits, the default limit of CPython 3.11; the integers
    that the program turns into text stay below the same limit of [str].
    Console output ([print]) and [time.sleep] are not modelled.  The device
    bridge is a log of the commands that it runs; [subprocess.run] raises
    [ValueError] for a command with a NUL character in an argument, before
    anything is run, and this exception is modelled; [adb] itself is taken
    to be installed. *)

From Stdlib Require Import List Bool Arith ZArith NArith Lia.
From Stdlib Require Import Ascii String DecimalString DecimalN DecimalPos.
From Stdlib Require Import SpecFloat.
From Stdlib Require Import Sorted Permutation.
Import ListNotations.

Set Implicit Arguments.

Open Scope Z_scope.
Open Scope list_scope.

(* ================================================================== *)
(** * Python values and primitives *)
(* ================================================================== *)

Module Py.

(** A Python [str]. *)
Definition str := list ascii.

(** A string literal of the source. *)
Definition lit (s : string) : str := list_ascii_of_string s.

Definition code (c : ascii) : N := N_of_ascii c.

Definition between (lo hi n : N) : bool := ((lo <=? n) && (n <=? hi))%N.

(** [str.isspace] on one character, which is also the class [\s] of a
    [str] pattern. *)
Definition isspace (c : ascii) : bool :=
  let n := code c in
  (between 9 13 n || between 28 32 n || (n =? 133) || (n =? 160))%N.

(** The class [\d] of a [str] pattern. *)
Definition isdigit (c : ascii) : bool := between 48 57 (code c)%N.

(** [str.lower] on one character. *)
Definition lower_char (c : ascii) : ascii :=
  let n := code c in
  (if between 65 90 n then ascii_of_N (n + 32)
   else if between 192 222 n && negb (n =? 215) then ascii_of_N (n + 32)
   else c)%N.

Definition lower (s : str) : str := map lower_char s.

(** [str.upper] on one character, as the code points of the result: the
    sharp s becomes two letters, and the micro sign and the y with
    diaeresis leave the 8-bit alphabet. *)
Definition upper_char (c : ascii) : list N :=
  let n := code c in
  (if between 97 122 n then [n - 32]
   else if between 224 254 n && negb (n =? 247) then [n - 32]
   else if n =? 223 then [83; 83]
   else if n =? 181 then [924]
   else if n =? 255 then [376]
   else [n])%N.

Definition upper (s : str) : list N := flat_map upper_char s.

Definition codes (s : str) : list N := map code s.

Section Sequences.
Variable A : Type.
Variable eqb : A -> A -> bool.

(** [s.startswith(p)]. *)
Fixpoint startswith (p s : list A) : bool :=
  match p, s with
  | [], _ => true
  | _ :: _, [] => false
  | a :: p', b :: s' => eqb a b && startswith p' s'
  end.

(** [p in s] for strings: [p] occurs as a contiguous run of [s]. *)
Fixpoint contains (p s : list A) : bool :=
  startswith p s ||
  match s with
  | [] => false
  | _ :: s' => contains p s'
  end.

(** [l.count(x)]. *)
Fixpoint count (x : A) (l : list A) : Z :=
  match l with
  | [] => 0
  | y :: l' => (if eqb x y then 1 else 0) + count x l'
  end.

(** [x in l] for a list [l]. *)
Definition member (x : A) (l : list A) : bool := existsb (eqb x) l.
End Sequences.

(** [==] on strings. *)
Definition str_eqb (a b : str) : bool :=
  if list_eq_dec ascii_dec a b then true else false.

(** [needle in s]. *)
Definition has (needle : string) (s : str) : bool :=
  contains Ascii.eqb (lit needle) s.

(** [needle in s.upper()]. *)
Definition has_upper (needle : string) (s : str) : bool :=
  contains N.eqb (codes (lit needle)) (upper s).

(** [needle in s.lower()]. *)
Definition has_lower (needle : string) (s : str) : bool :=
  contains Ascii.eqb (lit needle) (lower s).

Fixpoint dropwhile (A : Type) (p : A -> bool) (l : list A) : list A :=
  match l with
  | [] => []
  | x :: l' => if p x then dropwhile p l' else l
  end.

Definition lstrip (s : str) : str := dropwhile isspace s.
Definition rstrip (s : str) : str := rev (dropwhile isspace (rev s)).

(** [s.strip()]. *)
Definition strip (s : str) : str := rstrip (lstrip s).

(** [s.split(sep)] for a one-character separator: never empty. *)
Fixpoint split (sep : ascii) (s : str) : list str :=
  match s with
  | [] => [[]]
  | c :: s' =>
      if Ascii.eqb c sep then [] :: split sep s'
      else match split sep s' with
           | l :: ls => (c :: l) :: ls
           | [] => [[c]]
           end
  end.

(** [s.split(sep, 1)[1]] when [sep in s]: what follows the first [sep]. *)
Fixpoint after_first (sep : ascii) (s : str) : str :=
  match s with
  | [] => []
  | c :: s' => if Ascii.eqb c sep then s' else after_first sep s'
  end.

(** [l[-n:]] for [n > 0]. *)
Definition last_n (A : Type) (n : nat) (l : list A) : list A :=
  skipn (List.length l - n)%nat l.

(** The value of a decimal digit. *)
Definition digit_value (c : ascii) : Z := Z.of_N (code c) - 48.

(** The number that a run of decimal digits writes; [int_of_str] below is
    [int], which returns this number for a run of at most 4300 digits. *)
Definition int_of_digits (s : str) : Z :=
  fold_left (fun acc c => 10 * acc + digit_value c) s 0.

(** [str(n)], the text an f-string puts for an [int]. *)
Definition str_of_int (n : Z) : str :=
  lit (NilZero.string_of_int (Z.to_int n)).

(** Truthiness of a string: [if s]. *)
Definition truthy (s : str) : bool :=
  match s with [] => false | _ => true end.

(** [a or b] on strings. *)
Definition str_or (a b : str) : str := if truthy a then a else b.

(** Exceptions that the modelled code can raise. *)
Inductive exn := OverflowError | ValueError.

Inductive result (A : Type) : Type :=
| Ok (a : A)
| Raise (e : exn).
Arguments Ok {A} a.
Arguments Raise {A} e.

Definition bind (A B : Type) (m : result A) (f : A -> result B) : result B :=
  match m with
  | Ok a => f a
  | Raise e => Raise e
  end.

(** [s.replace(old, new)] for a one-character [old]: every occurrence
    is replaced, from left to right. *)
Definition replace_char (old : ascii) (new : str) (s : str) : str :=
  flat_map (fun c => if Ascii.eqb c old then new else [c]) s.

(** [s.split()]: the maximal runs of characters that are not white
    space, in order; no run is empty. *)
Fixpoint split_ws (s : str) : list str :=
  match s with
  | [] => []
  | c :: s' =>
      if isspace c then split_ws s'
      else
        match s' with
        | [] => [[c]]
        | d :: _ =>
            if isspace d then [c] :: split_ws s'
            else match split_ws s' with
                 | t :: ts => (c :: t) :: ts
                 | [] => [[c]]
                 end
        end
  end.

(** [s.split(sep, 1)[0]]: what precedes the first [sep]. *)
Fixpoint before_first (sep : ascii) (s : str) : str :=
  match s with
  | [] => []
  | c :: s' => if Ascii.eqb c sep then [] else c :: before_first sep s'
  end.

(** [d.get(key, default)] on a dictionary with string keys and values,
    given by its items; a key occurs once in a dictionary. *)
Fixpoint dict_get (d : list (str * str)) (key default : str) : str :=
  match d with
  | [] => default
  | (k, v) :: d' => if str_eqb k key then v else dict_get d' key default
  end.

(** The format [{n:02d}] of an f-string: at least two characters, zeros
    put in front. *)
Definition format_02d (n : Z) : str :=
  let digits := str_of_int n in
  if (List.length digits <? 2)%nat then "0"%char :: digits else digits.

(** The white space that [int] accepts around a number. *)
Definition int_space (c : ascii) : bool :=
  let n := code c in
  (between 9 13 n || (n =? 32) || (n =? 133) || (n =? 160))%N.

(** The digits of [int(s)] after the first one: decimal digits, with
    single underscores allowed between two digits. *)
Fixpoint int_digits (acc : Z) (s : str) : option Z :=
  match s with
  | [] => Some acc
  | c :: s' =>
      if isdigit c then int_digits (10 * acc + digit_value c) s'
      else if Ascii.eqb c "_" then
        match s' with
        | d :: s'' =>
            if isdigit d then int_digits (10 * acc + digit_value d) s'' else None
        | [] => None
        end
      else None
  end.

(** [sys.get_int_max_str_digits()], as CPython sets it by default. *)
Definition max_str_digits : nat := 4300.

(** [s] holds a NUL character. *)
Definition has_nul (s : str) : bool := existsb (Ascii.eqb "000"%char) s.

(** [int(s)] for a string: white space around, an optional sign, then the
    digits; anything else raises [ValueError], and so does a number written
    with more than [max_str_digits] digits, leading zeros counted and
    underscores not. *)
Definition int_of_str (s : str) : result Z :=
  let t := rev (dropwhile int_space (rev (dropwhile int_space s))) in
  let '(negative, body) :=
    match t with
    | c :: b =>
        if Ascii.eqb c "-" then (true, b)
        else if Ascii.eqb c "+" then (false, b)
        else (false, t)
    | [] => (false, t)
    end in
  match body with
  | d :: rest =>
      if isdigit d then
        match int_digits (digit_value d) rest with
        | Some v =>
            if (max_str_digits <? List.length (filter isdigit body))%nat
            then Raise ValueError
            else Ok (if negative then - v else v)
        | None => Raise ValueError
        end
      else Raise ValueError
  | [] => Raise ValueError
  end.

End Py.

Notation "x <- m ;; k" := (Py.bind m (fun x => k))
  (at level 61, m at next level, right associativity).

(* ================================================================== *)
(** * Python floats *)
(* ================================================================== *)

Module PyFloat.
Import Py.

Definition prec : Z := 53.
Definition emax : Z := 1024.

(** A Python [float]. *)
Definition float := spec_float.

(** The float nearest to [m * 2^e], ties to even. *)
Definition of_scaled (m e : Z) : float := binary_normalize prec emax m e false.

(** [float(n)] for an [int], as done by [int * float]: correctly rounded,
    and [OverflowError] when the integer is too large. *)
Definition of_int (n : Z) : result float :=
  match of_scaled n 0 with
  | S754_infinity _ => Raise OverflowError
  | f => Ok f
  end.

Definition mul (a b : float) : float := SFmul prec emax a b.

(** [int(f)]: truncation toward zero; infinities and NaN raise. *)
Definition to_int (f : float) : result Z :=
  match f with
  | S754_zero _ => Ok 0%Z
  | S754_infinity _ => Raise OverflowError
  | S754_nan => Raise ValueError
  | S754_finite s m e =>
      let a := match e with
               | Zneg p => Z.quot (Zpos m) (2 ^ Zpos p)
               | _ => (Zpos m * 2 ^ e)%Z
               end in
      Ok (if s then (- a)%Z else a)
  end.

(** The mathematical floor of a finite float. *)
Definition floor (f : float) : option Z :=
  match f with
  | S754_zero _ => Some 0%Z
  | S754_finite s m e =>
      let v := if s then Zneg m else Zpos m in
      Some (match e with
            | Zneg p => Z.div v (2 ^ Zpos p)
            | _ => (v * 2 ^ e)%Z
            end)
  | _ => None
  end.

(** [n * f] for an [int] [n] and a [float] [f]. *)
Definition int_mul (n : Z) (f : float) : result float :=
  x <- of_int n ;; Ok (mul x f).

(** [int(n * f)]. *)
Definition scale (n : Z) (f : float) : result Z :=
  p <- int_mul n f ;; to_int p.

Definition one : float := of_scaled 1 0.

(** A float that is zero or positive and finite; the scale factors of a
    screenshot are of this kind. *)
Definition nonneg_finite (f : float) : Prop :=
  match f with
  | S754_zero _ => True
  | S754_finite s _ _ => s = false
  | _ => False
  end.

(** A positive integer that a float holds exactly: a mantissa of at most
    53 bits times a power of two within the range. *)
Definition representable (z : Z) : Prop :=
  exists (m : positive) (e : Z), z = Zpos m * 2 ^ e /\ Zpos m < 2 ^ 53 /\ 0 <= e <= 971.

(** A float that is not below zero: its sign bit is clear, or it is a
    zero or a NaN. *)
Definition not_negative (f : float) : Prop :=
  match f with
  | S754_finite s _ _ | S754_infinity s => s = false
  | _ => True
  end.

End PyFloat.

(* ================================================================== *)
(** * The regular expressions of the source *)
(* ================================================================== *)

Module Re.
Import Py.

(** The fragment of [re] that the source uses: a pattern is a sequence of
    literal characters, single characters of a class, and greedy
    repetitions of a class, captured or not. *)
Inductive atom :=
| Chr (c : ascii)               (* a literal character *)
| OneOf (p : ascii -> bool)     (* one character of a class *)
| Star (p : ascii -> bool)      (* class*, greedy *)
| Plus (p : ascii -> bool)      (* class+, greedy *)
| Group (p : ascii -> bool).    (* (class+), greedy and captured *)

Definition regex := list atom.

Definition chars (s : string) : regex := map Chr (lit s).

(** The number of groups of a pattern. *)
Definition ngroups (r : regex) : nat :=
  List.length (filter (fun a => match a with Group _ => true | _ => false end) r).

(** A pattern with its parentheses removed. *)
Definition erase (r : regex) : regex :=
  map (fun a => match a with Group p => Plus p | _ => a end) r.

(** What a match is, whatever the strategy that finds it: [Match r s gs rest]
    says that the pattern [r] matches a prefix of [s], capturing the groups
    [gs] and leaving [rest]. *)
Inductive Match : regex -> str -> list str -> str -> Prop :=
| Match_nil (s : str) : Match [] s [] s
| Match_chr (c : ascii) (r : regex) (s : str) (gs : list str) (rest : str) :
    Match r s gs rest -> Match (Chr c :: r) (c :: s) gs rest
| Match_one (p : ascii -> bool) (c : ascii) (r : regex) (s : str)
            (gs : list str) (rest : str) :
    p c = true -> Match r s gs rest -> Match (OneOf p :: r) (c :: s) gs rest
| Match_star (p : ascii -> bool) (run : str) (r : regex) (s : str)
             (gs : list str) (rest : str) :
    Forall (fun c => p c = true) run ->
    Match r s gs rest -> Match (Star p :: r) (run ++ s) gs rest
| Match_plus (p : ascii -> bool) (run : str) (r : regex) (s : str)
             (gs : list str) (rest : str) :
    Forall (fun c => p c = true) run -> run <> [] ->
    Match r s gs rest -> Match (Plus p :: r) (run ++ s) gs rest
| Match_group (p : ascii -> bool) (run : str) (r : regex) (s : str)
              (gs : list str) (rest : str) :
    Forall (fun c => p c = true) run -> run <> [] ->
    Match r s gs rest -> Match (Group p :: r) (run ++ s) (run :: gs) rest.

(** The characters that a pattern can consume. *)
Definition accepts (a : atom) (c : ascii) : bool :=
  match a with
  | Chr x => Ascii.eqb c x
  | OneOf p | Star p | Plus p | Group p => p c
  end.

Definition alphabet (r : regex) (c : ascii) : bool :=
  existsb (fun a => accepts a c) r.

(** Greedy repetition with backtracking: the longest run first, then
    shorter ones, until the continuation [k] succeeds.  [acc] is the run
    consumed so far, last character first. *)
Fixpoint greedy (R : Type) (p : ascii -> bool) (k : str -> str -> option R)
         (acc : str) (s : str) : option R :=
  match s with
  | x :: s' =>
      if p x then
        match greedy p k (x :: acc) s' with
        | Some r => Some r
        | None => k (rev acc) s
        end
      else k (rev acc) s
  | [] => k (rev acc) []
  end.

(** Match a pattern at the start of [s]; the result is the list of
    captured groups. *)
Fixpoint match_here (r : regex) (s : str) {struct r} : option (list str) :=
  match r with
  | [] => Some []
  | Chr c :: r' =>
      match s with
      | x :: s' => if Ascii.eqb x c then match_here r' s' else None
      | [] => None
      end
  | OneOf p :: r' =>
      match s with
      | x :: s' => if p x then match_here r' s' else None
      | [] => None
      end
  | Star p :: r' => greedy p (fun _ rest => match_here r' rest) [] s
  | Plus p :: r' =>
      match s with
      | x :: s' =>
          if p x then greedy p (fun _ rest => match_here r' rest) [x] s'
          else None
      | [] => None
      end
  | Group p :: r' =>
      match s with
      | x :: s' =>
          if p x then
            greedy p (fun g rest =>
                        match match_here r' rest with
                        | Some gs => Some (g :: gs)
                        | None => None
                        end) [x] s'
          else None
      | [] => None
      end
  end.

(** [re.search]: the match at the leftmost position that has one. *)
Fixpoint search (r : regex) (s : str) : option (list str) :=
  match match_here r s with
  | Some gs => Some gs
  | None =>
      match s with
      | [] => None
      | _ :: s' => search r s'
      end
  end.

(** The class of the two quote characters, the single quote and the
    double quote (code 34). *)
Definition isquote (c : ascii) : bool :=
  Ascii.eqb c "'"%char || Ascii.eqb c "034"%char.

Definition notquote (c : ascii) : bool := negb (isquote c).

(** The class [.]: anything but a line feed. *)
Definition dot (c : ascii) : bool := negb (Ascii.eqb c "010"%char).

(** [TAP\s*\((\d+),\s*(\d+)\)] *)
Definition tap_re : regex :=
  chars "TAP" ++ [Star isspace; Chr "("; Group isdigit; Chr ",";
                  Star isspace; Group isdigit; Chr ")"]%char.

(** [TAP\s*\(\d+,\s*\d+\)] *)
Definition tap_plain_re : regex :=
  chars "TAP" ++ [Star isspace; Chr "("; Plus isdigit; Chr ",";
                  Star isspace; Plus isdigit; Chr ")"]%char.

(** [TYPE\s*] followed by one quote character, single or double. *)
Definition type_open_re : regex :=
  chars "TYPE" ++ [Star isspace; OneOf isquote].

(** [TYPE\s*], a quote character, a captured non-empty run of characters
    that are not quotes, and a quote character. *)
Definition type_re : regex :=
  chars "TYPE" ++ [Star isspace; OneOf isquote; Group notquote; OneOf isquote].

(** [TASK_COMPLETE:\s*(.+)] *)
Definition complete_re : regex :=
  chars "TASK_COMPLETE:" ++ [Star isspace; Group dot].

(** The two groups of a [tap_re] match. *)
Definition tap_search (s : str) : option (str * str) :=
  match search tap_re s with
  | Some [gx; gy] => Some (gx, gy)
  | _ => None
  end.

Definition matches (r : regex) (s : str) : bool :=
  match search r s with Some _ => true | None => false end.

(** Group 1 of a match of a pattern with one group. *)
Definition group1 (r : regex) (s : str) : option str :=
  match search r s with
  | Some [g] => Some g
  | _ => None
  end.

(** Match a pattern at the start of [s], as [match_here] does; the result
    also tells what is left of [s] after the match. *)
Fixpoint match_span (r : regex) (s : str) {struct r} : option (list str * str) :=
  match r with
  | [] => Some ([], s)
  | Chr c :: r' =>
      match s with
      | x :: s' => if Ascii.eqb x c then match_span r' s' else None
      | [] => None
      end
  | OneOf p :: r' =>
      match s with
      | x :: s' => if p x then match_span r' s' else None
      | [] => None
      end
  | Star p :: r' => greedy p (fun _ rest => match_span r' rest) [] s
  | Plus p :: r' =>
      match s with
      | x :: s' =>
          if p x then greedy p (fun _ rest => match_span r' rest) [x] s'
          else None
      | [] => None
      end
  | Group p :: r' =>
      match s with
      | x :: s' =>
          if p x then
            greedy p (fun g rest =>
                        match match_span r' rest with
                        | Some (gs, rest') => Some (g :: gs, rest')
                        | None => None
                        end) [x] s'
          else None
      | [] => None
      end
  end.

(** [re.findall]: the groups of the matches found from left to right, a
    match starting no earlier than the end of the one before.  [skip] is
    the number of characters still covered by the last match. *)
Fixpoint findall_from (r : regex) (skip : nat) (s : str) {struct s}
  : list (list str) :=
  match skip with
  | S k =>
      match s with
      | [] => []
      | _ :: s' => findall_from r k s'
      end
  | O =>
      match match_span r s with
      | Some (gs, rest) =>
          gs :: match s with
                | [] => []
                | _ :: s' =>
                    findall_from r (List.length s - List.length rest - 1)%nat s'
                end
      | None =>
          match s with
          | [] => []
          | _ :: s' => findall_from r 0%nat s'
          end
      end
  end.

Definition findall (r : regex) (s : str) : list (list str) := findall_from r 0%nat s.

(** [\[(\d+),(\d+)\]] *)
Definition bounds_re : regex :=
  [Chr "["; Group isdigit; Chr ","; Group isdigit; Chr "]"]%char.

End Re.

(* ================================================================== *)
(** * core/qwen_vision_agent.py *)
(* ================================================================== *)

Module QwenVisionAgent.
Import Py Re.

Definition newline : ascii := "010"%char.
Definition hash : ascii := "#"%char.

(** [not line or line.startswith('#') or line.startswith('```')] *)
Definition skipped (line : str) : bool :=
  negb (truthy line)
  || startswith Ascii.eqb (lit "#") line
  || startswith Ascii.eqb (lit "```") line.

(** The f-string [TAP ({scaled_x},{scaled_y}) # {comment_text}], after the
    two coordinates have been scaled. *)
Definition scaled_tap (gx gy : str) (width_scale_factor height_scale_factor : PyFloat.float)
           (comment_text : str) : result str :=
  original_x <- int_of_str gx ;;
  original_y <- int_of_str gy ;;
  scaled_x <- PyFloat.scale original_x width_scale_factor ;;
  scaled_y <- PyFloat.scale original_y height_scale_factor ;;
  Ok (lit "TAP (" ++ str_of_int scaled_x ++ lit "," ++ str_of_int scaled_y
        ++ lit ") # " ++ comment_text).

(** [line.split('#', 1)[1].strip() if '#' in line else "scaled coordinates"] *)
Definition comment_of (line : str) : str :=
  if has "#" line then strip (after_first hash line)
  else lit "scaled coordinates".

(** The [for line in response_lines] loop; [Ok None] when it falls through. *)
Fixpoint scan_lines (response_lines : list str) (width_scale_factor height_scale_factor : PyFloat.float)
  : result (option str) :=
  match response_lines with
  | [] => Ok None
  | l :: rest =>
      let line := strip l in
      if skipped line then scan_lines rest width_scale_factor height_scale_factor
      else
        match tap_search line with
        | Some (gx, gy) =>
            a <- scaled_tap gx gy width_scale_factor height_scale_factor (comment_of line) ;;
            Ok (Some a)
        | None =>
            if matches type_open_re line then Ok (Some line)
            else if has_upper "SCROLL" line then Ok (Some line)
            else if has_upper "TASK_COMPLETE" line then Ok (Some line)
            else scan_lines rest width_scale_factor height_scale_factor
        end
  end.

(** The fallback parsing from the full response. *)
Definition scan_full (full_response_text : str) (width_scale_factor height_scale_factor : PyFloat.float)
  : result (option str) :=
  match tap_search full_response_text with
  | Some (gx, gy) =>
      a <- scaled_tap gx gy width_scale_factor height_scale_factor (lit "extracted and scaled") ;;
      Ok (Some a)
  | None =>
      match group1 type_re full_response_text with
      | Some g => Ok (Some (lit "TYPE '" ++ g ++ lit "' # extracted action"))
      | None =>
          if has_upper "SCROLL" full_response_text
          then Ok (Some (lit "SCROLL down # extracted action"))
          else if has_upper "TASK_COMPLETE" full_response_text
          then Ok (Some (lit "TASK_COMPLETE: extracted from response"))
          else Ok None
      end
  end.

Definition extract_action_from_response (model_response : str)
           (width_scale_factor height_scale_factor : PyFloat.float) : result (option str) :=
  let response_lines := split newline (strip model_response) in
  found <- scan_lines response_lines width_scale_factor height_scale_factor ;;
  match found with
  | Some a => Ok (Some a)
  | None => scan_full (strip model_response) width_scale_factor height_scale_factor
  end.

(** A text given by its lines, each ended by a line feed. *)
Definition text_of_lines (lines : list string) : str :=
  flat_map (fun l => lit l ++ [newline]) lines.

(** The three triple-quoted texts of [generate_context_aware_prompt]. *)
Definition locate_search_text : str :=
  text_of_lines
    [EmptyString;
     "CRITICAL: Respond with ONLY ONE action line in the exact format shown below.";
     EmptyString;
     "Locate the search bar or search icon on this screen.";
     EmptyString;
     "RESPOND WITH EXACTLY ONE OF THESE:";
     "TAP (x,y) # Search bar";
     "TAP (x,y) # Search icon  ";
     "SCROLL down # to find search";
     EmptyString;
     "Do NOT provide explanations. Only respond with the action line."]%string.

Definition enter_query_text : str :=
  text_of_lines
    [EmptyString;
     "CRITICAL: Respond with ONLY ONE action line in the exact format shown below.";
     EmptyString;
     "Look for a text input field or search box where you can type.";
     EmptyString;
     "RESPOND WITH EXACTLY ONE OF THESE:";
     "TYPE 'headphones under 1000' # search query";
     "TAP (x,y) # search input field";
     "SCROLL down # to find input";
     EmptyString;
     "Do NOT provide explanations. Only respond with the action line."]%string.

Definition browse_results_text : str :=
  text_of_lines
    [EmptyString;
     "CRITICAL: Respond with ONLY ONE action line in the exact format shown below.";
     EmptyString;
     "Look for search results or product filters.";
     EmptyString;
     "RESPOND WITH EXACTLY ONE OF THESE:";
     "TAP (x,y) # product or filter";
     "SCROLL down # see more results";
     "TASK_COMPLETE: Found relevant products";
     EmptyString;
     "Do NOT provide explanations. Only respond with the action line."]%string.

Definition generate_context_aware_prompt (task_instruction : str) (current_step : Z)
           (search_initiated query_entered : bool) : str :=
  let task_header :=
    lit "Task: " ++ task_instruction ++ [newline]
      ++ lit "Step: " ++ str_of_int current_step ++ lit "/15" ++ [newline; newline] in
  if negb search_initiated then task_header ++ locate_search_text
  else if negb query_entered then task_header ++ enter_query_text
  else task_header ++ browse_results_text.

End QwenVisionAgent.

(* ================================================================== *)
(** * core/android_controller.py, as seen by its callers *)
(* ================================================================== *)

Module AndroidController.
Import Py.

Inductive direction := up | down.

(** One call on the device bridge. *)
Inductive command :=
| perform_tap_action (x_coordinate y_coordinate : Z)
| perform_text_input (input_text : str)
| perform_scroll_action (scroll_direction : direction).

(** [complete_command] of [run_adb_command]: what is run for the
    arguments [command_args]. *)
Definition complete_command (target_device_id : str) (command_args : list str)
  : list str :=
  [lit "adb"; lit "-s"; target_device_id] ++ command_args.

(** [escaped_text] of [perform_text_input]: four replacements in turn. *)
Definition escaped_text (input_text : str) : str :=
  replace_char ")"%char (lit "\)")
    (replace_char "("%char (lit "\(")
       (replace_char "&"%char (lit "\&")
          (replace_char " "%char (lit "%s") input_text))).

(** The arguments of the one [run_adb_command] of [perform_scroll_action]. *)
Definition scroll_args (scroll_direction : str) : list str :=
  if str_eqb (lower scroll_direction) (lit "up")
  then map lit ["shell"; "input"; "swipe"; "500"; "300"; "500"; "1000"]%string
  else map lit ["shell"; "input"; "swipe"; "500"; "1000"; "500"; "300"]%string.

(** The string that a caller passes for a direction. *)
Definition direction_text (d : direction) : str :=
  match d with
  | up => lit "up"
  | down => lit "down"
  end.

(** The arguments of the [run_adb_command] calls that a call on the
    bridge makes, in order.  [subprocess.run] raises [ValueError] for an
    argument that holds a NUL character, before it runs anything, and
    [run_adb_command] does not catch it: the call on the bridge then raises
    with no command run.  Only a text to type can hold a NUL. *)
Definition adb_calls (c : command) : result (list (list str)) :=
  match c with
  | perform_tap_action x_coordinate y_coordinate =>
      Ok [[lit "shell"; lit "input"; lit "tap";
           str_of_int x_coordinate; str_of_int y_coordinate]]
  | perform_text_input input_text =>
      if has_nul (escaped_text input_text) then Raise ValueError
      else Ok [[lit "shell"; lit "input"; lit "text"; escaped_text input_text];
               [lit "shell"; lit "input"; lit "keyevent"; lit "KEYCODE_ENTER"]]
  | perform_scroll_action scroll_direction =>
      Ok [scroll_args (direction_text scroll_direction)]
  end.

(** The commands run for a list of calls on the bridge that all return. *)
Fixpoint adb_log (calls : list command) : result (list (list str)) :=
  match calls with
  | [] => Ok []
  | c :: rest =>
      first <- adb_calls c ;;
      more <- adb_log rest ;;
      Ok (first ++ more)
  end.

(** How [_establish_connection] ends, given the output of [adb devices]:
    with [self.target_device_id] set, or with an exception. *)
Inductive connection :=
| connected (target_device_id : str)
| no_devices_detected
| index_error.

(** The list comprehension over the lines after the first; [None] when
    [line.split()[0]] raises. *)
Fixpoint available_devices (lines : list str) : option (list str) :=
  match lines with
  | [] => Some []
  | line :: rest =>
      if truthy (strip line) && has "device" line then
        match split_ws line with
        | first :: _ =>
            match available_devices rest with
            | Some ids => Some (first :: ids)
            | None => None
            end
        | [] => None
        end
      else available_devices rest
  end.

Definition establish_connection (stdout : str) : connection :=
  match available_devices (tl (split "010"%char (strip stdout))) with
  | None => index_error
  | Some [] => no_devices_detected
  | Some (first :: _) => connected first
  end.

End AndroidController.

(* ================================================================== *)
(** * core/action_coordinator.py *)
(* ================================================================== *)

Module ActionCoordinator.
Import Py Re AndroidController.

(** [self.max_action_repetitions], set once by the constructor. *)
Definition max_action_repetitions : Z := 2.

(** The f-string [TAP({group 1},{group 2})]. *)
Definition coordinate_string (gx gy : str) : str :=
  lit "TAP(" ++ gx ++ lit "," ++ gy ++ lit ")".

Definition is_action_repeating (executed_actions_history : list str)
           (action_command : str) : bool :=
  match tap_search action_command with
  | Some (gx, gy) =>
      let recent_actions := last_n 4 executed_actions_history in
      max_action_repetitions <=? count str_eqb (coordinate_string gx gy) recent_actions
  | None => false
  end.

(** One of the four tests of the line loop holds. *)
Definition is_action_line (line : str) : bool :=
  matches tap_plain_re line
  || matches type_open_re line
  || has_upper "SCROLL" line
  || has_upper "TASK_COMPLETE" line.

(** The line loop: the first stripped line that passes a test. *)
Fixpoint first_action_line (action_lines : list str) : option str :=
  match action_lines with
  | [] => None
  | l :: rest =>
      let line := strip l in
      if is_action_line line then Some line else first_action_line rest
  end.

(** The value of [cleaned_action] after the line loop. *)
Definition primary_action (action_command : str) : str :=
  let cleaned_action := strip action_command in
  match first_action_line (split QwenVisionAgent.newline cleaned_action) with
  | Some line => line
  | None => cleaned_action
  end.

(** What a call leaves behind: the history, the calls on the bridge
    that returned, and the returned flag or the exception that ended the
    call. *)
Record outcome := {
  history_after : list str;
  sent : list command;
  returned : result bool
}.

Definition execute_parsed_action (executed_actions_history : list str)
           (action_command : str) : outcome :=
  let cleaned_action := primary_action action_command in
  match tap_search cleaned_action with
  | Some (gx, gy) =>
      if is_action_repeating executed_actions_history cleaned_action then
        {| history_after := executed_actions_history;
           sent := [perform_scroll_action down];
           returned := Ok false |}
      else
        (* the identity is appended before the coordinates are read *)
        let tracked :=
          last_n 10 (executed_actions_history ++ [coordinate_string gx gy]) in
        match (x_coord <- int_of_str gx ;;
               y_coord <- int_of_str gy ;;
               Ok (x_coord, y_coord)) with
        | Ok (x_coord, y_coord) =>
            {| history_after := tracked;
               sent := [perform_tap_action x_coord y_coord];
               returned := Ok false |}
        | Raise e =>
            {| history_after := tracked; sent := []; returned := Raise e |}
        end
  | None =>
      match group1 type_re cleaned_action with
      | Some input_text =>
          match adb_calls (perform_text_input input_text) with
          | Ok _ =>
              {| history_after := executed_actions_history;
                 sent := [perform_text_input input_text];
                 returned := Ok false |}
          | Raise e =>
              {| history_after := executed_actions_history;
                 sent := [];
                 returned := Raise e |}
          end
      | None =>
          if has_upper "SCROLL" cleaned_action then
            {| history_after := executed_actions_history;
               sent := [perform_scroll_action
                          (if has_lower "up" cleaned_action then up else down)];
               returned := Ok false |}
          else
            {| history_after := executed_actions_history;
               sent := [];
               returned := Ok (has_upper "TASK_COMPLETE" cleaned_action) |}
      end
  end.

Definition reset_action_history : list str := [].

End ActionCoordinator.

(* ================================================================== *)
(** * core/task_execution_state.py *)
(* ================================================================== *)

Module TaskExecutionState.
Import Py.

Record t := {
  active_task_description : str;
  current_step_number : Z;
  maximum_allowed_steps : Z;
  search_initiated : bool;
  query_entered : bool;
  screen_hash_history : list str
}.

Definition initialize_new_task (self : t) (task_description : str) : t :=
  {| active_task_description := task_description;
     current_step_number := 0;
     maximum_allowed_steps := maximum_allowed_steps self;
     search_initiated := false;
     query_entered := false;
     screen_hash_history := [] |}.

Definition advance_step_counter (self : t) : t :=
  {| active_task_description := active_task_description self;
     current_step_number := current_step_number self + 1;
     maximum_allowed_steps := maximum_allowed_steps self;
     search_initiated := search_initiated self;
     query_entered := query_entered self;
     screen_hash_history := screen_hash_history self |}.

Definition has_reached_step_limit (self : t) : bool :=
  maximum_allowed_steps self <=? current_step_number self.

Definition record_screen_hash (self : t) (screen_hash : str) : t :=
  {| active_task_description := active_task_description self;
     current_step_number := current_step_number self;
     maximum_allowed_steps := maximum_allowed_steps self;
     search_initiated := search_initiated self;
     query_entered := query_entered self;
     screen_hash_history := last_n 5 (screen_hash_history self ++ [screen_hash]) |}.

Definition detect_screen_loop (self : t) (current_screen_hash : str) : bool :=
  member str_eqb current_screen_hash (last_n 3 (screen_hash_history self)).

Definition set_search_initiated (self : t) : t :=
  {| active_task_description := active_task_description self;
     current_step_number := current_step_number self;
     maximum_allowed_steps := maximum_allowed_steps self;
     search_initiated := true;
     query_entered := query_entered self;
     screen_hash_history := screen_hash_history self |}.

Definition set_query_entered (self : t) : t :=
  {| active_task_description := active_task_description self;
     current_step_number := current_step_number self;
     maximum_allowed_steps := maximum_allowed_steps self;
     search_initiated := search_initiated self;
     query_entered := true;
     screen_hash_history := screen_hash_history self |}.

Definition search_keywords : list string :=
  ["search"; "input"; "field"; "box"; "bar"]%string.

Definition update_task_progress (self : t) (executed_action : str) : t :=
  if has "TAP" executed_action
     && existsb (fun search_keyword => has_lower search_keyword executed_action)
                search_keywords
  then set_search_initiated self
  else if has "TYPE" executed_action then set_query_entered self
  else self.

End TaskExecutionState.

(* ================================================================== *)
(** * core/ui_element_parser.py *)
(* ================================================================== *)

Module UIElementParser.
Import Py.

(** One dictionary of [parse_ui_hierarchy]'s result. *)
Record element := {
  center_x : Z;
  center_y : Z;
  display_text : str;
  content_description : str;
  resource_id : str;
  element_class : str;
  is_clickable : bool;
  is_scrollable : bool;
  bounds_string : str;
  element_width : Z;
  element_height : Z
}.

(** An element with the key [search_relevance_score] that
    [identify_search_elements] adds to its dictionary. *)
Record candidate := {
  elem : element;
  search_relevance_score : Z
}.

(** [any(keyword in text for keyword in keywords)] *)
Definition any_in (keywords : list string) (text : str) : bool :=
  existsb (fun keyword => has keyword text) keywords.

Definition relevance_score (e : element) : Z :=
  let text_content := lower (display_text e) in
  let description_content := lower (content_description e) in
  let resource_content := lower (resource_id e) in
  let combined_text :=
    text_content ++ lit " " ++ description_content ++ lit " " ++ resource_content in
  (if any_in ["search"; "find"]%string combined_text then 5 else 0)
  + (if has_lower "edittext" (element_class e) then 4 else 0)
  + (if any_in ["search"; "query"; "input"]%string resource_content then 3 else 0)
  + (if any_in ["search"; "magnify"; "glass"]%string combined_text then 2 else 0)
  + (if (200 <? element_width e) && (30 <? element_height e) then 1 else 0).

(** The loop that collects the candidates, in the order of the list. *)
Fixpoint collect (element_list : list element) : list candidate :=
  match element_list with
  | [] => []
  | e :: rest =>
      let score := relevance_score e in
      if 0 <? score
      then {| elem := e; search_relevance_score := score |} :: collect rest
      else collect rest
  end.

(** [list.sort(key=score, reverse=True)].  The sort of Python is stable,
    also with [reverse=True]: candidates of equal score keep their order.
    The result of a stable sort does not depend on the algorithm, so
    insertion from the right stands for it. *)
Fixpoint insert_desc (c : candidate) (sorted : list candidate) : list candidate :=
  match sorted with
  | [] => [c]
  | d :: rest =>
      if search_relevance_score c <? search_relevance_score d
      then d :: insert_desc c rest
      else c :: sorted
  end.

Fixpoint sort_desc (l : list candidate) : list candidate :=
  match l with
  | [] => []
  | c :: rest => insert_desc c (sort_desc rest)
  end.

(** The score of a candidate, and the order of the ranking: [a] is ranked
    no lower than [b]. *)
Definition score (c : candidate) : Z := search_relevance_score c.


Definition identify_search_elements (element_list : list element) : list candidate :=
  firstn 5 (sort_desc (collect element_list)).

Definition get_clickable_elements (element_list : list element) : list element :=
  filter (fun e => is_clickable e && (100 <? element_width e)) element_list.

(** The f-string [TAP ({x},{y}) # {comment}]. *)
Definition tap_text (x y : Z) (comment : str) : str :=
  lit "TAP (" ++ str_of_int x ++ lit "," ++ str_of_int y ++ lit ") # " ++ comment.

Definition generate_fallback_action (element_list : list element) (step_number : Z)
  : option str :=
  match element_list with
  | [] => None
  | _ =>
      let clickable_elements := get_clickable_elements element_list in
      match clickable_elements with
      | [] => None
      | first :: _ =>
          let selected_element :=
            nth (Z.to_nat (step_number mod Z.of_nat (List.length clickable_elements)))
                clickable_elements first in
          let element_description :=
            str_or (display_text selected_element)
                   (str_or (content_description selected_element)
                           (lit "interactive element")) in
          Some (tap_text (center_x selected_element) (center_y selected_element)
                         (firstn 30 element_description))
      end
  end.

Definition find_elements_with_text (element_list : list element) (search_text : str)
  : list element :=
  let search_term := lower search_text in
  filter (fun e =>
            contains Ascii.eqb search_term
              (lower (display_text e ++ lit " " ++ content_description e)))
         element_list.

Definition find_elements_by_class (element_list : list element) (class_name : str)
  : list element :=
  let target_class := lower class_name in
  filter (fun e => contains Ascii.eqb target_class (lower (element_class e)))
         element_list.

(** A node of the parsed XML tree: its attributes and its children. *)
Unset Elimination Schemes.
Inductive xml_node := Element (attrib : list (str * str)) (children : list xml_node).
Set Elimination Schemes.

(** What [extract_element_data] appends for the node itself, if anything. *)
Definition node_element (node_attributes : list (str * str)) : option element :=
  let clickable :=
    str_eqb (dict_get node_attributes (lit "clickable") (lit "false")) (lit "true") in
  let scrollable :=
    str_eqb (dict_get node_attributes (lit "scrollable") (lit "false")) (lit "true") in
  let element_text := strip (dict_get node_attributes (lit "text") []) in
  let description := strip (dict_get node_attributes (lit "content-desc") []) in
  let resource_identifier := strip (dict_get node_attributes (lit "resource-id") []) in
  let class := strip (dict_get node_attributes (lit "class") []) in
  let element_bounds := dict_get node_attributes (lit "bounds") [] in
  if truthy element_bounds then
    match Re.findall Re.bounds_re element_bounds with
    | [[x1; y1]; [x2; y2]] =>
        match (top_left_x <- int_of_str x1 ;;
               top_left_y <- int_of_str y1 ;;
               bottom_right_x <- int_of_str x2 ;;
               bottom_right_y <- int_of_str y2 ;;
               Ok (top_left_x, top_left_y, bottom_right_x, bottom_right_y)) with
        | Ok (top_left_x, top_left_y, bottom_right_x, bottom_right_y) =>
            let cx := (top_left_x + bottom_right_x) / 2 in
            let cy := (top_left_y + bottom_right_y) / 2 in
            if (clickable || scrollable || truthy element_text || truthy description)
               && (0 <? cx) && (0 <? cy)
            then Some {| center_x := cx;
                         center_y := cy;
                         display_text := element_text;
                         content_description := description;
                         resource_id := resource_identifier;
                         element_class := class;
                         is_clickable := clickable;
                         is_scrollable := scrollable;
                         bounds_string := element_bounds;
                         element_width := bottom_right_x - top_left_x;
                         element_height := bottom_right_y - top_left_y |}
            else None
        | Raise _ => None   (* [except: pass] *)
        end
    | _ => None
    end
  else None.

(** The nodes are visited parent first, children in order. *)
Fixpoint extract_element_data (node : xml_node) : list element :=
  match node with
  | Element node_attributes children =>
      match node_element node_attributes with
      | Some e => [e]
      | None => []
      end ++ flat_map extract_element_data children
  end.

(** [xml_tree] is the tree that [ET.parse] gives; [None] stands for an
    empty path, a missing file or a file that does not parse. *)
Definition parse_ui_hierarchy (xml_tree : option xml_node) : list element :=
  match xml_tree with
  | Some root_element => extract_element_data root_element
  | None => []
  end.

End UIElementParser.

(* ================================================================== *)
(** * core/app_utilities.py *)
(* ================================================================== *)

Module AppUtilities.
Import Py.

Definition supported_apps : list string :=
  ["flipkart"; "amazon"; "blinkit"; "zomato"; "ola"]%string.

Fixpoint first_keyword (apps : list string) (instruction_text : str) : string :=
  match apps with
  | [] => "unknown"%string
  | app_keyword :: rest =>
      if has app_keyword instruction_text then app_keyword
      else first_keyword rest instruction_text
  end.

Definition extract_app_identifier (task_instruction : str) : str :=
  lit (first_keyword supported_apps (lower task_instruction)).

Definition get_predefined_fallback_actions : list str :=
  [lit "TAP (540,150)"; lit "SCROLL down"; lit "TAP (100,300)"; lit "TAP (540,400)"].

Definition package_mapping : list (string * string) :=
  [("flipkart", "com.flipkart.android");
   ("amazon", "in.amazon.mShop.android.shopping");
   ("blinkit", "com.grofers.customerapp");
   ("zomato", "com.application.zomata");
   ("ola", "com.olacabs.customer")]%string.

(** [package_mapping.get(app_identifier.lower(), app_identifier)] *)
Definition get_app_package_name (app_identifier : str) : str :=
  dict_get (map (fun kv => (lit (fst kv), lit (snd kv))) package_mapping)
           (lower app_identifier) app_identifier.

Definition validate_coordinate_range (x_coord y_coord max_x max_y : Z) : bool :=
  (0 <=? x_coord) && (x_coord <=? max_x) && (0 <=? y_coord) && (y_coord <=? max_y).

End AppUtilities.

(* ================================================================== *)
(** * intelligent_mobile_agent.py *)
(* ================================================================== *)

Module IntelligentMobileAgent.
Import Py Re AndroidController.

(** The mutable state of the agent: [self.execution_state] and the history
    held by [self.action_coordinator]. *)
Record agent := {
  execution_state : TaskExecutionState.t;
  executed_actions_history : list str
}.

(** What the collaborators answer during one pass of the loop.
    [screen_hash] is [calculate_screen_hash] of the screenshot, when
    [capture_device_screenshot] succeeded; [ui_elements] is the result of
    [parse_ui_hierarchy], when [capture_ui_hierarchy] succeeded;
    [qwen_response] and the two scale factors are the result of
    [query_qwen_vision_model]. *)
Record observation := {
  screen_hash : option str;
  ui_elements : option (list UIElementParser.element);
  qwen_response : option str;
  width_scale_factor : PyFloat.float;
  height_scale_factor : PyFloat.float
}.

(** The branch that assigned [action_to_execute]. *)
Inductive tier := vision_tier | ui_tier | fixed_tier.

(** How one pass of the loop ended: [continue] after a screen loop, the
    normal end of the body with the value of [task_completion_achieved],
    or [break] with [final_execution_result]. *)
Inductive control :=
| continue_after_screen_loop
| end_of_body (task_completion_achieved : bool)
| break_with (final_execution_result : str).

Record pass := {
  after : agent;
  device_log : list command;
  action_to_execute : option str;
  decided_by : option tier;
  ended : control
}.

Definition with_state (a : agent) (s : TaskExecutionState.t) : agent :=
  {| execution_state := s; executed_actions_history := executed_actions_history a |}.

(** The primary branch: the reply of the vision model, parsed and scaled;
    the progress flags are updated when an action comes out. *)
Definition primary (o : observation) (s : TaskExecutionState.t)
  : result (option str * TaskExecutionState.t) :=
  match qwen_response o with
  | Some response =>
      if truthy response then
        parsed <- QwenVisionAgent.extract_action_from_response
                    response (width_scale_factor o) (height_scale_factor o) ;;
        match parsed with
        | Some action =>
            if truthy action
            then Ok (Some action, TaskExecutionState.update_task_progress s action)
            else Ok (None, s)
        | None => Ok (None, s)
        end
      else Ok (None, s)
  | None => Ok (None, s)
  end.

(** The f-string of the search tap of the secondary branch. *)
Definition search_tap_text (best : UIElementParser.candidate) : str :=
  let e := UIElementParser.elem best in
  lit "TAP (" ++ str_of_int (UIElementParser.center_x e) ++ lit ","
    ++ str_of_int (UIElementParser.center_y e) ++ lit ") # Search: "
    ++ str_or (UIElementParser.display_text e) (UIElementParser.content_description e).

(** The secondary branch, entered without an action and with a captured
    UI hierarchy. *)
Definition secondary (parsed_ui_elements : list UIElementParser.element)
           (s : TaskExecutionState.t) : option str * TaskExecutionState.t :=
  let '(action, s1) :=
    if negb (TaskExecutionState.search_initiated s) then
      match UIElementParser.identify_search_elements parsed_ui_elements with
      | best_search_element :: _ =>
          (Some (search_tap_text best_search_element),
           TaskExecutionState.set_search_initiated s)
      | [] => (None, s)
      end
    else (None, s) in
  match action with
  | Some a => (Some a, s1)
  | None =>
      (UIElementParser.generate_fallback_action
         parsed_ui_elements (TaskExecutionState.current_step_number s1), s1)
  end.

(** The tertiary branch. *)
Definition tertiary (s : TaskExecutionState.t) : str :=
  let fallback_action_options := AppUtilities.get_predefined_fallback_actions in
  nth (Z.to_nat (TaskExecutionState.current_step_number s
                 mod Z.of_nat (List.length fallback_action_options)))
      fallback_action_options [].

(** [final_execution_result] at the [break]. *)
Definition completion_result (action : str) : str :=
  match group1 complete_re action with
  | Some message => message
  | None => lit "Task completed successfully"
  end.

(** The three branches in turn: the chosen action, the branch that chose
    it and the state after the choice. *)
Definition choose_action (o : observation) (s : TaskExecutionState.t)
  : result (str * tier * TaskExecutionState.t) :=
  first <- match screen_hash o with
           | Some _ => primary o s
           | None => Ok (None, s)
           end ;;
  let '(a1, s1) := first in
  let '(a2, t2, s2) :=
    match a1, ui_elements o with
    | Some a, _ => (Some a, vision_tier, s1)
    | None, Some parsed_ui_elements =>
        let '(a, s') := secondary parsed_ui_elements s1 in (a, ui_tier, s')
    | None, None => (None, ui_tier, s1)
    end in
  match a2 with
  | Some a => if truthy a then Ok (a, t2, s2) else Ok (tertiary s2, fixed_tier, s2)
  | None => Ok (tertiary s2, fixed_tier, s2)
  end.

(** One pass of the [while] body. *)
Definition loop_body (o : observation) (a : agent) : result pass :=
  let s0 := TaskExecutionState.advance_step_counter (execution_state a) in
  let stalled :=
    match screen_hash o with
    | Some current_screen_hash =>
        TaskExecutionState.detect_screen_loop s0 current_screen_hash
    | None => false
    end in
  if stalled then
    Ok {| after := with_state a s0;
          device_log := [perform_scroll_action down];
          action_to_execute := None;
          decided_by := None;
          ended := continue_after_screen_loop |}
  else
    let s1 :=
      match screen_hash o with
      | Some current_screen_hash =>
          TaskExecutionState.record_screen_hash s0 current_screen_hash
      | None => s0
      end in
    chosen <- choose_action o s1 ;;
    let '(action, t, s2) := chosen in
    let done := ActionCoordinator.execute_parsed_action
                  (executed_actions_history a) action in
    task_completion_achieved <- ActionCoordinator.returned done ;;
    let s3 := TaskExecutionState.update_task_progress s2 action in
    Ok {| after := {| execution_state := s3;
                      executed_actions_history := ActionCoordinator.history_after done |};
          device_log := ActionCoordinator.sent done;
          action_to_execute := Some action;
          decided_by := Some t;
          ended := if has "TASK_COMPLETE" action
                   then break_with (completion_result action)
                   else end_of_body task_completion_achieved |}.

(** The [while] loop.  [env] gives the answers of the collaborators at each
    step number; the result is the list of passes made and the value of
    [final_execution_result] when the loop is left.  [fuel] is the number
    of passes that the loop is allowed.  Every pass advances the step
    counter, so the loop is left by its own test when [fuel] is at least
    the number of steps left, and its result is then the same for every
    such [fuel]. *)
Fixpoint main_loop (fuel : nat) (env : Z -> observation) (a : agent)
  : result (list pass * str) :=
  match fuel with
  | O => Ok ([], [])
  | S fuel' =>
      if TaskExecutionState.has_reached_step_limit (execution_state a)
      then Ok ([], [])
      else
        p <- loop_body
               (env (TaskExecutionState.current_step_number (execution_state a) + 1)) a ;;
        match ended p with
        | break_with final_execution_result => Ok ([p], final_execution_result)
        | end_of_body true => Ok ([p], [])
        | _ =>
            more <- main_loop fuel' env (after p) ;;
            Ok (p :: fst more, snd more)
        end
  end.

Definition last_agent (a : agent) (passes : list pass) : agent :=
  last (map after passes) a.

(** [execute_task_instruction]: the passes made and the returned text.
    [launched] is the answer of [launch_application]. *)
Definition execute_task_instruction (self : agent) (task_instruction : str)
           (launched : bool) (env : Z -> observation) : result (list pass * str) :=
  let a0 :=
    {| execution_state :=
         TaskExecutionState.initialize_new_task (execution_state self) task_instruction;
       executed_actions_history := ActionCoordinator.reset_action_history |} in
  let app_identifier := AppUtilities.extract_app_identifier task_instruction in
  if negb (str_eqb app_identifier (lit "unknown")) && negb launched
  then Ok ([], lit "Failed to launch target application")
  else
    let fuel := Z.to_nat (TaskExecutionState.maximum_allowed_steps (execution_state a0)) in
    run <- main_loop fuel env a0 ;;
    let '(passes, final_execution_result) := run in
    let final_step :=
      TaskExecutionState.current_step_number (execution_state (last_agent a0 passes)) in
    Ok (passes,
        if truthy final_execution_result then final_execution_result
        else lit "Task completed in " ++ str_of_int final_step ++ lit " steps.").

Definition screenshot_storage_dir : str := lit "device_screenshots".
Definition ui_hierarchy_storage_dir : str := lit "ui_hierarchy_dumps".

(** [capture_device_state]: the state after the call and the two paths
    returned.  The two flags are the answers of [capture_device_screenshot]
    and [capture_ui_hierarchy]. *)
Definition capture_device_state (s : TaskExecutionState.t)
           (screenshot_captured ui_hierarchy_captured : bool)
  : TaskExecutionState.t * (option str * option str) :=
  let s' := TaskExecutionState.advance_step_counter s in
  let step := format_02d (TaskExecutionState.current_step_number s') in
  let screenshot_file_path :=
    screenshot_storage_dir ++ lit "/step_" ++ step ++ lit ".png" in
  let ui_hierarchy_file_path :=
    ui_hierarchy_storage_dir ++ lit "/step_" ++ step ++ lit ".xml" in
  (s', (if screenshot_captured then Some screenshot_file_path else None,
        if ui_hierarchy_captured then Some ui_hierarchy_file_path else None)).

End IntelligentMobileAgent.

(* ================================================================== *)
(** * agent_config.py *)
(* ================================================================== *)

Module AgentConfig.
Import Py.

(** [os.environ]: the assignments made, the most recent first. *)
Definition environ := list (str * str).

(** [os.getenv(key)] *)
Fixpoint getenv (env : environ) (key : str) : option str :=
  match env with
  | [] => None
  | (k, v) :: env' => if str_eqb k key then Some v else getenv env' key
  end.

Definition nul : ascii := "000"%char.

(** [os.environ[key] = value] raises for an empty name and for a NUL
    character in the name or in the value; a name taken before the first
    [=] of a line holds no [=]. *)
Definition assignable (key value : str) : bool :=
  truthy key
  && negb (existsb (Ascii.eqb nul) key)
  && negb (existsb (Ascii.eqb nul) value).

(** The loop over the lines of the file.  An exception raised by an
    assignment ends the loop: what was assigned before stays. *)
Fixpoint load_lines (config_file : list str) (env : environ) : environ :=
  match config_file with
  | [] => env
  | l :: rest =>
      let config_line := strip l in
      if truthy config_line
         && negb (startswith Ascii.eqb (lit "#") config_line)
         && has "=" config_line
      then
        let config_key := strip (before_first "="%char config_line) in
        let config_value := strip (after_first "="%char config_line) in
        if assignable config_key config_value
        then load_lines rest ((config_key, config_value) :: env)
        else env
      else load_lines rest env
  end.

(** [config_file] is the list of the lines of the file, [None] when the
    file does not exist. *)
Definition load_environment_variables (config_file : option (list str))
           (env : environ) : environ :=
  match config_file with
  | Some lines => load_lines lines env
  | None => env
  end.

(** The attributes of [AgentConfiguration] that are read from the
    environment. *)
Record AgentConfiguration := {
  huggingface_api_token : str;
  target_android_device_id : option str;
  maximum_steps : Z;
  maximum_action_repetitions : Z;
  screenshot_compression_quality : Z;
  debug_logging_enabled : bool
}.

(** [os.getenv(key, default)] *)
Definition getenv_default (env : environ) (key default : string) : str :=
  match getenv env (lit key) with
  | Some v => v
  | None => lit default
  end.

(** The constructor of [AgentConfiguration]: the file is loaded into the
    environment, then the attributes are read from it. *)
Definition __init__ (config_file : option (list str)) (env : environ)
  : result AgentConfiguration :=
  let env := load_environment_variables config_file env in
  let token := getenv_default env "HUGGINGFACE_API_TOKEN" EmptyString in
  if negb (truthy token) then Raise ValueError
  else
    steps <- int_of_str (getenv_default env "MAXIMUM_EXECUTION_STEPS" "20") ;;
    repetitions <- int_of_str (getenv_default env "MAXIMUM_ACTION_REPETITIONS" "3") ;;
    quality <- int_of_str (getenv_default env "SCREENSHOT_COMPRESSION_QUALITY" "95") ;;
    Ok {| huggingface_api_token := token;
          target_android_device_id := getenv env (lit "TARGET_ANDROID_DEVICE_ID");
          maximum_steps := steps;
          maximum_action_repetitions := repetitions;
          screenshot_compression_quality := quality;
          debug_logging_enabled :=
            str_eqb (lower (getenv_default env "DEBUG_LOGGING_ENABLED" "false"))
                    (lit "true") |}.

Definition validate_configuration (self : AgentConfiguration) : bool :=
  if negb (truthy (huggingface_api_token self))
     || str_eqb (huggingface_api_token self) (lit "your_hugging_face_api_key_here")
  then false
  else if (maximum_steps self <? 1) || (50 <? maximum_steps self) then false
  else true.

(** [get_agent_configuration]: what the call returns or raises, and the
    global [agent_configuration_instance] after it.  [constructed] is the
    outcome of the constructor [AgentConfiguration()]. *)
Definition get_agent_configuration
           (agent_configuration_instance : option AgentConfiguration)
           (constructed : result AgentConfiguration)
  : result AgentConfiguration * option AgentConfiguration :=
  match agent_configuration_instance with
  | None =>
      match constructed with
      | Raise e => (Raise e, None)
      | Ok instance =>
          if validate_configuration instance
          then (Ok instance, Some instance)
          else (Raise ValueError, Some instance)
      end
  | Some instance => (Ok instance, Some instance)
  end.

End AgentConfig.

(* ================================================================== *)
(** * Notions used to state the properties *)
(* ================================================================== *)

Module Notions.
Import TaskExecutionState.

Inductive phase := SearchPending | SearchStarted | QueryEntered.

(** A typed query puts the task in [QueryEntered] whatever came before;
    otherwise a started search puts it in [SearchStarted]. *)
Definition phase_of (s : TaskExecutionState.t) : phase :=
  if query_entered s then QueryEntered
  else if search_initiated s then SearchStarted
  else SearchPending.

Definition rank (p : phase) : nat :=
  match p with
  | SearchPending => 0
  | SearchStarted => 1
  | QueryEntered => 2
  end.

Definition le (p q : phase) : Prop := (rank p <= rank q)%nat.

(** The first test of [update_task_progress]: a tap with a search word. *)
Definition is_search_tap (executed_action : Py.str) : bool :=
  Py.has "TAP" executed_action
  && existsb (fun search_keyword => Py.has_lower search_keyword executed_action)
             search_keywords.

(** Two states that differ at most by progress flags that were raised. *)
Definition advanced (s s' : TaskExecutionState.t) : Prop :=
  screen_hash_history s' = screen_hash_history s
  /\ current_step_number s' = current_step_number s
  /\ maximum_allowed_steps s' = maximum_allowed_steps s
  /\ (search_initiated s = true -> search_initiated s' = true)
  /\ (query_entered s = true -> query_entered s' = true).

(** The step counter of an agent. *)
Definition step_of (a : IntelligentMobileAgent.agent) : Z :=
  current_step_number (IntelligentMobileAgent.execution_state a).

(** A stripped line at which the line loop of the parser returns: it is
    not skipped and one of the four tests holds. *)
Definition actionable (line : Py.str) : bool :=
  negb (QwenVisionAgent.skipped line)
  && (Re.matches Re.tap_re line
      || Re.matches Re.type_open_re line
      || Py.has_upper "SCROLL" line
      || Py.has_upper "TASK_COMPLETE" line).

(** The first line of a reply, stripped, at which the line loop returns. *)
Fixpoint first_actionable (response_lines : list Py.str) : option Py.str :=
  match response_lines with
  | [] => None
  | l :: rest =>
      if actionable (Py.strip l) then Some (Py.strip l) else first_actionable rest
  end.

(** The lines of a reply, as the parser splits it. *)
Definition lines_of (model_response : Py.str) : list Py.str :=
  Py.split QwenVisionAgent.newline (Py.strip model_response).

(** A string without leading or trailing white space. *)
Definition stripped (s : Py.str) : Prop := Py.strip s = s.

(** A string within one line. *)
Definition one_line (s : Py.str) : Prop := ~ In QwenVisionAgent.newline s.

(** What is returned for the line at which the loop returns. *)
Definition line_result (line : Py.str) (sw sh : PyFloat.float)
  : Py.result (option Py.str) :=
  match Re.tap_search line with
  | Some (gx, gy) =>
      a <- QwenVisionAgent.scaled_tap gx gy sw sh (QwenVisionAgent.comment_of line) ;;
      Py.Ok (Some a)
  | None => Py.Ok (Some line)
  end.

(** The text in which the parser looks for the tap pattern, and the
    comment it puts on the tap: the first line at which the line loop
    returns, with the comment of that line, or else the whole stripped reply,
    with the fixed comment of the fallback. *)
Definition decides (model_response text comment : Py.str) : Prop :=
  (first_actionable (lines_of model_response) = Some text
   /\ comment = QwenVisionAgent.comment_of text)
  \/ (first_actionable (lines_of model_response) = None
      /\ text = Py.strip model_response
      /\ comment = Py.lit "extracted and scaled").


(** How many times [x] stands in [l]. *)
Definition occurrences (x : Py.str) (l : list Py.str) : nat :=
  count_occ (list_eq_dec ascii_dec) l x.

(** The collaborators give nothing: no screenshot, no UI hierarchy. *)
Definition blind : IntelligentMobileAgent.observation :=
  {| IntelligentMobileAgent.screen_hash := None;
     IntelligentMobileAgent.ui_elements := None;
     IntelligentMobileAgent.qwen_response := None;
     IntelligentMobileAgent.width_scale_factor := PyFloat.one;
     IntelligentMobileAgent.height_scale_factor := PyFloat.one |}.

(** The vision model answers with one fixed reply, at scale 1; the
    screenshot is captured and the UI hierarchy is not. *)
Definition replying (reply : Py.str) : IntelligentMobileAgent.observation :=
  {| IntelligentMobileAgent.screen_hash := Some (Py.lit "d41d8cd9");
     IntelligentMobileAgent.ui_elements := None;
     IntelligentMobileAgent.qwen_response := Some reply;
     IntelligentMobileAgent.width_scale_factor := PyFloat.one;
     IntelligentMobileAgent.height_scale_factor := PyFloat.one |}.

(** An agent as its constructor leaves it, with a step budget. *)
Definition new_agent (maximum_steps : Z) : IntelligentMobileAgent.agent :=
  {| IntelligentMobileAgent.execution_state :=
       {| active_task_description := [];
          current_step_number := 0;
          maximum_allowed_steps := maximum_steps;
          search_initiated := false;
          query_entered := false;
          screen_hash_history := [] |};
     IntelligentMobileAgent.executed_actions_history := [] |}.

(** What the escaping of [perform_text_input] puts for one character. *)
Definition escape_char (c : ascii) : Py.str :=
  if Ascii.eqb c " " then Py.lit "%s"
  else if Ascii.eqb c "&" then Py.lit "\&"
  else if Ascii.eqb c "(" then Py.lit "\("
  else if Ascii.eqb c ")" then Py.lit "\)"
  else [c].

(** The three characters that the escaping protects with a backslash. *)
Definition protected (c : ascii) : bool :=
  Ascii.eqb c "&" || Ascii.eqb c "(" || Ascii.eqb c ")".


(** An attribute of a node that is read as a text, and one that is read
    as a flag. *)
Definition text_attribute (node_attributes : list (Py.str * Py.str)) (name : string)
  : Py.str :=
  Py.dict_get node_attributes (Py.lit name) [].

Definition flag_attribute (node_attributes : list (Py.str * Py.str)) (name : string)
  : bool :=
  Py.str_eqb (Py.dict_get node_attributes (Py.lit name) (Py.lit "false")) (Py.lit "true").

(** A node that can be clicked or scrolled, or that shows a text or a
    description. *)
Definition informative (node_attributes : list (Py.str * Py.str)) : bool :=
  flag_attribute node_attributes "clickable"
  || flag_attribute node_attributes "scrollable"
  || Py.truthy (Py.strip (text_attribute node_attributes "text"))
  || Py.truthy (Py.strip (text_attribute node_attributes "content-desc")).

(** A node of a search bar, as a UI dump has it. *)
Definition search_bar_node : UIElementParser.xml_node :=
  UIElementParser.Element
    [(Py.lit "bounds", Py.lit "[0,40][1080,200]");
     (Py.lit "clickable", Py.lit "true");
     (Py.lit "text", Py.lit " Search ")] [].

(** The text in which [find_elements_with_text] looks for the term. *)
Definition element_content (e : UIElementParser.element) : Py.str :=
  Py.lower (UIElementParser.display_text e ++ Py.lit " "
              ++ UIElementParser.content_description e).

(** [p] occurs in [s]. *)
Definition occurs (p s : Py.str) : Prop := exists a b, s = a ++ p ++ b.

(** What the loop of [load_environment_variables] reads on a line: the
    name and the value of an assignment, or nothing. *)
Definition assignment (raw : Py.str) : option (Py.str * Py.str) :=
  let config_line := Py.strip raw in
  if Py.truthy config_line
     && negb (Py.startswith Ascii.eqb (Py.lit "#") config_line)
     && Py.has "=" config_line
  then Some (Py.strip (Py.before_first "="%char config_line),
             Py.strip (Py.after_first "="%char config_line))
  else None.

(** A line that the loop passes without an exception. *)
Definition passes_quietly (raw : Py.str) : Prop :=
  match assignment raw with
  | Some (k, v) => AgentConfig.assignable k v = true
  | None => True
  end.

(** A line that does not assign the name [key]. *)
Definition leaves (key raw : Py.str) : Prop :=
  match assignment raw with
  | Some (k, _) => k <> key
  | None => True
  end.

(** A character that [int] accepts nowhere in a number: not a digit, not
    a sign, not an underscore, not white space. *)
Definition not_numeric (c : ascii) : bool :=
  negb (Py.isdigit c || Py.int_space c
        || Ascii.eqb c "_" || Ascii.eqb c "+" || Ascii.eqb c "-").

(** The three numbers that the constructor of the configuration reads,
    with their defaults. *)
Definition numeric_settings : list (string * string) :=
  [("MAXIMUM_EXECUTION_STEPS", "20");
   ("MAXIMUM_ACTION_REPETITIONS", "3");
   ("SCREENSHOT_COMPRESSION_QUALITY", "95")]%string.

End Notions.

(* ================================================================== *)
(** * Properties *)
(* ================================================================== *)

Import Py.

(** ** Strings and lists *)

Lemma str_eqb_eq (a b : str) : str_eqb a b = true <-> a = b.
Proof.
  unfold str_eqb. destruct (list_eq_dec ascii_dec a b); split; congruence.
Qed.

Lemma str_eqb_refl (a : str) : str_eqb a a = true.
Proof. now apply str_eqb_eq. Qed.

Lemma str_eqb_neq (a b : str) : a <> b -> str_eqb a b = false.
Proof.
  intros H. destruct (str_eqb a b) eqn:E; [|reflexivity].
  apply str_eqb_eq in E. contradiction.
Qed.

Lemma member_In (x : str) (l : list str) : member str_eqb x l = true <-> In x l.
Proof.
  unfold member. rewrite existsb_exists. split.
  - intros [y [Hy E]]. apply str_eqb_eq in E. now subst.
  - intros H. exists x. split; [assumption | apply str_eqb_refl].
Qed.

Lemma count_nonneg (x : str) (l : list str) : 0 <= count str_eqb x l.
Proof. induction l as [|y l IH]; simpl; [lia | destruct (str_eqb x y); lia]. Qed.

Lemma count_notin (x : str) (l : list str) : ~ In x l -> count str_eqb x l = 0.
Proof.
  induction l as [|y l IH]; simpl; intros H; [reflexivity|].
  rewrite str_eqb_neq by (intros ->; apply H; now left).
  rewrite IH; [reflexivity | intros Hin; apply H; now right].
Qed.

Lemma last_n_length (A : Type) (n : nat) (l : list A) :
  (List.length (last_n n l) <= n)%nat.
Proof. unfold last_n. rewrite length_skipn. lia. Qed.

Lemma last_n_short (A : Type) (n : nat) (l : list A) :
  (List.length l <= n)%nat -> last_n n l = l.
Proof.
  intros H. unfold last_n. replace (List.length l - n)%nat with 0%nat by lia.
  reflexivity.
Qed.

Lemma last_n_suffix (A : Type) (older recent : list A) (n : nat) :
  List.length recent = n -> last_n n (older ++ recent) = recent.
Proof.
  intros H. unfold last_n. rewrite length_app.
  replace (List.length older + List.length recent - n)%nat
    with (List.length older + 0)%nat by lia.
  rewrite skipn_app, Nat.add_0_r, skipn_all.
  replace (List.length older - List.length older)%nat with 0%nat by lia.
  reflexivity.
Qed.

Lemma last_n_exact_length (A : Type) (n : nat) (l : list A) :
  List.length (last_n n l) = Nat.min n (List.length l).
Proof. unfold last_n. rewrite length_skipn. lia. Qed.

Lemma last_n_In (A : Type) (n : nat) (l : list A) (x : A) :
  In x (last_n n l) -> In x l.
Proof.
  unfold last_n. intros H. rewrite <- (firstn_skipn (List.length l - n) l).
  apply in_or_app. now right.
Qed.

Lemma last_n_snoc (A : Type) (n : nat) (l : list A) (x : A) :
  In x (last_n (S n) (l ++ [x])).
Proof.
  unfold last_n. rewrite length_app. simpl.
  replace (List.length l + 1 - S n)%nat with (List.length l - n)%nat by lia.
  rewrite skipn_app. apply in_or_app.
  destruct (Nat.le_gt_cases (List.length l) n) as [Hle|Hgt].
  - right. replace (List.length l - n - List.length l)%nat with 0%nat by lia.
    now left.
  - right. replace (List.length l - n - List.length l)%nat with 0%nat by lia.
    now left.
Qed.

(** ** The progress flags *)

Section Progress.
Import TaskExecutionState Notions.

Lemma update_task_progress_cases (s : t) (a : str) :
  update_task_progress s a =
    if is_search_tap a then set_search_initiated s
    else if has "TYPE" a then set_query_entered s
    else s.
Proof. reflexivity. Qed.

Lemma update_task_progress_frame (s : t) (a : str) :
  screen_hash_history (update_task_progress s a) = screen_hash_history s
  /\ current_step_number (update_task_progress s a) = current_step_number s
  /\ maximum_allowed_steps (update_task_progress s a) = maximum_allowed_steps s
  /\ active_task_description (update_task_progress s a) = active_task_description s.
Proof.
  rewrite update_task_progress_cases.
  destruct (is_search_tap a); [|destruct (has "TYPE" a)]; simpl; auto.
Qed.

Lemma update_task_progress_flags (s : t) (a : str) :
  (search_initiated s = true -> search_initiated (update_task_progress s a) = true)
  /\ (query_entered s = true -> query_entered (update_task_progress s a) = true).
Proof.
  rewrite update_task_progress_cases.
  destruct (is_search_tap a); [|destruct (has "TYPE" a)]; simpl; auto.
Qed.

End Progress.

(** ** One pass of the loop: what the choice of an action leaves alone *)

Section PassFrame.
Import TaskExecutionState IntelligentMobileAgent Notions.

Lemma advanced_refl (s : TaskExecutionState.t) : advanced s s.
Proof. unfold advanced; auto. Qed.

Lemma advanced_trans (s1 s2 s3 : TaskExecutionState.t) :
  advanced s1 s2 -> advanced s2 s3 -> advanced s1 s3.
Proof.
  unfold advanced. intros (A1 & A2 & A3 & A4 & A5) (B1 & B2 & B3 & B4 & B5).
  repeat split; try congruence; auto.
Qed.

Lemma advanced_update (s : TaskExecutionState.t) (a : str) :
  advanced s (update_task_progress s a).
Proof.
  destruct (update_task_progress_frame s a) as (H1 & H2 & H3 & _).
  destruct (update_task_progress_flags s a) as (H4 & H5).
  unfold advanced; auto.
Qed.

Lemma advanced_set_search (s : TaskExecutionState.t) :
  advanced s (set_search_initiated s).
Proof. unfold advanced; simpl; auto. Qed.

Lemma primary_advanced (o : observation) (s s' : TaskExecutionState.t) (a : option str) :
  primary o s = Ok (a, s') -> advanced s s'.
Proof.
  unfold primary. destruct (qwen_response o) as [r|].
  - destruct (truthy r).
    + destruct (QwenVisionAgent.extract_action_from_response _ _ _) as [[x|]|e];
        simpl; try discriminate.
      * destruct (truthy x); intros H; inversion H; subst;
          [apply advanced_update | apply advanced_refl].
      * intros H; inversion H; subst; apply advanced_refl.
    + intros H; inversion H; subst; apply advanced_refl.
  - intros H; inversion H; subst; apply advanced_refl.
Qed.

Lemma secondary_advanced (l : list UIElementParser.element)
      (s s' : TaskExecutionState.t) (a : option str) :
  secondary l s = (a, s') -> advanced s s'.
Proof.
  unfold secondary.
  destruct (negb (search_initiated s)).
  - destruct (UIElementParser.identify_search_elements l) as [|b bs].
    + intros H; inversion H; subst; apply advanced_refl.
    + intros H; inversion H; subst; apply advanced_set_search.
  - intros H; inversion H; subst; apply advanced_refl.
Qed.

Lemma choose_action_advanced (o : observation) (s s' : TaskExecutionState.t)
      (a : str) (t : tier) :
  choose_action o s = Ok (a, t, s') -> advanced s s'.
Proof.
  unfold choose_action.
  destruct (match screen_hash o with Some _ => primary o s | None => Ok (None, s) end)
    as [[a1 s1]|e] eqn:E1; simpl; [|discriminate].
  assert (A1 : advanced s s1).
  { destruct (screen_hash o).
    - eapply primary_advanced; eassumption.
    - inversion E1; subst; apply advanced_refl. }
  destruct a1 as [x|].
  - destruct (truthy x); intros H; inversion H; subst; assumption.
  - destruct (ui_elements o) as [l|].
    + destruct (secondary l s1) as [a2 s2] eqn:E2.
      assert (A2 : advanced s1 s2) by (eapply secondary_advanced; eassumption).
      destruct a2 as [x|]; [destruct (truthy x)|]; intros H; inversion H; subst;
        eapply advanced_trans; eassumption.
    + intros H; inversion H; subst; assumption.
Qed.

(** The tertiary branch decides exactly when the other two gave nothing,
    and then the action is the entry of the fixed list at the step number
    modulo the length of the list. *)
Lemma choose_action_fixed (o : observation) (s s' : TaskExecutionState.t)
      (a : str) :
  choose_action o s = Ok (a, fixed_tier, s') -> a = tertiary s.
Proof.
  intros H. pose proof (choose_action_advanced _ _ H) as (_ & Hstep & _).
  revert H. unfold choose_action.
  destruct (match screen_hash o with Some _ => primary o s | None => Ok (None, s) end)
    as [[a1 s1]|e]; simpl; [|discriminate].
  destruct a1 as [x|].
  - destruct (truthy x); intros H; inversion H; subst.
    unfold tertiary. now rewrite Hstep.
  - destruct (ui_elements o) as [l|].
    + destruct (secondary l s1) as [a2 s2].
      destruct a2 as [x|]; [destruct (truthy x)|]; intros H; inversion H; subst;
        unfold tertiary; now rewrite Hstep.
    + intros H; inversion H; subst. unfold tertiary; now rewrite Hstep.
Qed.

End PassFrame.

(** ** The shape of a pass *)

Section PassCases.
Import TaskExecutionState ActionCoordinator IntelligentMobileAgent AndroidController Notions.

(** A pass that returns is a stalled pass, or a pass in which an action is
    chosen and the coordinator returns a flag. *)
Lemma loop_body_cases (o : observation) (a : agent) (p : pass) :
  loop_body o a = Ok p ->
  (match screen_hash o with
   | Some h => detect_screen_loop (advance_step_counter (execution_state a)) h
   | None => false
   end = true
   /\ p = {| after := with_state a (advance_step_counter (execution_state a));
             device_log := [perform_scroll_action down];
             action_to_execute := None;
             decided_by := None;
             ended := continue_after_screen_loop |})
  \/ (match screen_hash o with
      | Some h => detect_screen_loop (advance_step_counter (execution_state a)) h
      | None => false
      end = false
      /\ exists action t s2 flag,
           choose_action o
             match screen_hash o with
             | Some h => record_screen_hash (advance_step_counter (execution_state a)) h
             | None => advance_step_counter (execution_state a)
             end
           = Ok (action, t, s2)
           /\ returned (execute_parsed_action (executed_actions_history a) action)
              = Ok flag
           /\ p = {| after :=
                       {| execution_state := update_task_progress s2 action;
                          executed_actions_history :=
                            history_after
                              (execute_parsed_action (executed_actions_history a) action) |};
                     device_log :=
                       sent (execute_parsed_action (executed_actions_history a) action);
                     action_to_execute := Some action;
                     decided_by := Some t;
                     ended := if has "TASK_COMPLETE" action
                              then break_with (completion_result action)
                              else end_of_body flag |}).
Proof.
  unfold loop_body.
  destruct (match screen_hash o with
            | Some h => detect_screen_loop (advance_step_counter (execution_state a)) h
            | None => false end).
  - intros H. injection H as <-. left. split; reflexivity.
  - destruct (choose_action o _) as [[[act t] s2]|e] eqn:C; [|discriminate].
    unfold bind at 1.
    destruct (returned (execute_parsed_action (executed_actions_history a) act))
      as [flag|e] eqn:R; [|discriminate].
    unfold bind. intros H. injection H as <-. right. split; [reflexivity|].
    exists act, t, s2, flag. repeat split; assumption.
Qed.

End PassCases.

(** ** Screen-loop detection *)

Section ScreenLoop.
Import TaskExecutionState IntelligentMobileAgent AndroidController Notions.

Lemma detect_screen_loop_In (s : TaskExecutionState.t) (h : str) :
  detect_screen_loop (advance_step_counter s) h = true
  <-> In h (last_n 3 (screen_hash_history s)).
Proof. unfold detect_screen_loop. simpl. apply member_In. Qed.

(** C3. A stall is declared exactly when the fingerprint of the current
    screen is among the last three recorded fingerprints: among the three
    entries at the end of the history, whatever stands before them, and
    among all entries when there are at most three.  So a history
    [h; h2; h3] followed by [h] again is a stall, and in a history of four
    entries the first one is not looked at.  A stalled pass sends one scroll
    down, chooses no action through any tier and leaves the fingerprint
    history, the action history and the progress flags as they were; a pass
    that is not stalled records the fingerprint at the end of the history,
    of which the last five entries are kept, and goes on to choose an
    action. *)
Theorem C3_stall_detection :
  forall (a : agent) (o : observation) (h : str),
    screen_hash o = Some h ->
    (forall older recent,
        screen_hash_history (execution_state a) = older ++ recent ->
        List.length recent = 3%nat ->
        (detect_screen_loop (advance_step_counter (execution_state a)) h = true
         <-> In h recent))
    /\ ((List.length (screen_hash_history (execution_state a)) <= 3)%nat ->
        (detect_screen_loop (advance_step_counter (execution_state a)) h = true
         <-> In h (screen_hash_history (execution_state a))))
    /\ (forall h2 h3,
          screen_hash_history (execution_state a) = [h; h2; h3] ->
          detect_screen_loop (advance_step_counter (execution_state a)) h = true)
    /\ (forall h1 h2 h3 h4,
          screen_hash_history (execution_state a) = [h1; h2; h3; h4] ->
          (detect_screen_loop (advance_step_counter (execution_state a)) h = true
           <-> h = h2 \/ h = h3 \/ h = h4))
    /\ (detect_screen_loop (advance_step_counter (execution_state a)) h = true ->
        exists p,
          loop_body o a = Ok p
          /\ ended p = continue_after_screen_loop
          /\ action_to_execute p = None
          /\ decided_by p = None
          /\ device_log p = [perform_scroll_action down]
          /\ screen_hash_history (execution_state (after p))
             = screen_hash_history (execution_state a)
          /\ executed_actions_history (after p) = executed_actions_history a
          /\ search_initiated (execution_state (after p))
             = search_initiated (execution_state a)
          /\ query_entered (execution_state (after p))
             = query_entered (execution_state a)
          /\ current_step_number (execution_state (after p))
             = current_step_number (execution_state a) + 1)
    /\ (detect_screen_loop (advance_step_counter (execution_state a)) h = false ->
        forall p,
          loop_body o a = Ok p ->
          ended p <> continue_after_screen_loop
          /\ (exists action, action_to_execute p = Some action)
          /\ (exists dropped,
                screen_hash_history (execution_state a) ++ [h]
                = dropped ++ screen_hash_history (execution_state (after p)))
          /\ List.length (screen_hash_history (execution_state (after p)))
             = Nat.min 5 (List.length (screen_hash_history (execution_state a)) + 1)).
Proof.
  intros a o h Ho.
  split.
  { intros older recent E L. rewrite detect_screen_loop_In, E.
    now rewrite (last_n_suffix older recent L). }
  split.
  { intros L. rewrite detect_screen_loop_In. now rewrite last_n_short. }
  split.
  { intros h2 h3 Hh. apply detect_screen_loop_In. rewrite Hh.
    unfold last_n; simpl. now left. }
  split.
  { intros h1 h2 h3 h4 Hh. rewrite detect_screen_loop_In, Hh.
    change [h1; h2; h3; h4] with ([h1] ++ [h2; h3; h4]).
    rewrite (@last_n_suffix _ [h1] [h2; h3; h4] 3%nat eq_refl). simpl.
    split.
    - intros [E|[E|[E|[]]]]; auto.
    - intros [E|[E|E]]; auto. }
  split.
  - intros D. unfold loop_body. rewrite Ho, D.
    eexists. split; [reflexivity|]. simpl. repeat split; reflexivity.
  - intros D p H. apply loop_body_cases in H. rewrite Ho, D in H.
    destruct H as [[H _]|(_ & act & t & s2 & flag & C & R & ->)]; [discriminate|].
    cbn [ended action_to_execute after execution_state].
    split; [destruct (has "TASK_COMPLETE" act); discriminate|].
    split; [now exists act|].
    destruct (update_task_progress_frame s2 act) as (-> & _).
    apply choose_action_advanced in C. destruct C as (-> & _).
    cbn [record_screen_hash screen_hash_history advance_step_counter].
    split.
    + exists (firstn (List.length (screen_hash_history (execution_state a) ++ [h]) - 5)
                     (screen_hash_history (execution_state a) ++ [h])).
      unfold last_n. now rewrite firstn_skipn.
    + rewrite last_n_exact_length, length_app. simpl. lia.
Qed.

End ScreenLoop.

(** ** The progress machine *)

Section ProgressMachine.
Import TaskExecutionState IntelligentMobileAgent Notions.

Lemma advanced_phase (s s' : TaskExecutionState.t) :
  advanced s s' -> le (phase_of s) (phase_of s').
Proof.
  intros (_ & _ & _ & Hs & Hq). unfold le, phase_of.
  destruct (query_entered s), (search_initiated s),
    (query_entered s'), (search_initiated s'); simpl; try lia;
    try (specialize (Hq eq_refl); discriminate);
    try (specialize (Hs eq_refl); discriminate).
Qed.

Lemma loop_body_flags (o : observation) (a : agent) (p : pass) :
  loop_body o a = Ok p ->
  (search_initiated (execution_state a) = true ->
   search_initiated (execution_state (after p)) = true)
  /\ (query_entered (execution_state a) = true ->
      query_entered (execution_state (after p)) = true).
Proof.
  intros H. apply loop_body_cases in H.
  destruct H as [[_ ->]|(_ & act & t & s2 & flag & C & _ & ->)].
  - simpl. auto.
  - cbn [after execution_state].
    apply choose_action_advanced in C.
    destruct C as (_ & _ & _ & C4 & C5).
    destruct (update_task_progress_flags s2 act) as (U4 & U5).
    destruct (screen_hash o); simpl in *; auto.
Qed.

(** C4. The progress never goes back: [update_task_progress] never clears
    a flag that is set, the phase after it is never before the phase it
    started from, the only changes of phase are from [SearchPending] to
    [SearchStarted] on a tap with a search word and to [QueryEntered] on an
    action with [TYPE], and [QueryEntered] is kept by every later action, a
    tap included.  The flags are not cleared by a whole pass of the loop
    either. *)
Theorem C4_progress_never_regresses :
  forall (s : TaskExecutionState.t) (executed_action : str),
    (search_initiated s = true ->
     search_initiated (update_task_progress s executed_action) = true)
    /\ (query_entered s = true ->
        query_entered (update_task_progress s executed_action) = true)
    /\ le (phase_of s) (phase_of (update_task_progress s executed_action))
    /\ (phase_of (update_task_progress s executed_action) <> phase_of s ->
        (phase_of s = SearchPending
         /\ phase_of (update_task_progress s executed_action) = SearchStarted
         /\ is_search_tap executed_action = true)
        \/ (phase_of (update_task_progress s executed_action) = QueryEntered
            /\ is_search_tap executed_action = false
            /\ has "TYPE" executed_action = true))
    /\ (phase_of s = QueryEntered ->
        phase_of (update_task_progress s executed_action) = QueryEntered)
    /\ (forall (o : observation) (a : agent) (p : pass),
          execution_state a = s ->
          loop_body o a = Ok p ->
          (search_initiated s = true ->
           search_initiated (execution_state (after p)) = true)
          /\ (query_entered s = true ->
              query_entered (execution_state (after p)) = true)).
Proof.
  intros s a.
  pose proof (update_task_progress_flags s a) as [Hs Hq].
  split; [exact Hs|]. split; [exact Hq|].
  split; [apply advanced_phase, advanced_update|].
  split.
  - rewrite update_task_progress_cases. unfold phase_of.
    destruct (is_search_tap a) eqn:T.
    + simpl. destruct (query_entered s), (search_initiated s); intros H;
        try (exfalso; apply H; reflexivity); left; auto.
    + destruct (has "TYPE" a) eqn:Y.
      * simpl. intros _. right. auto.
      * intros H. exfalso; apply H; reflexivity.
  - split.
    + unfold phase_of. intros H.
      destruct (query_entered s) eqn:Q.
      * now rewrite (Hq eq_refl).
      * destruct (search_initiated s); discriminate.
    + intros o ag p <- Hp. eapply loop_body_flags; eassumption.
Qed.

End ProgressMachine.

(** ** The matcher *)

Section Matcher.
Import Re.

Lemma greedy_invariant (R : Type) (P : R -> Prop) (p : ascii -> bool)
      (k : str -> str -> option R) :
  (forall g rest r, k g rest = Some r -> P r) ->
  forall s acc r, greedy p k acc s = Some r -> P r.
Proof.
  intros Hk. induction s as [|x s IH]; simpl; intros acc r.
  - apply Hk.
  - destruct (p x); [|apply Hk].
    destruct (greedy p k (x :: acc) s) eqn:E.
    + intros H; inversion H; subst. eapply IH; eassumption.
    + apply Hk.
Qed.

Lemma greedy_some_iff (R1 R2 : Type) (p : ascii -> bool)
      (k1 : str -> str -> option R1) (k2 : str -> str -> option R2) :
  (forall g rest, k1 g rest = None <-> k2 g rest = None) ->
  forall s acc, greedy p k1 acc s = None <-> greedy p k2 acc s = None.
Proof.
  intros Hk. induction s as [|x s IH]; simpl; intros acc.
  - apply Hk.
  - destruct (p x); [|apply Hk].
    specialize (IH (x :: acc)).
    destruct (greedy p k1 (x :: acc) s), (greedy p k2 (x :: acc) s);
      try apply Hk; try (split; discriminate).
    + destruct IH as [_ IH]. specialize (IH eq_refl). discriminate.
    + destruct IH as [IH _]. specialize (IH eq_refl). discriminate.
Qed.

(** A run of the class that cannot be extended is taken whole when the
    rest of the pattern accepts what follows it. *)
Lemma greedy_run (R : Type) (p : ascii -> bool) (k : str -> str -> option R)
      (run rest : str) (r : R) :
  Forall (fun c => p c = true) run ->
  forall acc,
    k (rev acc ++ run) rest = Some r ->
    match rest with [] => True | c :: _ => p c = false end ->
    greedy p k acc (run ++ rest) = Some r.
Proof.
  induction 1 as [|x run Hx Hrun IH]; intros acc Hk Hstop.
  - simpl. rewrite app_nil_r in Hk.
    destruct rest as [|c rest]; simpl; [assumption|]. now rewrite Hstop.
  - simpl. rewrite Hx. rewrite (IH (x :: acc)); [reflexivity| |assumption].
    simpl. now rewrite <- app_assoc.
Qed.

Lemma match_here_groups (r : regex) :
  forall s gs, match_here r s = Some gs -> List.length gs = ngroups r.
Proof.
  induction r as [|a r IH]; intros s gs.
  - simpl. intros H; inversion H; reflexivity.
  - destruct a as [c|p|p|p|p]; simpl match_here.
    + destruct s as [|x s]; [discriminate|]. destruct (Ascii.eqb x c); [apply IH|discriminate].
    + destruct s as [|x s]; [discriminate|]. destruct (p x); [apply IH|discriminate].
    + revert gs. apply (@greedy_invariant _ (fun gs => List.length gs = ngroups r)).
      intros _ rest r0. apply IH.
    + destruct s as [|x s]; [discriminate|]. destruct (p x); [|discriminate].
      revert gs. apply (@greedy_invariant _ (fun gs => List.length gs = ngroups r)).
      intros _ rest r0. apply IH.
    + destruct s as [|x s]; [discriminate|]. destruct (p x); [|discriminate].
      revert gs. apply (@greedy_invariant _ (fun gs => List.length gs = S (ngroups r))).
      intros g rest r0.
      destruct (match_here r rest) as [gs0|] eqn:E; [|discriminate].
      intros H; inversion H; subst. simpl. f_equal. eapply IH; eassumption.
Qed.

Lemma search_groups (r : regex) (s : str) (gs : list str) :
  search r s = Some gs -> List.length gs = ngroups r.
Proof.
  induction s as [|x s IH]; simpl.
  - destruct (match_here r []) eqn:E; [|discriminate].
    intros H; inversion H; subst. eapply match_here_groups; eassumption.
  - destruct (match_here r (x :: s)) eqn:E; [|assumption].
    intros H; inversion H; subst. eapply match_here_groups; eassumption.
Qed.

(** [tap_search] fails only when the pattern has no match. *)
Lemma tap_search_none (s : str) : tap_search s = None <-> search tap_re s = None.
Proof.
  unfold tap_search. destruct (search tap_re s) as [gs|] eqn:E.
  - apply search_groups in E. simpl in E.
    destruct gs as [|gx [|gy [|z gs]]]; simpl in E; try discriminate.
    split; discriminate.
  - split; reflexivity.
Qed.


Lemma group1_complete_none (s : str) :
  group1 complete_re s = None <-> search complete_re s = None.
Proof.
  unfold group1. destruct (search complete_re s) as [gs|] eqn:E.
  - apply search_groups in E. simpl in E.
    destruct gs as [|g [|z gs]]; simpl in E; try discriminate.
    split; discriminate.
  - split; reflexivity.
Qed.

(** Capturing does not change whether a pattern matches. *)
Lemma match_here_erase (r : regex) :
  forall s, match_here (erase r) s = None <-> match_here r s = None.
Proof.
  induction r as [|a r IH]; intros s.
  - simpl. tauto.
  - destruct a as [c|p|p|p|p]; simpl.
    + destruct s as [|x s]; [tauto|]. destruct (Ascii.eqb x c); [apply IH|tauto].
    + destruct s as [|x s]; [tauto|]. destruct (p x); [apply IH|tauto].
    + apply greedy_some_iff. intros _ rest. apply IH.
    + destruct s as [|x s]; [tauto|]. destruct (p x); [|tauto].
      apply greedy_some_iff. intros _ rest. apply IH.
    + destruct s as [|x s]; [tauto|]. destruct (p x); [|tauto].
      apply greedy_some_iff. intros g rest. rewrite IH.
      destruct (match_here r rest); split; congruence.
Qed.

Lemma match_here_tap_plain (s : str) :
  match_here tap_plain_re s = None <-> match_here tap_re s = None.
Proof. apply (match_here_erase tap_re). Qed.

Lemma search_none_iff (r1 r2 : regex) :
  (forall s, match_here r1 s = None <-> match_here r2 s = None) ->
  forall s, search r1 s = None <-> search r2 s = None.
Proof.
  intros H. induction s as [|x s IH]; simpl.
  - destruct (match_here r1 []) eqn:E1, (match_here r2 []) eqn:E2.
    + split; discriminate.
    + apply (H []) in E2. congruence.
    + apply (H []) in E1. congruence.
    + tauto.
  - destruct (match_here r1 (x :: s)) eqn:E1, (match_here r2 (x :: s)) eqn:E2.
    + split; discriminate.
    + apply (H (x :: s)) in E2. congruence.
    + apply (H (x :: s)) in E1. congruence.
    + exact IH.
Qed.

Lemma matches_tap_plain (s : str) :
  matches tap_plain_re s = match tap_search s with Some _ => true | None => false end.
Proof.
  pose proof (search_none_iff _ _ match_here_tap_plain s) as H.
  pose proof (tap_search_none s) as T.
  unfold matches.
  destruct (search tap_plain_re s) eqn:E1, (tap_search s) eqn:E2; try reflexivity.
  - assert (E3 : search tap_re s = None) by (now apply T).
    apply H in E3. congruence.
  - assert (E3 : search tap_re s = None) by (now apply H).
    apply T in E3. congruence.
Qed.

End Matcher.

(** ** The coordinator *)

Section Coordinator.
Import Re ActionCoordinator AndroidController.



End Coordinator.

(** ** The search ranker *)

Section Ranker.
Import UIElementParser.

Lemma collect_filter (l : list element) :
  collect l
  = map (fun e => {| elem := e; search_relevance_score := relevance_score e |})
        (filter (fun e => 0 <? relevance_score e) l).
Proof.
  induction l as [|e l IH]; simpl; [reflexivity|].
  destruct (0 <? relevance_score e); simpl; now rewrite IH.
Qed.

Lemma collect_In (l : list element) (c : candidate) :
  In c (collect l)
  <-> In (elem c) l /\ score c = relevance_score (elem c) /\ 0 < score c.
Proof.
  rewrite collect_filter, in_map_iff. split.
  - intros (e & <- & He). apply filter_In in He. destruct He as [He Hp].
    apply Z.ltb_lt in Hp. simpl. auto.
  - intros (He & Hs & Hp). exists (elem c). split.
    + destruct c as [e sc]. unfold score in Hs. simpl in *. now subst.
    + apply filter_In. split; [assumption|]. apply Z.ltb_lt. now rewrite <- Hs.
Qed.

Lemma insert_desc_perm (c : candidate) (l : list candidate) :
  Permutation (insert_desc c l) (c :: l).
Proof.
  induction l as [|d l IH]; simpl; [reflexivity|].
  destruct (search_relevance_score c <? search_relevance_score d); [|reflexivity].
  rewrite IH. apply perm_swap.
Qed.

Lemma sort_desc_perm (l : list candidate) : Permutation (sort_desc l) l.
Proof.
  induction l as [|c l IH]; simpl; [reflexivity|].
  rewrite insert_desc_perm. now constructor.
Qed.








End Ranker.

Section Ranking.
Import UIElementParser.



End Ranking.

(** ** The step loop *)

Section StepLoop.
Import TaskExecutionState IntelligentMobileAgent Notions.

Lemma loop_body_step (o : observation) (a : agent) (p : pass) :
  loop_body o a = Ok p -> step_of (after p) = step_of a + 1.
Proof.
  intros H. apply loop_body_cases in H. unfold step_of.
  destruct H as [[_ ->]|(_ & act & t & s2 & flag & C & _ & ->)]; [reflexivity|].
  cbn [after execution_state].
  destruct (update_task_progress_frame s2 act) as (_ & -> & _).
  apply choose_action_advanced in C. destruct C as (_ & -> & _).
  destruct (screen_hash o); reflexivity.
Qed.

(** The action of a pass decided by the tertiary branch. *)
Lemma loop_body_fixed (o : observation) (a : agent) (p : pass) :
  loop_body o a = Ok p ->
  decided_by p = Some fixed_tier ->
  action_to_execute p
  = Some (nth (Z.to_nat ((step_of a + 1) mod 4))
              AppUtilities.get_predefined_fallback_actions []).
Proof.
  intros H. apply loop_body_cases in H. unfold step_of.
  destruct H as [[_ ->]|(_ & act & t & s2 & flag & C & _ & ->)]; [discriminate|].
  cbn [decided_by action_to_execute].
  intros T; inversion T; subst.
  apply choose_action_fixed in C. subst act. unfold tertiary.
  destruct (screen_hash o); reflexivity.
Qed.

(** The passes of a run are made at consecutive step numbers. *)
Lemma main_loop_nth (fuel : nat) (env : Z -> observation) :
  forall (a : agent) (passes : list pass) (final : str) (i : nat) (p : pass),
    main_loop fuel env a = Ok (passes, final) ->
    nth_error passes i = Some p ->
    exists b,
      step_of b = step_of a + Z.of_nat i
      /\ loop_body (env (step_of b + 1)) b = Ok p.
Proof.
  induction fuel as [|fuel IH]; intros a passes final i p; simpl.
  - intros H; inversion H; subst. destruct i; discriminate.
  - destruct (has_reached_step_limit (execution_state a)).
    { intros H; inversion H; subst. destruct i; discriminate. }
    destruct (loop_body _ a) as [q|e] eqn:B; simpl; [|discriminate].
    assert (Hone : forall f, Ok ([q], f) = Ok (passes, final) ->
                   nth_error passes i = Some p ->
                   exists b, step_of b = step_of a + Z.of_nat i
                             /\ loop_body (env (step_of b + 1)) b = Ok p).
    { intros f H Hi. inversion H; subst.
      destruct i as [|[|i]]; simpl in Hi; try discriminate.
      inversion Hi; subst. exists a. split; [simpl; lia | exact B]. }
    assert (Hmore : (more <- main_loop fuel env (after q) ;; Ok (q :: fst more, snd more))
                    = Ok (passes, final) ->
                    nth_error passes i = Some p ->
                    exists b, step_of b = step_of a + Z.of_nat i
                              /\ loop_body (env (step_of b + 1)) b = Ok p).
    { destruct (main_loop fuel env (after q)) as [[ps f]|e] eqn:M; simpl; [|discriminate].
      intros H Hi. inversion H; subst.
      destruct i as [|i]; simpl in Hi.
      + inversion Hi; subst. exists a. split; [simpl; lia | exact B].
      + destruct (IH _ _ _ _ _ M Hi) as (b & Hb & Lb).
        exists b. split; [|exact Lb].
        rewrite Hb, (loop_body_step _ _ B). lia. }
    destruct (ended q) as [|[|]|f].
    + exact Hmore.
    + apply Hone.
    + exact Hmore.
    + apply Hone.
Qed.

End StepLoop.

Section FixedFallback.
Import TaskExecutionState IntelligentMobileAgent Notions.

Lemma choose_action_nothing (o : observation) (s : TaskExecutionState.t) :
  (screen_hash o = None \/ primary o s = Ok (None, s)) ->
  (ui_elements o = None
   \/ exists l, ui_elements o = Some l /\ secondary l s = (None, s)) ->
  choose_action o s = Ok (tertiary s, fixed_tier, s).
Proof.
  intros Hv Hu. unfold choose_action.
  assert (E : match screen_hash o with
              | Some _ => primary o s
              | None => Ok (None, s)
              end = Ok (None, s)).
  { destruct Hv as [-> | Hv]; [reflexivity|]. now destruct (screen_hash o). }
  rewrite E. simpl.
  destruct Hu as [-> | (l & -> & Hl)]; [reflexivity|].
  rewrite Hl. reflexivity.
Qed.

(** C7 (amended). A pass decided by the fixed fallback takes the entry of
    the fallback list at its step number modulo 4, the step number being
    counted from 1 within the task.  Four consecutive passes that are all
    decided by the fixed fallback, the first at step [s], take the
    positions [s mod 4], [(s+1) mod 4], [(s+2) mod 4] and [(s+3) mod 4].
    The fixed fallback decides whenever the vision branch and the UI branch
    both give no action. *)
Theorem C7_fixed_fallback_by_step_number :
  forall (fuel : nat) (env : Z -> observation) (a : agent)
         (passes : list pass) (final : str),
    main_loop fuel env a = Ok (passes, final) ->
    (forall i p,
        nth_error passes i = Some p ->
        decided_by p = Some fixed_tier ->
        action_to_execute p
        = Some (nth (Z.to_nat ((step_of a + 1 + Z.of_nat i) mod 4))
                    AppUtilities.get_predefined_fallback_actions []))
    /\ (forall i p0 p1 p2 p3,
          nth_error passes i = Some p0 ->
          nth_error passes (i + 1) = Some p1 ->
          nth_error passes (i + 2) = Some p2 ->
          nth_error passes (i + 3) = Some p3 ->
          Forall (fun p => decided_by p = Some fixed_tier) [p0; p1; p2; p3] ->
          map action_to_execute [p0; p1; p2; p3]
          = map (fun k =>
                   Some (nth (Z.to_nat ((step_of a + 1 + Z.of_nat i + k) mod 4))
                             AppUtilities.get_predefined_fallback_actions []))
                [0; 1; 2; 3])
    /\ (forall o s,
          (screen_hash o = None \/ primary o s = Ok (None, s)) ->
          (ui_elements o = None
           \/ exists l, ui_elements o = Some l /\ secondary l s = (None, s)) ->
          choose_action o s
          = Ok (nth (Z.to_nat (current_step_number s mod 4))
                    AppUtilities.get_predefined_fallback_actions [],
                fixed_tier, s)).
Proof.
  intros fuel env a passes final Hrun.
  assert (Hone : forall i p,
             nth_error passes i = Some p ->
             decided_by p = Some fixed_tier ->
             action_to_execute p
             = Some (nth (Z.to_nat ((step_of a + 1 + Z.of_nat i) mod 4))
                         AppUtilities.get_predefined_fallback_actions [])).
  { intros i p Hi Hf.
    destruct (main_loop_nth _ _ _ _ Hrun Hi) as (b & Hb & Lb).
    rewrite (loop_body_fixed _ _ Lb Hf), Hb.
    replace (step_of a + 1 + Z.of_nat i) with (step_of a + Z.of_nat i + 1) by lia.
    reflexivity. }
  split; [exact Hone|]. split.
  - intros i p0 p1 p2 p3 H0 H1 H2 H3 HF.
    inversion HF as [|? ? F0 HF1]; subst.
    inversion HF1 as [|? ? F1 HF2]; subst.
    inversion HF2 as [|? ? F2 HF3]; subst.
    inversion HF3 as [|? ? F3 _]; subst.
    simpl.
    rewrite (Hone _ _ H0 F0), (Hone _ _ H1 F1), (Hone _ _ H2 F2), (Hone _ _ H3 F3).
    replace (step_of a + 1 + Z.of_nat i + 0) with (step_of a + 1 + Z.of_nat i) by lia.
    replace (step_of a + 1 + Z.of_nat (i + 1)) with (step_of a + 1 + Z.of_nat i + 1) by lia.
    replace (step_of a + 1 + Z.of_nat (i + 2)) with (step_of a + 1 + Z.of_nat i + 2) by lia.
    replace (step_of a + 1 + Z.of_nat (i + 3)) with (step_of a + 1 + Z.of_nat i + 3) by lia.
    reflexivity.
  - intros o s Hv Hu. rewrite (@choose_action_nothing o s Hv Hu). reflexivity.
Qed.

(** A task of four steps in which the collaborators give nothing. *)
Lemma C7_witness :
  map action_to_execute
      (match main_loop 4 (fun _ => blind) (new_agent 20) with
       | Ok (passes, _) => passes
       | Raise _ => []
       end)
  = [Some (lit "SCROLL down"); Some (lit "TAP (100,300)");
     Some (lit "TAP (540,400)"); Some (lit "TAP (540,150)")].
Proof.
  destruct (main_loop 4 (fun _ => blind) (new_agent 20)) as [[passes final]|e] eqn:E;
    [|vm_compute in E; discriminate].
  pose proof (proj1 (proj2 (C7_fixed_fallback_by_step_number _ _ _ E))) as H.
  assert (P : exists p0 p1 p2 p3, passes = [p0; p1; p2; p3]
              /\ Forall (fun p => decided_by p = Some fixed_tier) [p0; p1; p2; p3]).
  { vm_compute in E. inversion E; subst.
    do 4 eexists. split; [reflexivity|]. repeat constructor. }
  destruct P as (p0 & p1 & p2 & p3 & -> & HF).
  exact (H 0%nat p0 p1 p2 p3 eq_refl eq_refl eq_refl eq_refl HF).
Defined.

(** C7, as stated, fails: in a task in which both branches give nothing
    from the first step on, the first four passes are decided by the fixed
    fallback and take the positions 1, 2, 3, 0 of the list, in this order,
    and not the positions 0, 1, 2, 3. *)
Lemma C7_counterexample :
  match execute_task_instruction (new_agent 4) (lit "find watermelons") true
                                 (fun _ => blind) with
  | Ok (passes, final) =>
      map decided_by passes
      = [Some fixed_tier; Some fixed_tier; Some fixed_tier; Some fixed_tier]
      /\ map action_to_execute passes
         = map (fun k => Some (nth k AppUtilities.get_predefined_fallback_actions []))
               [1; 2; 3; 0]%nat
      /\ map action_to_execute passes
         <> map (fun k => Some (nth k AppUtilities.get_predefined_fallback_actions []))
                [0; 1; 2; 3]%nat
  | Raise _ => False
  end.
Proof.
  vm_compute. split; [reflexivity|]. split; [reflexivity|]. discriminate.
Qed.

End FixedFallback.

(** ** Decimal text *)

Section DecimalText.

Lemma uint_text_digits (d : Decimal.uint) :
  Forall (fun c => isdigit c = true) (lit (NilEmpty.string_of_uint d)).
Proof. induction d; simpl; constructor; try reflexivity; assumption. Qed.

Lemma uint_text_acc (d : Decimal.uint) :
  forall acc : positive,
    fold_left (fun a c => 10 * a + digit_value c)
              (lit (NilEmpty.string_of_uint d)) (Zpos acc)
    = Zpos (Pos.of_uint_acc d acc).
Proof.
  induction d; intros acc;
    cbn [NilEmpty.string_of_uint lit list_ascii_of_string fold_left Pos.of_uint_acc];
    try reflexivity;
    match goal with
    | |- fold_left _ _ (10 * ?a + digit_value ?c) = Zpos (Pos.of_uint_acc _ ?q) =>
        let v := eval vm_compute in (digit_value c) in
        change (digit_value c) with v;
        replace (10 * a + v) with (Zpos q) by lia
    end; apply IHd.
Qed.

Lemma uint_text_value (d : Decimal.uint) :
  int_of_digits (lit (NilEmpty.string_of_uint d)) = Z.of_N (Pos.of_uint d).
Proof.
  unfold int_of_digits. induction d;
    cbn [NilEmpty.string_of_uint lit list_ascii_of_string fold_left Pos.of_uint Z.of_N];
    try reflexivity; try exact IHd;
    match goal with
    | |- fold_left _ _ (10 * ?a + digit_value ?c) = Zpos (Pos.of_uint_acc _ ?q) =>
        let v := eval vm_compute in (digit_value c) in
        change (digit_value c) with v;
        replace (10 * a + v) with (Zpos q) by lia
    end; apply uint_text_acc.
Qed.

Lemma str_of_int_pos (p : positive) :
  str_of_int (Zpos p) = lit (NilEmpty.string_of_uint (Pos.to_uint p)).
Proof.
  unfold str_of_int. simpl. unfold NilZero.string_of_uint.
  pose proof (DecimalPos.Unsigned.to_uint_nonnil p) as H.
  destruct (Pos.to_uint p); try reflexivity. contradiction.
Qed.

(** The text of a non-negative integer is a non-empty run of digits that
    [int] reads back as the integer. *)
Lemma str_of_int_nonneg (n : Z) :
  0 <= n ->
  str_of_int n <> []
  /\ Forall (fun c => isdigit c = true) (str_of_int n)
  /\ int_of_digits (str_of_int n) = n.
Proof.
  intros Hn. destruct n as [|p|p]; [| |lia].
  - split; [discriminate|]. split; [repeat constructor | reflexivity].
  - rewrite str_of_int_pos. split.
    + pose proof (DecimalPos.Unsigned.to_uint_nonnil p) as H.
      destruct (Pos.to_uint p); try discriminate. contradiction.
    + split; [apply uint_text_digits|].
      rewrite uint_text_value, DecimalPos.Unsigned.of_to. reflexivity.
Qed.

Lemma isdigit_not_space (c : ascii) : isdigit c = true -> isspace c = false.
Proof.
  unfold isdigit, isspace, between. intros H.
  apply andb_true_iff in H. destruct H as [H1 H2].
  apply N.leb_le in H1, H2.
  repeat (apply orb_false_iff; split);
    try (apply andb_false_iff; (left; apply N.leb_gt; lia) || (right; apply N.leb_gt; lia));
    apply N.eqb_neq; lia.
Qed.

Lemma isdigit_not_newline (c : ascii) :
  isdigit c = true -> c <> QwenVisionAgent.newline.
Proof. intros H ->. discriminate. Qed.

End DecimalText.

(** ** Reading decimal text *)

Section IntText.

Lemma int_digits_all (s : str) :
  Forall (fun c => isdigit c = true) s ->
  forall acc,
    int_digits acc s = Some (fold_left (fun a c => 10 * a + digit_value c) s acc).
Proof.
  induction 1 as [|c s Hc Hs IH]; intros acc; simpl; [reflexivity|].
  rewrite Hc. apply IH.
Qed.

Lemma dropwhile_none (A : Type) (p : A -> bool) (l : list A) :
  Forall (fun c => p c = false) l -> dropwhile p l = l.
Proof. intros H. destruct H as [|c l Hc _]; simpl; [reflexivity | now rewrite Hc]. Qed.

Lemma digit_not_int_space (c : ascii) : isdigit c = true -> int_space c = false.
Proof.
  unfold isdigit, int_space, between. intros H.
  apply andb_true_iff in H. destruct H as [H1 H2].
  apply N.leb_le in H1, H2.
  repeat match goal with
         | |- context [(?a <=? ?b)%N] => destruct (N.leb_spec a b)
         | |- context [(?a =? ?b)%N] => destruct (N.eqb_spec a b)
         end; simpl; try reflexivity; lia.
Qed.

Lemma digit_not_sign (c : ascii) :
  isdigit c = true -> Ascii.eqb c "-" = false /\ Ascii.eqb c "+" = false.
Proof.
  intros H. split; apply Ascii.eqb_neq; intros ->; discriminate.
Qed.

Lemma filter_all (A : Type) (p : A -> bool) (l : list A) :
  Forall (fun c => p c = true) l -> filter p l = l.
Proof.
  induction 1 as [|c l Hc Hl IH]; simpl; [reflexivity|]. now rewrite Hc, IH.
Qed.

(** [int] reads a run of at most 4300 digits as [int_of_digits] does, and
    raises on a longer run. *)
Lemma int_of_str_digits (d : str) :
  Forall (fun c => isdigit c = true) d -> d <> [] ->
  int_of_str d
  = if (max_str_digits <? List.length d)%nat then Raise ValueError
    else Ok (int_of_digits d).
Proof.
  intros H N.
  assert (NS : Forall (fun c => int_space c = false) d).
  { eapply Forall_impl; [|exact H]. apply digit_not_int_space. }
  unfold int_of_str.
  rewrite (dropwhile_none _ NS).
  rewrite (dropwhile_none int_space (l := rev d)) by (now apply Forall_rev).
  rewrite rev_involutive.
  destruct d as [|c rest]; [contradiction|]. inversion H as [|? ? Hc Hrest]; subst.
  destruct (digit_not_sign c Hc) as [-> ->]. rewrite Hc.
  rewrite (int_digits_all Hrest). rewrite (filter_all _ H).
  unfold int_of_digits. cbn [fold_left].
  replace (10 * 0 + digit_value c) with (digit_value c) by lia. reflexivity.
Qed.

Lemma int_of_str_short (d : str) :
  Forall (fun c => isdigit c = true) d -> d <> [] ->
  (List.length d <= max_str_digits)%nat ->
  int_of_str d = Ok (int_of_digits d).
Proof.
  intros H N L. rewrite (int_of_str_digits H N).
  destruct (Nat.ltb_spec max_str_digits (List.length d)); [lia | reflexivity].
Qed.

Lemma int_of_str_long (d : str) :
  Forall (fun c => isdigit c = true) d ->
  (max_str_digits < List.length d)%nat ->
  int_of_str d = Raise ValueError.
Proof.
  intros H L. rewrite (int_of_str_digits H).
  - destruct (Nat.ltb_spec max_str_digits (List.length d)); [reflexivity | lia].
  - intros ->. simpl in L. lia.
Qed.

(** What [int] returns for a run of digits, when it returns. *)
Lemma int_of_str_ok (d : str) (v : Z) :
  Forall (fun c => isdigit c = true) d -> int_of_str d = Ok v ->
  v = int_of_digits d /\ d <> [] /\ (List.length d <= max_str_digits)%nat.
Proof.
  intros D H. destruct d as [|c r]; [vm_compute in H; discriminate|].
  rewrite int_of_str_digits in H by (assumption || discriminate).
  destruct (Nat.ltb_spec max_str_digits (List.length (c :: r))); [discriminate|].
  injection H as <-. split; [reflexivity|]. split; [discriminate | assumption].
Qed.

Lemma digit_value_range (c : ascii) : isdigit c = true -> 0 <= digit_value c <= 9.
Proof.
  unfold digit_value, isdigit, between, code. intros H.
  apply andb_true_iff in H. destruct H as [H1 H2].
  apply N.leb_le in H1, H2. lia.
Qed.

(** The value of a run of digits, the digits read so far given. *)
Lemma digits_fold (s : str) :
  forall acc,
    fold_left (fun a c => 10 * a + digit_value c) s acc
    = acc * 10 ^ Z.of_nat (List.length s) + int_of_digits s.
Proof.
  unfold int_of_digits. induction s as [|c s IH]; intros acc.
  - simpl. lia.
  - cbn [fold_left List.length]. rewrite (IH (10 * acc + digit_value c)).
    rewrite (IH (10 * 0 + digit_value c)).
    rewrite Nat2Z.inj_succ, Z.pow_succ_r by lia. ring.
Qed.

Lemma int_of_digits_cons (c : ascii) (s : str) :
  int_of_digits (c :: s)
  = digit_value c * 10 ^ Z.of_nat (List.length s) + int_of_digits s.
Proof.
  unfold int_of_digits at 1. cbn [fold_left]. rewrite digits_fold. ring.
Qed.

(** A run of [k] digits writes a number below [10 ^ k]. *)
Lemma int_of_digits_bound (s : str) :
  Forall (fun c => isdigit c = true) s ->
  0 <= int_of_digits s < 10 ^ Z.of_nat (List.length s).
Proof.
  induction 1 as [|c s Hc Hs IH].
  - simpl. unfold int_of_digits. simpl. lia.
  - rewrite int_of_digits_cons. cbn [List.length].
    rewrite Nat2Z.inj_succ, Z.pow_succ_r by lia.
    pose proof (digit_value_range c Hc).
    assert (0 < 10 ^ Z.of_nat (List.length s)) by (apply Z.pow_pos_nonneg; lia).
    nia.
Qed.

(** The decimal text of a positive number does not start with a zero. *)
Lemma to_uint_head (p : positive) (u : Decimal.uint) : Pos.to_uint p <> Decimal.D0 u.
Proof.
  intros E.
  assert (N : Decimal.unorm (Pos.to_uint p) = Pos.to_uint p).
  { rewrite <- (DecimalPos.Unsigned.to_of (Pos.to_uint p)).
    rewrite DecimalPos.Unsigned.of_to. reflexivity. }
  rewrite E in N. rewrite DecimalFacts.unorm_D0 in N.
  destruct u as [|u|u|u|u|u|u|u|u|u|u];
    [apply (DecimalPos.Unsigned.to_uint_nonzero p); exact E|..];
    match type of N with
    | Decimal.unorm ?v = _ =>
        assert (L : (Decimal.nb_digits (Decimal.unorm v) <= Decimal.nb_digits v)%nat)
          by (apply DecimalFacts.nb_digits_unorm; discriminate);
        rewrite N in L; simpl in L; lia
    end.
Qed.

Lemma str_of_int_head (p : positive) :
  exists c rest,
    str_of_int (Zpos p) = c :: rest /\ 1 <= digit_value c
    /\ Forall (fun c => isdigit c = true) rest.
Proof.
  rewrite str_of_int_pos.
  pose proof (uint_text_digits (Pos.to_uint p)) as D.
  pose proof (@to_uint_head p) as Z0.
  pose proof (DecimalPos.Unsigned.to_uint_nonnil p) as N0.
  destruct (Pos.to_uint p) as [|u|u|u|u|u|u|u|u|u|u];
    [contradiction | exfalso; apply (Z0 u); reflexivity |..];
    cbn [NilEmpty.string_of_uint lit list_ascii_of_string] in *;
    eexists; eexists; (split; [reflexivity|]);
    (split; [vm_compute; discriminate | now inversion D]).
Qed.

(** A number below [10 ^ k] is written with at most [k] digits. *)
Lemma str_of_int_length (n : Z) (k : nat) :
  0 <= n < 10 ^ Z.of_nat k -> (1 <= k)%nat ->
  (List.length (str_of_int n) <= k)%nat.
Proof.
  intros [Hn Hk] K. destruct n as [|p|p]; [simpl; exact K| |lia].
  destruct (str_of_int_nonneg Hn) as (_ & _ & V).
  destruct (str_of_int_head p) as (c & rest & E & C & R).
  rewrite E in *. rewrite int_of_digits_cons in V.
  pose proof (int_of_digits_bound R) as B.
  cbn [List.length].
  destruct (Nat.le_gt_cases (S (List.length rest)) k) as [L|L]; [exact L|].
  exfalso.
  assert (10 ^ Z.of_nat k <= 10 ^ Z.of_nat (List.length rest))
    by (apply Z.pow_le_mono_r; lia).
  nia.
Qed.

Lemma int_of_str_of_int (n : Z) :
  0 <= n < 10 ^ Z.of_nat max_str_digits -> int_of_str (str_of_int n) = Ok n.
Proof.
  intros [H B]. destruct (str_of_int_nonneg H) as (N & D & V).
  rewrite int_of_str_short, V; try assumption; [reflexivity|].
  apply str_of_int_length; [lia|]. unfold max_str_digits. lia.
Qed.

(** [int] reads the text of a number back exactly when the number is
    below [10 ^ 4300]. *)
Lemma int_of_str_of_nonneg (n : Z) :
  0 <= n ->
  int_of_str (str_of_int n)
  = if n <? 10 ^ Z.of_nat max_str_digits then Ok n else Raise ValueError.
Proof.
  intros H. destruct (Z.ltb_spec n (10 ^ Z.of_nat max_str_digits)) as [L|L].
  - apply int_of_str_of_int. lia.
  - destruct (str_of_int_nonneg H) as (N & D & V).
    apply int_of_str_long; [exact D|].
    destruct (Nat.le_gt_cases (List.length (str_of_int n)) max_str_digits) as [K|K];
      [exfalso | exact K].
    pose proof (int_of_digits_bound D) as B. rewrite V in B.
    assert (10 ^ Z.of_nat (List.length (str_of_int n)) <= 10 ^ Z.of_nat max_str_digits)
      by (apply Z.pow_le_mono_r; lia).
    lia.
Qed.

End IntText.

(** ** The matcher finds exactly the matches *)

Section MatcherCorrect.
Import Re.

Lemma greedy_sound (R : Type) (p : ascii -> bool) (k : str -> str -> option R) :
  forall s acc r,
    greedy p k acc s = Some r ->
    exists run rest,
      s = run ++ rest
      /\ Forall (fun c => p c = true) run
      /\ k (rev acc ++ run) rest = Some r.
Proof.
  assert (Z : forall s acc r, k (rev acc) s = Some r ->
                exists run rest, s = run ++ rest
                  /\ Forall (fun c => p c = true) run
                  /\ k (rev acc ++ run) rest = Some r).
  { intros s acc r H. exists [], s. rewrite app_nil_r.
    split; [reflexivity|]. split; [constructor | exact H]. }
  induction s as [|x s IH]; simpl; intros acc r H.
  - now apply Z.
  - destruct (p x) eqn:Px; [|now apply Z].
    destruct (greedy p k (x :: acc) s) as [r'|] eqn:E; [|now apply Z].
    inversion H; subst. destruct (IH _ _ E) as (run & rest & -> & Hrun & Hk).
    exists (x :: run), rest. simpl in Hk. rewrite <- app_assoc in Hk.
    split; [reflexivity|]. split; [now constructor | exact Hk].
Qed.

Lemma greedy_complete (R : Type) (p : ascii -> bool) (k : str -> str -> option R)
      (run rest : str) :
  Forall (fun c => p c = true) run ->
  forall acc,
    k (rev acc ++ run) rest <> None ->
    greedy p k acc (run ++ rest) <> None.
Proof.
  induction 1 as [|x run Hx Hrun IH]; intros acc Hk.
  - simpl. rewrite app_nil_r in Hk.
    destruct rest as [|c rest]; simpl; [assumption|].
    destruct (p c); [|assumption].
    destruct (greedy p k (c :: acc) rest); [discriminate|assumption].
  - simpl. rewrite Hx.
    specialize (IH (x :: acc)). simpl in IH. rewrite <- app_assoc in IH.
    specialize (IH Hk).
    destruct (greedy p k (x :: acc) (run ++ rest)); [discriminate|contradiction].
Qed.

Lemma match_here_sound (r : regex) :
  forall s gs, match_here r s = Some gs -> exists rest, Match r s gs rest.
Proof.
  induction r as [|a r IH]; intros s gs; simpl.
  - intros H; inversion H; subst. exists s. constructor.
  - destruct a as [c|p|p|p|p].
    + destruct s as [|x s]; [discriminate|].
      destruct (Ascii.eqb x c) eqn:E; [|discriminate].
      apply Ascii.eqb_eq in E. subst. intros H.
      destruct (IH _ _ H) as (rest & M). exists rest. now constructor.
    + destruct s as [|x s]; [discriminate|].
      destruct (p x) eqn:E; [|discriminate]. intros H.
      destruct (IH _ _ H) as (rest & M). exists rest. now constructor.
    + intros H. apply greedy_sound in H.
      destruct H as (run & s' & -> & Hrun & H). simpl in H.
      destruct (IH _ _ H) as (rest & M). exists rest. now constructor.
    + destruct s as [|x s]; [discriminate|].
      destruct (p x) eqn:E; [|discriminate]. intros H.
      apply greedy_sound in H.
      destruct H as (run & s' & -> & Hrun & H). simpl in H.
      destruct (IH _ _ H) as (rest & M). exists rest.
      change (x :: run ++ s') with ((x :: run) ++ s').
      constructor; auto. discriminate.
    + destruct s as [|x s]; [discriminate|].
      destruct (p x) eqn:E; [|discriminate]. intros H.
      apply greedy_sound in H.
      destruct H as (run & s' & -> & Hrun & H). simpl in H.
      destruct (match_here r s') as [gs0|] eqn:E0; [|discriminate].
      inversion H; subst.
      destruct (IH _ _ E0) as (rest & M). exists rest.
      change (x :: run ++ s') with ((x :: run) ++ s').
      constructor; auto. discriminate.
Qed.

Lemma match_here_complete (r : regex) (s : str) (gs : list str) (rest : str) :
  Match r s gs rest -> match_here r s <> None.
Proof.
  induction 1 as [s|c r s gs rest M IH|p c r s gs rest Pc M IH
                  |p run r s gs rest Hrun M IH|p run r s gs rest Hrun Hne M IH
                  |p run r s gs rest Hrun Hne M IH]; simpl.
  - discriminate.
  - now rewrite Ascii.eqb_refl.
  - now rewrite Pc.
  - apply greedy_complete; assumption.
  - destruct run as [|x run]; [contradiction|]. inversion Hrun; subst.
    simpl. rewrite H1. apply greedy_complete; assumption.
  - destruct run as [|x run]; [contradiction|]. inversion Hrun; subst.
    simpl. rewrite H1. apply greedy_complete; [assumption|].
    simpl. destruct (match_here r s); [discriminate|contradiction].
Qed.

(** A match does not look at what it leaves. *)
Lemma Match_consumed (r : regex) (s : str) (gs : list str) (rest : str) :
  Match r s gs rest ->
  exists consumed,
    s = consumed ++ rest
    /\ Forall (fun c => alphabet r c = true) consumed
    /\ forall rest', Match r (consumed ++ rest') gs rest'.
Proof.
  assert (W : forall a r l,
             Forall (fun c => alphabet r c = true) l ->
             Forall (fun c => alphabet (a :: r) c = true) l).
  { intros a r0 l. apply Forall_impl. intros c Hc. unfold alphabet in *. simpl.
    rewrite Hc. apply orb_true_r. }
  assert (V : forall a r l,
             Forall (fun c => accepts a c = true) l ->
             Forall (fun c => alphabet (a :: r) c = true) l).
  { intros a r0 l. apply Forall_impl. intros c Hc. unfold alphabet. simpl.
    now rewrite Hc. }
  induction 1 as [s|c r s gs rest M IH|p c r s gs rest Pc M IH
                  |p run r s gs rest Hrun M IH|p run r s gs rest Hrun Hne M IH
                  |p run r s gs rest Hrun Hne M IH].
  - exists []. repeat split; [constructor | intros; constructor].
  - destruct IH as (k & -> & A & F). exists (c :: k). repeat split.
    + constructor; [|now apply W]. unfold alphabet. simpl. now rewrite Ascii.eqb_refl.
    + intros rest'. simpl. constructor. apply F.
  - destruct IH as (k & -> & A & F). exists (c :: k). repeat split.
    + constructor; [|now apply W]. unfold alphabet. simpl. now rewrite Pc.
    + intros rest'. simpl. constructor; [assumption | apply F].
  - destruct IH as (k & -> & A & F). exists (run ++ k). repeat split.
    + now rewrite app_assoc.
    + apply Forall_app. split; [now apply V | now apply W].
    + intros rest'. rewrite <- app_assoc. constructor; [assumption | apply F].
  - destruct IH as (k & -> & A & F). exists (run ++ k). repeat split.
    + now rewrite app_assoc.
    + apply Forall_app. split; [now apply V | now apply W].
    + intros rest'. rewrite <- app_assoc. constructor; [assumption | assumption | apply F].
  - destruct IH as (k & -> & A & F). exists (run ++ k). repeat split.
    + now rewrite app_assoc.
    + apply Forall_app. split; [now apply V | now apply W].
    + intros rest'. rewrite <- app_assoc. constructor; [assumption | assumption | apply F].
Qed.

(** [search] and the positions of a string. *)
Lemma search_none_app (r : regex) (a b : str) :
  search r (a ++ b) = None
  <-> (forall a1 a2, a = a1 ++ a2 -> a2 <> [] -> match_here r (a2 ++ b) = None)
      /\ search r b = None.
Proof.
  induction a as [|x a IH]; simpl.
  - split.
    + intros H. split; [|exact H]. intros a1 a2 E Hne.
      destruct a1; destruct a2; try discriminate. contradiction.
    + intros [_ H]. exact H.
  - destruct (match_here r (x :: a ++ b)) eqn:E.
    + split; [discriminate|]. intros [H _].
      specialize (H [] (x :: a) eq_refl). simpl in H.
      rewrite H in E by discriminate. discriminate.
    + rewrite IH. split.
      * intros [H1 H2]. split; [|exact H2].
        intros a1 a2 Ea Hne. destruct a1 as [|y a1]; simpl in Ea.
        -- subst a2. exact E.
        -- inversion Ea; subst. apply (H1 a1 a2 eq_refl Hne).
      * intros [H1 H2]. split; [|exact H2].
        intros a1 a2 Ea Hne. apply (H1 (x :: a1) a2); [now rewrite Ea | exact Hne].
Qed.

Lemma search_found (r : regex) (a b : str) :
  match_here r b <> None -> search r (a ++ b) <> None.
Proof.
  intros H. induction a as [|x a IH]; simpl.
  - destruct b; simpl; destruct (match_here r _); try discriminate; contradiction.
  - destruct (match_here r (x :: a ++ b)); [discriminate | exact IH].
Qed.

End MatcherCorrect.

(** ** Stripping and splitting *)

Section Stripping.
Import Notions QwenVisionAgent.

Lemma dropwhile_incl (A : Type) (p : A -> bool) (l : list A) (x : A) :
  In x (dropwhile p l) -> In x l.
Proof.
  induction l as [|y l IH]; simpl; [auto|].
  destruct (p y); [intros H; right; auto | auto].
Qed.

Lemma dropwhile_app_stop (A : Type) (p : A -> bool) (l r : list A) (c : A) :
  p c = false -> dropwhile p (l ++ c :: r) = dropwhile p l ++ c :: r.
Proof.
  intros Hc. induction l as [|y l IH]; simpl.
  - now rewrite Hc.
  - destruct (p y); [exact IH | reflexivity].
Qed.

Lemma strip_incl (s : str) (c : ascii) : In c (strip s) -> In c s.
Proof.
  unfold strip, rstrip, lstrip. intros H.
  apply in_rev in H. apply dropwhile_incl in H.
  apply in_rev in H. now apply dropwhile_incl in H.
Qed.

Lemma lstrip_head (c : ascii) (s : str) :
  isspace c = false -> lstrip (c :: s) = c :: s.
Proof. intros H. unfold lstrip. simpl. now rewrite H. Qed.

Lemma rstrip_app (a b : str) (c : ascii) :
  isspace c = false -> rstrip (a ++ c :: b) = a ++ c :: rstrip b.
Proof.
  intros H. unfold rstrip. rewrite rev_app_distr. simpl. rewrite <- app_assoc. simpl.
  rewrite dropwhile_app_stop by exact H. rewrite rev_app_distr. simpl.
  rewrite rev_involutive, <- app_assoc. reflexivity.
Qed.

Lemma rstrip_nil : rstrip [] = [].
Proof. reflexivity. Qed.

(** The shape of a stripped string: empty, or between two characters that
    are not white space. *)
Lemma strip_shape (s : str) :
  strip s = []
  \/ (exists c, isspace c = false /\ strip s = [c])
  \/ (exists c m d, isspace c = false /\ isspace d = false /\ strip s = c :: m ++ [d]).
Proof.
  unfold strip. remember (lstrip s) as t eqn:Et.
  assert (Ht : match t with [] => True | c :: _ => isspace c = false end).
  { subst t. unfold lstrip. induction s as [|x s IH]; simpl; [exact I|].
    destruct (isspace x) eqn:E; [exact IH | simpl; exact E]. }
  clear Et s. destruct t as [|c t]; [left; reflexivity|right].
  change (c :: t) with ([] ++ c :: t). rewrite rstrip_app by exact Ht. simpl.
  unfold rstrip. remember (rev t) as u eqn:Eu. clear Eu t.
  assert (Hu : match dropwhile isspace u with
               | [] => True | d :: _ => isspace d = false end).
  { induction u as [|x u IH]; simpl; [exact I|].
    destruct (isspace x) eqn:E; [exact IH | simpl; exact E]. }
  destruct (dropwhile isspace u) as [|d v].
  - left. exists c. auto.
  - right. exists c, (rev v), d. simpl. auto.
Qed.

Lemma strip_fixed (c d : ascii) (m : str) :
  isspace c = false -> isspace d = false -> strip (c :: m ++ [d]) = c :: m ++ [d].
Proof.
  intros Hc Hd. unfold strip. rewrite lstrip_head by exact Hc.
  change (c :: m ++ [d]) with ((c :: m) ++ d :: []).
  rewrite rstrip_app by exact Hd. reflexivity.
Qed.

Lemma strip_one (c : ascii) : isspace c = false -> strip [c] = [c].
Proof.
  intros Hc. unfold strip. rewrite lstrip_head by exact Hc.
  change [c] with ([] ++ c :: []). rewrite rstrip_app by exact Hc. reflexivity.
Qed.

Lemma strip_idempotent (s : str) : stripped (strip s).
Proof.
  unfold stripped.
  destruct (strip_shape s) as [-> | [(c & Hc & ->) | (c & m & d & Hc & Hd & ->)]].
  - reflexivity.
  - now apply strip_one.
  - now apply strip_fixed.
Qed.

(** A stripped string, put after a tail that ends a line. *)
Lemma stripped_shape (s : str) :
  stripped s ->
  s = []
  \/ (exists c, isspace c = false /\ s = [c])
  \/ (exists c m d, isspace c = false /\ isspace d = false /\ s = c :: m ++ [d]).
Proof. intros H. rewrite <- H. apply strip_shape. Qed.

Lemma rstrip_stripped (a s : str) :
  stripped s -> s <> [] -> rstrip (a ++ s) = a ++ s.
Proof.
  intros H Hne.
  destruct (stripped_shape H) as [-> | [(c & Hc & ->) | (c & m & d & Hc & Hd & ->)]].
  - contradiction.
  - now rewrite rstrip_app by exact Hc.
  - change (a ++ c :: m ++ [d]) with (a ++ (c :: m) ++ d :: []).
    rewrite app_assoc, rstrip_app by exact Hd. reflexivity.
Qed.

Lemma lstrip_space (s : str) : lstrip (" "%char :: s) = lstrip s.
Proof. reflexivity. Qed.

Lemma strip_space_stripped (s : str) : stripped s -> strip (" "%char :: s) = s.
Proof. intros H. unfold strip. rewrite lstrip_space. exact H. Qed.

(** Splitting *)

Lemma split_cons (sep : ascii) (s : str) : exists l ls, split sep s = l :: ls.
Proof.
  induction s as [|c s (l & ls & IH)]; simpl; [eauto|].
  destruct (Ascii.eqb c sep); [eauto|]. rewrite IH. eauto.
Qed.

Lemma split_one_line (s : str) : one_line s -> split newline s = [s].
Proof.
  unfold one_line. induction s as [|c s IH]; simpl; intros H; [reflexivity|].
  destruct (Ascii.eqb c newline) eqn:E.
  - apply Ascii.eqb_eq in E. exfalso. apply H. now left.
  - rewrite IH; [reflexivity|]. intros Hin. apply H. now right.
Qed.

Lemma split_lines_one_line (s : str) : Forall one_line (split newline s).
Proof.
  unfold one_line. induction s as [|c s IH]; simpl.
  - constructor; [intros []|constructor].
  - destruct (Ascii.eqb c newline) eqn:E.
    + constructor; [intros []|exact IH].
    + destruct (split newline s) as [|l ls]; inversion IH; subst.
      * constructor; [|constructor]. intros [->|[]]. now rewrite Ascii.eqb_refl in E.
      * constructor; [|assumption]. intros [->|Hin]; [|contradiction].
        now rewrite Ascii.eqb_refl in E.
Qed.

Lemma strip_one_line (s : str) : one_line s -> one_line (strip s).
Proof. unfold one_line. intros H Hin. apply H. now apply strip_incl. Qed.

(** [c in s] for one character. *)
Lemma has_char (c : ascii) (s : str) :
  contains Ascii.eqb [c] s = true <-> In c s.
Proof.
  induction s as [|x s IH]; simpl.
  - split; [discriminate | intros []].
  - rewrite orb_true_iff, IH, andb_true_r, Ascii.eqb_eq. split.
    + intros [->|H]; auto.
    + intros [->|H]; auto.
Qed.

Lemma after_first_app (c : ascii) (a b : str) :
  ~ In c a -> after_first c (a ++ c :: b) = b.
Proof.
  induction a as [|x a IH]; simpl; intros H.
  - now rewrite Ascii.eqb_refl.
  - destruct (Ascii.eqb x c) eqn:E.
    + apply Ascii.eqb_eq in E. exfalso. apply H. now left.
    + apply IH. intros Hin. apply H. now right.
Qed.

End Stripping.

(** ** Scaling a coordinate *)

Section Scaling.
Import PyFloat.

Lemma binary_round_aux_sign (m e : Z) (l : location) :
  not_negative (binary_round_aux prec emax false m e l).
Proof.
  unfold binary_round_aux.
  destruct (shr_fexp prec emax m e l) as [mrs' e'].
  destruct (shr_fexp prec emax _ e' loc_Exact) as [mrs'' e''].
  destruct (shr_m mrs''); [exact I| |exact I].
  destruct (e'' <=? emax - prec); reflexivity.
Qed.

Lemma of_scaled_sign (n e : Z) : 0 <= n -> not_negative (of_scaled n e).
Proof.
  intros Hn. unfold of_scaled, binary_normalize.
  destruct n as [|p|p]; [exact I| |lia].
  unfold binary_round.
  destruct (shl_align p e _) as [mz ez]. apply binary_round_aux_sign.
Qed.

Lemma mul_sign (a b : float) :
  not_negative a -> nonneg_finite b -> not_negative (mul a b).
Proof.
  unfold mul, SFmul.
  destruct a as [sa|sa| |sa ma ea], b as [sb|sb| |sb mb eb]; simpl;
    try tauto; try (intros -> ->; reflexivity); try (intros _ ->; exact I).
  intros -> ->. apply binary_round_aux_sign.
Qed.

Lemma to_int_floor (p : float) (z : Z) :
  not_negative p -> to_int p = Ok z -> floor p = Some z /\ 0 <= z.
Proof.
  destruct p as [s|s| |s m e]; unfold not_negative, to_int, floor;
    try discriminate.
  - intros _ H; inversion H; subst. split; [reflexivity | lia].
  - intros -> H. inversion H; subst; clear H.
    assert (P : forall k, 0 <= Z.pos m * 2 ^ k).
    { intros k. apply Z.mul_nonneg_nonneg; [lia|]. apply Z.pow_nonneg. lia. }
    destruct e as [|q|q]; [split; [reflexivity | apply P]..|].
    assert (0 < 2 ^ Z.pos q) by (apply Z.pow_pos_nonneg; lia).
    rewrite Z.quot_div_nonneg by lia.
    split; [reflexivity|]. apply Z.div_pos; lia.
Qed.

(** [int(n * f)] is the floor of the float product when nothing is
    negative. *)
Lemma scale_floor (n : Z) (f : float) (z : Z) :
  0 <= n -> nonneg_finite f -> scale n f = Ok z ->
  exists p, int_mul n f = Ok p /\ floor p = Some z /\ 0 <= z.
Proof.
  intros Hn Hf. unfold scale, int_mul, of_int.
  pose proof (of_scaled_sign 0 Hn) as Hs.
  destruct (of_scaled n 0) as [s|s| |s m e] eqn:E; unfold bind; try discriminate;
    intros H; eexists; (split; [reflexivity|]);
    (apply to_int_floor; [apply mul_sign; assumption | exact H]).
Qed.

Lemma int_of_digits_nonneg (s : str) :
  Forall (fun c => isdigit c = true) s -> 0 <= int_of_digits s.
Proof.
  unfold int_of_digits. intros H.
  assert (G : forall acc, 0 <= acc ->
          0 <= fold_left (fun a c => 10 * a + digit_value c) s acc).
  { induction H as [|c s Hc Hs IH]; intros acc Hacc; cbn [fold_left]; [exact Hacc|].
    apply IH. unfold digit_value, isdigit, between, code in *.
    apply andb_true_iff in Hc. destruct Hc as [H1 H2].
    apply N.leb_le in H1. lia. }
  apply G. lia.
Qed.

End Scaling.

(** ** Stepping through a pattern *)

Section Steps.
Import Re.

Lemma match_chr (c : ascii) (r : regex) (s : str) :
  match_here (Chr c :: r) (c :: s) = match_here r s.
Proof. simpl. now rewrite Ascii.eqb_refl. Qed.


Lemma match_star_run (p : ascii -> bool) (r : regex) (run rest : str) (gs : list str) :
  Forall (fun c => p c = true) run ->
  match rest with [] => True | c :: _ => p c = false end ->
  match_here r rest = Some gs ->
  match_here (Star p :: r) (run ++ rest) = Some gs.
Proof.
  intros Hrun Hstop Hk. simpl. apply greedy_run; assumption.
Qed.

Lemma match_group_run (p : ascii -> bool) (r : regex) (run rest : str) (gs : list str) :
  Forall (fun c => p c = true) run -> run <> [] ->
  match rest with [] => True | c :: _ => p c = false end ->
  match_here r rest = Some gs ->
  match_here (Group p :: r) (run ++ rest) = Some (run :: gs).
Proof.
  intros Hrun Hne Hstop Hk.
  destruct run as [|x run]; [contradiction|]. inversion Hrun; subst.
  simpl. rewrite H1.
  apply greedy_run; [assumption| |assumption].
  simpl. now rewrite Hk.
Qed.

Lemma search_here (r : regex) (s : str) (gs : list str) :
  match_here r s = Some gs -> search r s = Some gs.
Proof. intros H. destruct s; simpl; now rewrite H. Qed.

Lemma tap_re_canonical (dx dy tail : str) :
  Forall (fun c => isdigit c = true) dx -> dx <> [] ->
  Forall (fun c => isdigit c = true) dy -> dy <> [] ->
  tap_search (lit "TAP (" ++ dx ++ lit "," ++ dy ++ lit ")" ++ tail) = Some (dx, dy).
Proof.
  intros Hx Nx Hy Ny.
  assert (M : match_here tap_re (lit "TAP (" ++ dx ++ lit "," ++ dy ++ lit ")" ++ tail)
              = Some [dx; dy]).
  { change tap_re with
      (Chr "T" :: Chr "A" :: Chr "P" :: Star isspace :: Chr "("
         :: Group isdigit :: Chr "," :: Star isspace :: Group isdigit :: [Chr ")"])%char.
    change (lit "TAP (" ++ dx ++ lit "," ++ dy ++ lit ")" ++ tail)
      with ("T"%char :: "A"%char :: "P"%char
              :: ([" "%char] ++ "("%char
                    :: (dx ++ ","%char :: ([] ++ dy ++ ")"%char :: tail)))).
    rewrite !match_chr.
    apply match_star_run; [repeat constructor | reflexivity |].
    rewrite match_chr.
    apply match_group_run; [assumption | assumption | reflexivity |].
    rewrite match_chr.
    apply match_star_run; [constructor | |].
    { destruct dy as [|e es]; [contradiction|]. inversion Hy; subst.
      simpl. now apply isdigit_not_space. }
    apply match_group_run; [assumption | assumption | reflexivity |].
    rewrite match_chr. reflexivity. }
  unfold tap_search. rewrite search_here with (gs := [dx; dy]) by exact M. reflexivity.
Qed.
End Steps.

(** ** The parser, line by line *)

Section ParserScan.
Import Re Notions QwenVisionAgent.

Lemma matches_tap (s : str) :
  matches tap_re s = match tap_search s with Some _ => true | None => false end.
Proof.
  unfold matches. pose proof (tap_search_none s) as T.
  destruct (search tap_re s) eqn:E1, (tap_search s) eqn:E2; try reflexivity.
  - assert (Some l = None) by (now apply T). discriminate.
  - assert (Some p = None) by (now apply T). discriminate.
Qed.

Lemma first_actionable_spec (response_lines : list str) (line : str) :
  first_actionable response_lines = Some line
  <-> exists pre l post,
        response_lines = pre ++ l :: post
        /\ Forall (fun l0 => actionable (strip l0) = false) pre
        /\ line = strip l
        /\ actionable line = true.
Proof.
  induction response_lines as [|l0 rest IH]; simpl.
  - split; [discriminate|]. intros (pre & l & post & H & _).
    destruct pre; discriminate.
  - destruct (actionable (strip l0)) eqn:E.
    + split.
      * intros H; inversion H; subst.
        exists [], l0, rest. repeat split; auto.
      * intros (pre & l & post & H & Hpre & -> & Hl).
        destruct pre as [|q pre]; simpl in H; inversion H; subst; [reflexivity|].
        inversion Hpre; subst. congruence.
    + rewrite IH. split.
      * intros (pre & l & post & -> & Hpre & -> & Hl).
        exists (l0 :: pre), l, post. repeat split; auto.
      * intros (pre & l & post & H & Hpre & -> & Hl).
        destruct pre as [|q pre]; simpl in H; inversion H; subst; [congruence|].
        inversion Hpre; subst. exists pre, l, post. repeat split; auto.
Qed.

Lemma first_actionable_app (pre rest : list str) :
  Forall (fun l0 => actionable (strip l0) = false) pre ->
  first_actionable (pre ++ rest) = first_actionable rest.
Proof.
  induction 1 as [|l pre Hl Hpre IH]; simpl; [reflexivity|]. now rewrite Hl.
Qed.

Lemma scan_lines_spec (response_lines : list str) (sw sh : PyFloat.float) :
  scan_lines response_lines sw sh
  = match first_actionable response_lines with
    | Some line => line_result line sw sh
    | None => Ok None
    end.
Proof.
  induction response_lines as [|l rest IH]; simpl; [reflexivity|].
  unfold actionable. rewrite matches_tap.
  destruct (skipped (strip l)); simpl; [exact IH|].
  destruct (tap_search (strip l)) as [[gx gy]|] eqn:T; simpl.
  { unfold line_result. now rewrite T. }
  destruct (matches type_open_re (strip l)); simpl.
  { unfold line_result. now rewrite T. }
  destruct (has_upper "SCROLL" (strip l)); simpl.
  { unfold line_result. now rewrite T. }
  destruct (has_upper "TASK_COMPLETE" (strip l)); simpl.
  { unfold line_result. now rewrite T. }
  exact IH.
Qed.

Lemma extract_spec (model_response : str) (sw sh : PyFloat.float) :
  extract_action_from_response model_response sw sh
  = match first_actionable (lines_of model_response) with
    | Some line => line_result line sw sh
    | None => scan_full (strip model_response) sw sh
    end.
Proof.
  unfold extract_action_from_response, lines_of. rewrite scan_lines_spec.
  destruct (first_actionable _) as [line|]; simpl; [|reflexivity].
  unfold line_result.
  destruct (tap_search line) as [[gx gy]|]; simpl; [|reflexivity].
  destruct (scaled_tap gx gy sw sh (comment_of line)); reflexivity.
Qed.

End ParserScan.

Section ParserClaims.
Import Re Notions QwenVisionAgent.

(** C5 (amended). The parser strips the reply, splits it into lines and
    scans them in order; a line is passed over when, stripped, it is empty,
    begins with [#] or with a code fence, or passes none of the four tests
    (tap pattern, [TYPE] with an opening quote, [SCROLL] and [TASK_COMPLETE]
    in the upper-cased line).  At the first other line it returns: for a tap
    match, the text [TAP (x,y) # comment] built anew from the scaled
    coordinates and the comment, which is the stripped text after the first
    [#] of the line or [scaled coordinates] when the line has no [#]; for the
    other three tests, the stripped line as it is.  When every line is passed
    over, the stripped reply as a whole is searched for the tap pattern,
    then for [TYPE] with both quotes, then for [SCROLL], then for
    [TASK_COMPLETE], and the result is a text with a fixed comment, or
    nothing.  A tap line that comes before a scroll line, after lines that
    are passed over, gives the tap. *)
Theorem C5_parser_scan :
  forall (model_response : str) (sw sh : PyFloat.float),
    (forall line,
        first_actionable (lines_of model_response) = Some line ->
        (forall gx gy,
            tap_search line = Some (gx, gy) ->
            extract_action_from_response model_response sw sh
            = (a <- scaled_tap gx gy sw sh (comment_of line) ;; Ok (Some a)))
        /\ (tap_search line = None ->
            extract_action_from_response model_response sw sh = Ok (Some line)))
    /\ (forall line,
          first_actionable (lines_of model_response) = Some line
          <-> exists pre l post,
                lines_of model_response = pre ++ l :: post
                /\ Forall (fun l0 => actionable (strip l0) = false) pre
                /\ line = strip l
                /\ actionable line = true)
    /\ (forall line,
          actionable line
          = negb (negb (truthy line)
                  || startswith Ascii.eqb (lit "#") line
                  || startswith Ascii.eqb (lit "```") line)
            && (matches tap_re line || matches type_open_re line
                || has_upper "SCROLL" line || has_upper "TASK_COMPLETE" line))
    /\ (forall line,
          comment_of line
          = if has "#" line then strip (after_first hash line)
            else lit "scaled coordinates")
    /\ (first_actionable (lines_of model_response) = None ->
        extract_action_from_response model_response sw sh
        = match tap_search (strip model_response) with
          | Some (gx, gy) =>
              a <- scaled_tap gx gy sw sh (lit "extracted and scaled") ;; Ok (Some a)
          | None =>
              match group1 type_re (strip model_response) with
              | Some g => Ok (Some (lit "TYPE '" ++ g ++ lit "' # extracted action"))
              | None =>
                  if has_upper "SCROLL" (strip model_response)
                  then Ok (Some (lit "SCROLL down # extracted action"))
                  else if has_upper "TASK_COMPLETE" (strip model_response)
                  then Ok (Some (lit "TASK_COMPLETE: extracted from response"))
                  else Ok None
              end
          end)
    /\ (forall pre tap_line between scroll_line post gx gy,
          lines_of model_response = pre ++ tap_line :: between ++ scroll_line :: post ->
          Forall (fun l0 => actionable (strip l0) = false) pre ->
          skipped (strip tap_line) = false ->
          tap_search (strip tap_line) = Some (gx, gy) ->
          has_upper "SCROLL" (strip scroll_line) = true ->
          extract_action_from_response model_response sw sh
          = (a <- scaled_tap gx gy sw sh (comment_of (strip tap_line)) ;; Ok (Some a))).
Proof.
  intros r sw sh.
  split.
  { intros line Hl. rewrite extract_spec, Hl. unfold line_result. split.
    - intros gx gy ->. reflexivity.
    - intros ->. reflexivity. }
  split; [intros line; apply first_actionable_spec|].
  split; [reflexivity|].
  split; [reflexivity|].
  split.
  { intros Hn. rewrite extract_spec, Hn. reflexivity. }
  intros pre tap_line mid scroll_line post gx gy Hlines Hpre Hskip Htap _.
  rewrite extract_spec, Hlines, first_actionable_app by exact Hpre.
  simpl. unfold actionable at 1. rewrite Hskip, matches_tap, Htap. simpl.
  unfold line_result. now rewrite Htap.
Qed.

(** C5, as stated, fails in two places.  The line [now TAP (1,2) # ok] is
    the first line that matches a pattern and has a trailing comment, and
    it is not returned as it is: the text before the tap is dropped.  And the
    reply [# TYPE 'abc] has no line that matches, its unsplit text passes the
    [TYPE] test of the line scan, and still nothing is returned: the scan of
    the full text asks for the closing quote. *)
Lemma C5_counterexample :
  (first_actionable (lines_of (lit "now TAP (1,2) # ok")) = Some (lit "now TAP (1,2) # ok")
   /\ extract_action_from_response (lit "now TAP (1,2) # ok") PyFloat.one PyFloat.one
      = Ok (Some (lit "TAP (1,2) # ok"))
   /\ lit "TAP (1,2) # ok" <> lit "now TAP (1,2) # ok")
  /\ (first_actionable (lines_of (lit "# TYPE 'abc")) = None
      /\ matches type_open_re (strip (lit "# TYPE 'abc")) = true
      /\ extract_action_from_response (lit "# TYPE 'abc") PyFloat.one PyFloat.one
         = Ok None).
Proof.
  split; (split; [vm_compute; reflexivity|]); split;
    try (vm_compute; reflexivity); vm_compute; discriminate.
Qed.

(** A reply with a scroll line after a tap line. *)
Lemma C5_witness :
  extract_action_from_response
    (lit "TAP (100,200) # search bar" ++ [newline] ++ lit "SCROLL down")
    PyFloat.one PyFloat.one
  = Ok (Some (lit "TAP (100,200) # search bar")).
Proof.
  refine (eq_trans
            (proj2 (proj2 (proj2 (proj2 (proj2
               (C5_parser_scan
                  (lit "TAP (100,200) # search bar" ++ [newline] ++ lit "SCROLL down")
                  PyFloat.one PyFloat.one)))))
               [] (lit "TAP (100,200) # search bar") [] (lit "SCROLL down") []
               (lit "100") (lit "200") _ _ _ _ _) _);
    try (vm_compute; reflexivity).
  constructor.
Defined.

End ParserClaims.

(** ** The text of a scaled tap *)

Section TapText.
Import Re Notions QwenVisionAgent UIElementParser ActionCoordinator AndroidController.

Lemma scale_of_floor (n : Z) (f p : PyFloat.float) (z : Z) :
  0 <= n -> PyFloat.nonneg_finite f ->
  PyFloat.int_mul n f = Ok p -> PyFloat.floor p = Some z ->
  PyFloat.scale n f = Ok z /\ 0 <= z.
Proof.
  intros Hn Hf Hp Hz. unfold PyFloat.scale. rewrite Hp. unfold bind.
  assert (Hs : PyFloat.not_negative p).
  { revert Hp. unfold PyFloat.int_mul, PyFloat.of_int.
    pose proof (of_scaled_sign 0 Hn) as Hs.
    destruct (PyFloat.of_scaled n 0) as [s|s| |s m e] eqn:E; unfold bind;
      try discriminate; intros H.
    - assert (Ep : p = PyFloat.mul (S754_zero s) f) by congruence.
      rewrite Ep. apply mul_sign; assumption.
    - assert (Ep : p = PyFloat.mul S754_nan f) by congruence.
      rewrite Ep. apply mul_sign; assumption.
    - assert (Ep : p = PyFloat.mul (S754_finite s m e) f) by congruence.
      rewrite Ep. apply mul_sign; assumption. }
  destruct (PyFloat.to_int p) as [z'|e] eqn:T.
  - destruct (to_int_floor _ Hs T) as [F Hz']. rewrite F in Hz.
    inversion Hz; subst. auto.
  - destruct p; simpl in *; try discriminate.
Qed.

Lemma scaled_tap_ok (gx gy comment : str) (sw sh : PyFloat.float) (x y X Y : Z) :
  int_of_str gx = Ok x -> int_of_str gy = Ok y ->
  PyFloat.scale x sw = Ok X ->
  PyFloat.scale y sh = Ok Y ->
  scaled_tap gx gy sw sh comment = Ok (tap_text X Y comment).
Proof.
  intros Hx Hy HX HY. unfold scaled_tap. rewrite Hx, Hy. unfold bind.
  change (match PyFloat.scale x sw with
          | Ok v => (fun scaled_x =>
                       match PyFloat.scale y sh with
                       | Ok w => (fun scaled_y => Ok (tap_text scaled_x scaled_y comment)) w
                       | Raise e => Raise e
                       end) v
          | Raise e => Raise e
          end = Ok (tap_text X Y comment)).
  now rewrite HX, HY.
Qed.

Lemma tap_text_shape (X Y : Z) (comment : str) :
  tap_text X Y comment
  = lit "TAP (" ++ str_of_int X ++ lit "," ++ str_of_int Y ++ lit ")"
      ++ " "%char :: hash :: " "%char :: comment.
Proof. reflexivity. Qed.

Lemma tap_text_strip (X Y : Z) (comment : str) :
  strip (tap_text X Y comment)
  = lit "TAP (" ++ str_of_int X ++ lit "," ++ str_of_int Y ++ lit ")"
      ++ " "%char :: hash :: rstrip (" "%char :: comment).
Proof.
  rewrite tap_text_shape. unfold strip.
  change (lit "TAP (" ++ ?t) with ("T"%char :: (lit "AP (" ++ t)).
  rewrite lstrip_head by reflexivity.
  replace ("T"%char :: lit "AP (" ++ str_of_int X ++ lit "," ++ str_of_int Y ++ lit ")"
             ++ " "%char :: hash :: " "%char :: comment)
    with (("T"%char :: lit "AP (" ++ str_of_int X ++ lit "," ++ str_of_int Y ++ lit ") ")
            ++ hash :: " "%char :: comment).
  2:{ repeat (simpl; rewrite <- ?app_assoc). reflexivity. }
  rewrite rstrip_app by reflexivity.
  repeat (simpl; rewrite <- ?app_assoc). reflexivity.
Qed.

Lemma digits_one_line (s : str) :
  Forall (fun c => isdigit c = true) s -> one_line s.
Proof.
  unfold one_line. intros H Hin. rewrite Forall_forall in H.
  specialize (H _ Hin). discriminate.
Qed.

Lemma digits_no_hash (s : str) :
  Forall (fun c => isdigit c = true) s -> ~ In hash s.
Proof.
  intros H Hin. rewrite Forall_forall in H. specialize (H _ Hin). discriminate.
Qed.

Lemma tap_text_one_line (X Y : Z) (comment : str) :
  0 <= X -> 0 <= Y -> one_line comment -> one_line (tap_text X Y comment).
Proof.
  intros HX HY Hc. rewrite tap_text_shape. unfold one_line.
  destruct (str_of_int_nonneg HX) as (_ & DX & _).
  destruct (str_of_int_nonneg HY) as (_ & DY & _).
  intros Hin.
  apply in_app_or in Hin. destruct Hin as [Hin|Hin].
  { simpl in Hin. repeat (destruct Hin as [Hin|Hin]; [discriminate|]). exact Hin. }
  apply in_app_or in Hin. destruct Hin as [Hin|Hin].
  { exact (digits_one_line DX Hin). }
  apply in_app_or in Hin. destruct Hin as [Hin|Hin].
  { simpl in Hin. repeat (destruct Hin as [Hin|Hin]; [discriminate|]). exact Hin. }
  apply in_app_or in Hin. destruct Hin as [Hin|Hin].
  { exact (digits_one_line DY Hin). }
  simpl in Hin. repeat (destruct Hin as [Hin|Hin]; [discriminate|]).
  exact (Hc Hin).
Qed.

(** What the coordinator reads in the text of a scaled tap. *)
Lemma primary_tap_text (X Y : Z) (comment : str) :
  0 <= X -> 0 <= Y -> one_line comment ->
  primary_action (tap_text X Y comment) = strip (tap_text X Y comment)
  /\ tap_search (strip (tap_text X Y comment)) = Some (str_of_int X, str_of_int Y).
Proof.
  intros HX HY Hc.
  destruct (str_of_int_nonneg HX) as (NX & DX & _).
  destruct (str_of_int_nonneg HY) as (NY & DY & _).
  assert (T : tap_search (strip (tap_text X Y comment))
              = Some (str_of_int X, str_of_int Y)).
  { rewrite tap_text_strip. now apply tap_re_canonical. }
  split; [|exact T].
  unfold primary_action.
  rewrite split_one_line
    by (apply strip_one_line, tap_text_one_line; assumption).
  cbn [first_action_line]. unfold is_action_line.
  rewrite !(strip_idempotent (tap_text X Y comment)).
  rewrite matches_tap_plain, T. reflexivity.
Qed.

End TapText.

Section ScreenLoopExample.
Import TaskExecutionState IntelligentMobileAgent AndroidController Notions.

(** Five screens are recorded.  The third of them, seen again, is among
    the last three: the pass stalls.  The first of them, seen again, is not:
    the pass records it, and the oldest entry leaves the history. *)
Lemma C3_witness :
  let a :=
    {| execution_state :=
         {| active_task_description := lit "find watermelons";
            current_step_number := 5;
            maximum_allowed_steps := 20;
            search_initiated := false;
            query_entered := false;
            screen_hash_history :=
              [lit "h1"; lit "h2"; lit "h3"; lit "h4"; lit "h5"] |};
       executed_actions_history := [] |} in
  let o := fun h =>
    {| screen_hash := Some (lit h);
       ui_elements := None;
       qwen_response := Some (lit "TAP (300,100) # search icon");
       width_scale_factor := PyFloat.one;
       height_scale_factor := PyFloat.one |} in
  (exists p,
     loop_body (o "h3"%string) a = Ok p
     /\ ended p = continue_after_screen_loop
     /\ action_to_execute p = None
     /\ device_log p = [perform_scroll_action down]
     /\ screen_hash_history (execution_state (after p))
        = [lit "h1"; lit "h2"; lit "h3"; lit "h4"; lit "h5"])
  /\ detect_screen_loop (advance_step_counter (execution_state a)) (lit "h1") = false
  /\ (exists p,
        loop_body (o "h1"%string) a = Ok p
        /\ action_to_execute p = Some (lit "TAP (300,100) # search icon")
        /\ screen_hash_history (execution_state (after p))
           = [lit "h2"; lit "h3"; lit "h4"; lit "h5"; lit "h1"]).
Proof.
  intros a o. split.
  - destruct (@C3_stall_detection a (o "h3"%string) (lit "h3") eq_refl)
      as (W & _ & _ & _ & S & _).
    destruct (S (proj2 (W [lit "h1"; lit "h2"] [lit "h3"; lit "h4"; lit "h5"]
                          eq_refl eq_refl)
                       (or_introl eq_refl)))
      as (p & H1 & H2 & H3 & _ & H5 & H6 & _).
    exists p. repeat split; assumption.
  - split; [vm_compute; reflexivity|].
    eexists. split; [vm_compute; reflexivity|]. split; reflexivity.
Defined.

End ScreenLoopExample.

(** ** Completion *)

Section Completion.
Import Re Notions TaskExecutionState IntelligentMobileAgent.

Lemma search_sound (r : regex) (s : str) (gs : list str) :
  search r s = Some gs ->
  exists a b, s = a ++ b /\ match_here r b = Some gs.
Proof.
  induction s as [|x s IH]; simpl.
  - destruct (match_here r []) eqn:E; [|discriminate].
    intros H; inversion H; subst. exists [], []. auto.
  - destruct (match_here r (x :: s)) eqn:E.
    + intros H; inversion H; subst. exists [], (x :: s). auto.
    + intros H. destruct (IH H) as (a & b & -> & M).
      exists (x :: a), b. auto.
Qed.

(** What [TASK_COMPLETE:\s*(.+)] captures. *)
Lemma complete_match_shape (s : str) (gs : list str) (rest : str) :
  Match complete_re s gs rest ->
  exists spaces message,
    gs = [message]
    /\ s = lit "TASK_COMPLETE:" ++ spaces ++ message ++ rest
    /\ Forall (fun c => isspace c = true) spaces
    /\ Forall (fun c => c <> QwenVisionAgent.newline) message
    /\ message <> [].
Proof.
  unfold complete_re, chars. simpl. intros M.
  repeat match goal with
         | H : Match (Chr _ :: _) _ _ _ |- _ => inversion H; subst; clear H
         end.
  match goal with H : Match (Star _ :: _) _ _ _ |- _ => inversion H; subst; clear H end.
  match goal with H : Match (Group _ :: _) _ _ _ |- _ => inversion H; subst; clear H end.
  match goal with H : Match [] _ _ _ |- _ => inversion H; subst; clear H end.
  exists run, run0. repeat split; auto.
  match goal with H : Forall _ run0 |- _ => revert H end.
  apply Forall_impl. intros c Hc ->. discriminate.
Qed.

Lemma complete_starts (s : str) :
  match_here complete_re s <> None ->
  startswith Ascii.eqb (lit "TASK_COMPLETE:") s = true.
Proof.
  destruct (match_here complete_re s) as [gs|] eqn:E; [intros _|contradiction].
  apply match_here_sound in E. destruct E as (rest & M).
  apply complete_match_shape in M.
  destruct M as (spaces & message & _ & -> & _). reflexivity.
Qed.

Lemma completion_result_truthy (action : str) :
  truthy (completion_result action) = true.
Proof.
  unfold completion_result, group1.
  destruct (search complete_re action) as [gs|] eqn:E; [|reflexivity].
  apply search_sound in E. destruct E as (a & b & -> & E).
  apply match_here_sound in E. destruct E as (rest & M).
  apply complete_match_shape in M.
  destruct M as (spaces & message & -> & _ & _ & _ & Hne).
  destruct message; [contradiction | reflexivity].
Qed.

(** A [break] ends the loop, with its text. *)
Lemma main_loop_break (fuel : nat) (env : Z -> observation) :
  forall (a : agent) (passes : list pass) (final : str) (i : nat) (p : pass) (r : str),
    main_loop fuel env a = Ok (passes, final) ->
    nth_error passes i = Some p ->
    ended p = break_with r ->
    final = r /\ List.length passes = S i.
Proof.
  induction fuel as [|fuel IH]; intros a passes final i p r; simpl.
  - intros H; inversion H; subst. destruct i; discriminate.
  - destruct (has_reached_step_limit (execution_state a)).
    { intros H; inversion H; subst. destruct i; discriminate. }
    destruct (loop_body _ a) as [q|e] eqn:B; simpl; [|discriminate].
    assert (Hmore : (more <- main_loop fuel env (after q) ;; Ok (q :: fst more, snd more))
                    = Ok (passes, final) ->
                    (forall r', ended q <> break_with r') ->
                    nth_error passes i = Some p ->
                    ended p = break_with r ->
                    final = r /\ List.length passes = S i).
    { destruct (main_loop fuel env (after q)) as [[ps f]|e] eqn:M; simpl; [|discriminate].
      intros H Hq Hi Hp. inversion H; subst.
      destruct i as [|i]; simpl in Hi.
      + inversion Hi; subst. exfalso. eapply Hq; eassumption.
      + destruct (IH _ _ _ _ _ _ M Hi Hp) as [-> L]. simpl. auto. }
    destruct (ended q) as [|[|]|f] eqn:Eq.
    + intros H. apply Hmore; [exact H | discriminate].
    + intros H Hi Hp. inversion H; subst.
      destruct i as [|[|i]]; simpl in Hi; try discriminate.
      inversion Hi; subst. congruence.
    + intros H. apply Hmore; [exact H | discriminate].
    + intros H Hi Hp. inversion H; subst.
      destruct i as [|[|i]]; simpl in Hi; try discriminate.
      inversion Hi; subst. rewrite Eq in Hp. inversion Hp; subst. auto.
Qed.

Lemma loop_body_completion (o : observation) (a : agent) (p : pass) (action : str) :
  loop_body o a = Ok p ->
  action_to_execute p = Some action ->
  has "TASK_COMPLETE" action = true ->
  ended p = break_with (completion_result action).
Proof.
  intros H. apply loop_body_cases in H.
  destruct H as [[_ ->]|(_ & act & t & s2 & flag & C & _ & ->)]; [discriminate|].
  cbn [action_to_execute ended].
  intros A; inversion A; subst. intros ->. reflexivity.
Qed.

End Completion.

Section CompletionMessage.
Import Re Notions TaskExecutionState IntelligentMobileAgent.

(** The marker with its colon cannot overlap itself. *)
Lemma marker_border (q tail : str) :
  q <> [] ->
  startswith Ascii.eqb (lit "TASK_COMPLETE:") q = false ->
  startswith Ascii.eqb (lit "TASK_COMPLETE:") (q ++ lit "TASK_COMPLETE:" ++ tail) = false.
Proof.
  intros Hne H.
  destruct q as [|c1 q]; [contradiction|]. clear Hne.
  revert H.
  do 13 (destruct q as [|? q];
         [intros _; cbn -[Ascii.eqb];
          repeat match goal with
                 | |- context [Ascii.eqb ?a ?b] =>
                     destruct (Ascii.eqb a b) eqn:?; cbn -[Ascii.eqb]; try reflexivity
                 end|]).
  intros H. cbn -[Ascii.eqb] in *. exact H.
Qed.

Lemma contains_suffix (p a1 a2 : str) :
  contains Ascii.eqb p (a1 ++ a2) = false -> startswith Ascii.eqb p a2 = false.
Proof.
  induction a1 as [|x a1 IH]; simpl; intros H.
  - destruct a2; simpl in H; apply orb_false_iff in H; tauto.
  - apply orb_false_iff in H. destruct H as [_ H]. exact (IH H).
Qed.

Lemma search_skip (r : regex) (a b : str) :
  (forall a1 a2, a = a1 ++ a2 -> a2 <> [] -> match_here r (a2 ++ b) = None) ->
  search r (a ++ b) = search r b.
Proof.
  induction a as [|x a IH]; intros H; [reflexivity|].
  assert (E : match_here r (x :: a ++ b) = None).
  { apply (H [] (x :: a)); [reflexivity | discriminate]. }
  simpl. rewrite E.
  apply IH. intros a1 a2 -> Hne. apply (H (x :: a1) a2 eq_refl Hne).
Qed.

(** The message after the first marker of a one-line action. *)
Lemma first_marker_message (before spaces message : str) :
  has "TASK_COMPLETE:" before = false ->
  Forall (fun c => isspace c = true) spaces ->
  match message with [] => False | c :: _ => isspace c = false end ->
  one_line message ->
  completion_result (before ++ lit "TASK_COMPLETE:" ++ spaces ++ message) = message.
Proof.
  intros Hb Hs Hm Hl.
  assert (M : match_here complete_re (lit "TASK_COMPLETE:" ++ spaces ++ message)
              = Some [message]).
  { change complete_re
      with (chars "TASK_COMPLETE:" ++ [Star isspace; Group dot]).
    unfold chars. cbn [lit list_ascii_of_string map app].
    rewrite !match_chr.
    apply match_star_run; [exact Hs | destruct message; [contradiction | exact Hm] |].
    rewrite <- (app_nil_r message) at 1.
    apply match_group_run; [| |exact I|reflexivity].
    - rewrite Forall_forall. intros c Hc. unfold dot.
      destruct (Ascii.eqb c "010") eqn:E; [|reflexivity].
      apply Ascii.eqb_eq in E. subst. contradiction.
    - destruct message; [contradiction | discriminate]. }
  unfold completion_result, group1.
  rewrite search_skip.
  - rewrite search_here with (gs := [message]) by exact M. reflexivity.
  - intros a1 a2 -> Hne.
    destruct (match_here complete_re (a2 ++ lit "TASK_COMPLETE:" ++ spaces ++ message))
      eqn:E; [|reflexivity].
    assert (S : startswith Ascii.eqb (lit "TASK_COMPLETE:")
                  (a2 ++ lit "TASK_COMPLETE:" ++ spaces ++ message) = true).
    { apply complete_starts. rewrite E. discriminate. }
    rewrite marker_border in S; [discriminate | exact Hne |].
    exact (contains_suffix _ _ _ Hb).
Qed.

(** C8. In a run of a task, a pass whose action contains [TASK_COMPLETE]
    is the last pass: the loop is left at once and the task returns the
    completion message of the action.  This message is the text matched
    after the first [TASK_COMPLETE:] that has one: white space is skipped
    and the rest of the line is taken; so for a one-line action the message
    is exactly what follows the first [TASK_COMPLETE:] and the white space
    after it.  When no [TASK_COMPLETE:] with a message is found the result
    is the default message [Task completed successfully]. *)
Theorem C8_completion_result :
  forall (self : agent) (task_instruction : str) (launched : bool)
         (env : Z -> observation) (passes : list pass) (returned_text : str)
         (i : nat) (p : pass) (action : str),
    execute_task_instruction self task_instruction launched env
    = Ok (passes, returned_text) ->
    nth_error passes i = Some p ->
    action_to_execute p = Some action ->
    has "TASK_COMPLETE" action = true ->
    List.length passes = S i
    /\ ended p = break_with (completion_result action)
    /\ returned_text = completion_result action
    /\ (forall message,
          group1 complete_re action = Some message ->
          completion_result action = message
          /\ message <> []
          /\ exists before spaces after,
               action = before ++ lit "TASK_COMPLETE:" ++ spaces ++ message ++ after
               /\ Forall (fun c => isspace c = true) spaces
               /\ one_line message)
    /\ (forall before spaces message,
          action = before ++ lit "TASK_COMPLETE:" ++ spaces ++ message ->
          has "TASK_COMPLETE:" before = false ->
          Forall (fun c => isspace c = true) spaces ->
          match message with [] => False | c :: _ => isspace c = false end ->
          one_line message ->
          returned_text = message)
    /\ (group1 complete_re action = None ->
        returned_text = lit "Task completed successfully")
    /\ (has "TASK_COMPLETE:" action = false ->
        returned_text = lit "Task completed successfully").
Proof.
  intros self task launched env passes text i p action Hrun Hi Ha Hm.
  unfold execute_task_instruction in Hrun.
  destruct (negb (str_eqb _ _) && negb launched).
  { inversion Hrun; subst. destruct i; discriminate. }
  match type of Hrun with
  | (run <- main_loop ?f env ?a0 ;; _) = _ =>
      destruct (main_loop f env a0) as [[ps final]|e] eqn:L;
        simpl in Hrun; [|discriminate]
  end.
  inversion Hrun; subst passes text; clear Hrun.
  destruct (main_loop_nth _ _ _ _ L Hi) as (b & _ & Lb).
  pose proof (loop_body_completion _ _ Lb Ha Hm) as Hend.
  destruct (@main_loop_break _ _ _ _ _ _ _ _ L Hi Hend) as [-> Hlen].
  rewrite completion_result_truthy.
  split; [exact Hlen|]. split; [exact Hend|]. split; [reflexivity|].
  split.
  { intros message Hg. unfold completion_result. rewrite Hg.
    split; [reflexivity|].
    unfold group1 in Hg.
    destruct (search complete_re action) as [gs|] eqn:E; [|discriminate].
    apply search_sound in E. destruct E as (before & rest0 & -> & E).
    apply match_here_sound in E. destruct E as (rest & M).
    apply complete_match_shape in M.
    destruct M as (spaces & message' & -> & -> & Hs & Hd & Hne).
    inversion Hg; subst message'.
    split; [exact Hne|].
    exists before, spaces, rest. split; [reflexivity|]. split; [exact Hs|].
    unfold one_line. intros Hin. rewrite Forall_forall in Hd.
    exact (Hd _ Hin eq_refl). }
  split.
  { intros before spaces message -> Hb Hs Hc Hl.
    now apply first_marker_message. }
  split.
  { intros Hg. unfold completion_result. now rewrite Hg. }
  intros Hno. unfold completion_result, group1.
  destruct (search complete_re action) as [gs|] eqn:E; [|reflexivity].
  apply search_sound in E. destruct E as (before & rest0 & -> & E).
  assert (S : startswith Ascii.eqb (lit "TASK_COMPLETE:") rest0 = true).
  { apply complete_starts. rewrite E. discriminate. }
  unfold has in Hno. apply contains_suffix in Hno. congruence.
Qed.

End CompletionMessage.

Section CompletionExample.
Import Re Notions TaskExecutionState IntelligentMobileAgent.

(** The example of the specification: the reply
    [TASK_COMPLETE: Found 3 items] at the first step of a task. *)
Lemma C8_witness :
  match execute_task_instruction (new_agent 20) (lit "find watermelons") true
          (fun _ => replying (lit "TASK_COMPLETE: Found 3 items")) with
  | Ok (passes, returned_text) =>
      List.length passes = 1%nat /\ returned_text = lit "Found 3 items"
  | Raise _ => False
  end.
Proof.
  destruct (execute_task_instruction (new_agent 20) (lit "find watermelons") true
              (fun _ => replying (lit "TASK_COMPLETE: Found 3 items")))
    as [[passes text]|e] eqn:E; [|vm_compute in E; discriminate].
  assert (P : exists p, nth_error passes 0 = Some p
                        /\ action_to_execute p = Some (lit "TASK_COMPLETE: Found 3 items")).
  { vm_compute in E. inversion E; subst. eexists. split; reflexivity. }
  destruct P as (p & Hp & Ha).
  destruct (@C8_completion_result _ _ _ _ _ _ _ _ _ E Hp Ha eq_refl)
    as (Hlen & _ & _ & _ & Hmsg & _).
  split; [exact Hlen|].
  apply (Hmsg [] [" "%char] (lit "Found 3 items")).
  - reflexivity.
  - reflexivity.
  - repeat constructor.
  - reflexivity.
  - unfold one_line. simpl. intros H.
    repeat (destruct H as [H|H]; [discriminate|]). exact H.
Defined.

End CompletionExample.

(** ** Binary64: shifting, rounding and exact integers *)

Section Shifting.
Import PyFloat.

Lemma shr_1_value (mrs : shr_record) :
  0 <= shr_m mrs ->
  shr_m (shr_1 mrs) = shr_m mrs / 2 /\ 0 <= shr_m (shr_1 mrs).
Proof.
  destruct mrs as [m r s]. simpl. intros Hm.
  destruct m as [|p|p]; [| |lia].
  - simpl. split; [reflexivity | lia].
  - destruct p as [p|p|]; simpl shr_m.
    + split; [|lia]. rewrite Pos2Z.inj_xI.
      apply Z.div_unique with (r := 1); lia.
    + split; [|lia]. rewrite Pos2Z.inj_xO.
      apply Z.div_unique with (r := 0); lia.
    + split; [reflexivity | lia].
Qed.

Lemma pow_xI (n : positive) : 2 ^ Z.pos n~1 = 2 * (2 ^ Z.pos n * 2 ^ Z.pos n).
Proof.
  rewrite Pos2Z.inj_xI.
  replace (2 * Z.pos n + 1) with (Z.pos n + Z.pos n + 1) by lia.
  rewrite !Z.pow_add_r by lia. rewrite Z.pow_1_r. lia.
Qed.

Lemma pow_xO (n : positive) : 2 ^ Z.pos n~0 = 2 ^ Z.pos n * 2 ^ Z.pos n.
Proof. rewrite <- Z.pow_add_r by lia. f_equal. lia. Qed.

Lemma pow2_pos (k : Z) : 0 <= k -> 0 < 2 ^ k.
Proof. intros H. apply Z.pow_pos_nonneg; lia. Qed.

Lemma iter_shr_value (n : positive) :
  forall mrs,
    0 <= shr_m mrs ->
    shr_m (iter_pos shr_1 n mrs) = shr_m mrs / 2 ^ Zpos n
    /\ 0 <= shr_m (iter_pos shr_1 n mrs).
Proof.
  induction n as [n IH|n IH|]; intros mrs Hm; cbn [iter_pos].
  - destruct (@shr_1_value mrs Hm) as [E1 P1].
    destruct (IH _ P1) as [E2 P2]. destruct (IH _ P2) as [E3 P3].
    split; [|exact P3]. rewrite E3, E2, E1.
    pose proof (@pow2_pos (Z.pos n) ltac:(lia)) as Hp.
    rewrite !Z.div_div by lia.
    rewrite pow_xI. reflexivity.
  - destruct (IH _ Hm) as [E2 P2]. destruct (IH _ P2) as [E3 P3].
    split; [|exact P3]. rewrite E3, E2.
    pose proof (@pow2_pos (Z.pos n) ltac:(lia)) as Hp.
    rewrite !Z.div_div by lia.
    rewrite pow_xO. reflexivity.
  - destruct (@shr_1_value mrs Hm) as [E1 P1]. split; [|exact P1].
    rewrite E1. reflexivity.
Qed.

Lemma shr_1_exact (m : Z) :
  0 <= m ->
  shr_1 (Build_shr_record (2 * m) false false) = Build_shr_record m false false.
Proof.
  intros Hm. destruct m as [|p|p]; [reflexivity|reflexivity|lia].
Qed.

Lemma iter_shr_exact (n : positive) :
  forall m,
    0 <= m ->
    iter_pos shr_1 n (Build_shr_record (m * 2 ^ Zpos n) false false)
    = Build_shr_record m false false.
Proof.
  induction n as [n IH|n IH|]; intros m Hm; cbn [iter_pos].
  - pose proof (@pow2_pos (Z.pos n) ltac:(lia)) as Hp.
    rewrite pow_xI.
    replace (m * (2 * (2 ^ Z.pos n * 2 ^ Z.pos n)))
      with (2 * ((m * 2 ^ Z.pos n) * 2 ^ Z.pos n)) by lia.
    rewrite shr_1_exact by nia.
    rewrite IH by nia. now apply IH.
  - pose proof (@pow2_pos (Z.pos n) ltac:(lia)) as Hp.
    rewrite pow_xO.
    replace (m * (2 ^ Z.pos n * 2 ^ Z.pos n))
      with ((m * 2 ^ Z.pos n) * 2 ^ Z.pos n) by lia.
    rewrite IH by nia. now apply IH.
  - replace (m * 2 ^ 1) with (2 * m) by lia. now apply shr_1_exact.
Qed.

Lemma digits_log2 (p : positive) : Zpos (digits2_pos p) = Z.log2 (Zpos p) + 1.
Proof.
  assert (S : forall q, digits2_pos q = Pos.size q).
  { induction q; simpl; congruence. }
  rewrite S. destruct p; simpl; lia.
Qed.

(** The number of digits and the bounds of a positive number. *)
Lemma digits_bounds (p : positive) :
  2 ^ (Zpos (digits2_pos p) - 1) <= Zpos p < 2 ^ Zpos (digits2_pos p).
Proof.
  rewrite digits_log2.
  replace (Z.log2 (Z.pos p) + 1 - 1) with (Z.log2 (Z.pos p)) by lia.
  pose proof (Z.log2_spec (Zpos p)) as H. unfold Z.succ in H. apply H. lia.
Qed.

Lemma digits_unique (p : positive) (d : Z) :
  2 ^ (d - 1) <= Zpos p < 2 ^ d -> Zpos (digits2_pos p) = d.
Proof.
  intros H. rewrite digits_log2.
  assert (0 < d).
  { destruct (Z.lt_ge_cases 0 d) as [G|G]; [exact G|].
    assert (2 ^ d <= 1).
    { destruct (Z.eq_dec d 0) as [->|N]; [simpl; lia|].
      rewrite Z.pow_neg_r by lia. lia. }
    lia. }
  rewrite (Z.log2_unique (Zpos p) (d - 1)); [lia | lia |].
  replace (Z.succ (d - 1)) with d by lia. exact H.
Qed.

End Shifting.

Section Rounding.
Import PyFloat.

Lemma fexp_value (x : Z) : fexp prec emax x = Z.max (x - 53) (-1074).
Proof. reflexivity. Qed.

Lemma record_of_loc_m (m : Z) (l : location) : shr_m (shr_record_of_loc m l) = m.
Proof. destruct l as [|[ | | ]]; reflexivity. Qed.

Lemma round_bounds (m : Z) (l : location) :
  m <= round_nearest_even m l <= m + 1.
Proof.
  destruct l as [|[ | | ]]; simpl; try lia. destruct (Z.even m); lia.
Qed.

(** After [shr_fexp], a mantissa below [2^b] with [53 <= b] fits 53 bits
    as soon as it could not be shifted, and is halved at least once
    otherwise. *)
Lemma shr_fexp_bound (m : positive) (e : Z) (l : location) (mrs : shr_record) (e' : Z) :
  shr_fexp prec emax (Zpos m) e l = (mrs, e') ->
  0 <= shr_m mrs < 2 ^ 53 /\ -1074 <= e'
  /\ (e' = e \/ (e < e' /\ 2 * shr_m mrs <= Zpos m)).
Proof.
  unfold shr_fexp, shr. rewrite fexp_value.
  cbn [Zdigits2].
  pose proof (digits_bounds m) as [_ Hd].
  set (d := Zpos (digits2_pos m)) in *.
  destruct (Z.max (d + e - 53) (-1074) - e) as [|p|p] eqn:En;
    intros H; inversion H; subst; clear H.
  - rewrite record_of_loc_m. split; [|split; [lia | now left]].
    split; [lia|]. apply Z.lt_le_trans with (2 ^ d); [exact Hd|].
    apply Z.pow_le_mono_r; lia.
  - destruct (@iter_shr_value p (shr_record_of_loc (Zpos m) l)) as [E P].
    { rewrite record_of_loc_m. lia. }
    rewrite record_of_loc_m in E.
    pose proof (@pow2_pos (Z.pos p) ltac:(lia)) as Hp.
    split; [|split; [lia|]].
    + split; [exact P|]. rewrite E.
      apply Z.div_lt_upper_bound; [exact Hp|].
      apply Z.lt_le_trans with (2 ^ d); [exact Hd|].
      rewrite <- Z.pow_add_r by lia. apply Z.pow_le_mono_r; lia.
    + right. split; [lia|]. rewrite E.
      assert (2 <= 2 ^ Z.pos p).
      { change 2 with (2 ^ 1) at 1. apply Z.pow_le_mono_r; lia. }
      pose proof (Z.mul_div_le (Zpos m) (2 ^ Z.pos p) Hp).
      assert (0 <= Z.pos m / 2 ^ Z.pos p) by (apply Z.div_pos; lia).
      nia.
  - rewrite record_of_loc_m. split; [|split; [lia | now left]].
    split; [lia|]. apply Z.lt_le_trans with (2 ^ d); [exact Hd|].
    apply Z.pow_le_mono_r; lia.
Qed.

(** The result of a rounding has a mantissa of at most 53 bits and an
    exponent of at most 971. *)
Lemma binary_round_aux_bounded (s : bool) (m : positive) (e : Z) (l : location)
      (s' : bool) (m' : positive) (e' : Z) :
  binary_round_aux prec emax s (Zpos m) e l = S754_finite s' m' e' ->
  Zpos m' < 2 ^ 53 /\ e' <= 971.
Proof.
  unfold binary_round_aux.
  destruct (shr_fexp prec emax (Zpos m) e l) as [mrs1 e1] eqn:S1.
  apply shr_fexp_bound in S1. destruct S1 as ([P1 B1] & X1 & _).
  pose proof (round_bounds (shr_m mrs1) (loc_of_shr_record mrs1)) as R.
  set (m2 := round_nearest_even (shr_m mrs1) (loc_of_shr_record mrs1)) in *.
  destruct (shr_fexp prec emax m2 e1 loc_Exact) as [mrs2 e2] eqn:S2.
  destruct m2 as [|q|q] eqn:Em2; [| |lia].
  - unfold shr_fexp, shr in S2. cbn [Zdigits2] in S2. rewrite fexp_value in S2.
    destruct (Z.max (0 + e1 - 53) (-1074) - e1) as [|p|p] eqn:En; [|lia|];
      inversion S2; subst; simpl; discriminate.
  - apply shr_fexp_bound in S2. destruct S2 as ([P2 B2] & X2 & C2).
    destruct (shr_m mrs2) as [|r|r] eqn:Er; try discriminate.
    destruct (e2 <=? emax - prec) eqn:Le; [|discriminate].
    intros H; inversion H; subst. apply Z.leb_le in Le.
    split; [exact B2 | exact Le].
Qed.

Lemma pos_mul_pow2 (M : positive) (k : Z) :
  0 <= k -> exists q, Zpos q = Zpos M * 2 ^ k.
Proof.
  intros Hk. pose proof (@pow2_pos k Hk).
  destruct (Zpos M * 2 ^ k) as [|q|q] eqn:E; try lia. now exists q.
Qed.

(** Rounding a number that fits is exact. *)
Lemma binary_round_aux_exact (s : bool) (M : positive) (k e : Z) :
  2 ^ 52 <= Zpos M < 2 ^ 53 -> 0 <= k -> -1074 <= e + k <= 971 ->
  binary_round_aux prec emax s (Zpos M * 2 ^ k) e loc_Exact
  = S754_finite s M (e + k).
Proof.
  intros HM Hk He.
  destruct (@pos_mul_pow2 M k Hk) as [q Eq]. rewrite <- Eq.
  assert (Dq : Zpos (digits2_pos q) = 53 + k).
  { apply digits_unique. rewrite Eq.
    replace (53 + k - 1) with (52 + k) by lia.
    rewrite !Z.pow_add_r by lia. pose proof (@pow2_pos k Hk). nia. }
  assert (DM : Zpos (digits2_pos M) = 53).
  { apply digits_unique. exact HM. }
  assert (S1 : shr_fexp prec emax (Zpos q) e loc_Exact
               = (Build_shr_record (Zpos M) false false, e + k)).
  { unfold shr_fexp, shr. cbn [Zdigits2 shr_record_of_loc].
    rewrite fexp_value, Dq.
    replace (Z.max (53 + k + e - 53) (-1074) - e) with k by lia.
    destruct k as [|p|p]; [| |lia].
    - rewrite Eq. f_equal; [f_equal; lia | lia].
    - rewrite Eq, iter_shr_exact by lia. reflexivity. }
  assert (S2 : shr_fexp prec emax (Zpos M) (e + k) loc_Exact
               = (Build_shr_record (Zpos M) false false, e + k)).
  { unfold shr_fexp, shr. cbn [Zdigits2 shr_record_of_loc].
    rewrite fexp_value, DM.
    replace (Z.max (53 + (e + k) - 53) (-1074) - (e + k)) with 0 by lia.
    reflexivity. }
  unfold binary_round_aux. rewrite S1.
  cbn [shr_m loc_of_shr_record round_nearest_even]. rewrite S2.
  cbn [shr_m].
  replace (e + k <=? emax - prec) with true; [reflexivity|].
  symmetry. apply Z.leb_le. unfold emax, prec. lia.
Qed.

End Rounding.

Section Exact.
Import PyFloat.

Lemma iter_xO (q d : positive) : Zpos (Pos.iter xO q d) = Zpos q * 2 ^ Zpos d.
Proof.
  induction d as [|d IH] using Pos.peano_ind.
  - simpl. lia.
  - rewrite Pos.iter_succ, Pos2Z.inj_xO, IH, Pos2Z.inj_succ, Z.pow_succ_r by lia. lia.
Qed.

Lemma one_value : one = S754_finite false 4503599627370496 (-52).
Proof. reflexivity. Qed.

(** [float(z)] for a representable integer. *)
Lemma of_scaled_exact (q : positive) :
  representable (Zpos q) ->
  exists M1 e1,
    of_scaled (Zpos q) 0 = S754_finite false M1 e1
    /\ 2 ^ 52 <= Zpos M1 < 2 ^ 53
    /\ -52 <= e1 <= 971
    /\ (e1 < 0 -> Zpos M1 = Zpos q * 2 ^ (- e1))
    /\ (0 <= e1 -> Zpos q = Zpos M1 * 2 ^ e1).
Proof.
  intros (m & e & Eq & Hm & He).
  pose proof (digits_bounds q) as [Hlo Hhi].
  set (dz := Zpos (digits2_pos q)) in *.
  assert (Hdz : 1 <= dz) by (unfold dz; lia).
  unfold of_scaled, binary_normalize, binary_round, shl_align.
  rewrite fexp_value. fold dz.
  replace (Z.max (dz + 0 - 53) (-1074) - 0) with (dz - 53) by lia.
  replace (Z.max (dz + 0 - 53) (-1074)) with (dz - 53) by lia.
  destruct (dz - 53) as [|k|d] eqn:Ek.
  - (* exactly 53 digits *)
    exists q, 0.
    pose proof (@binary_round_aux_exact false q 0 0) as X.
    rewrite Z.pow_0_r, Z.mul_1_r in X. rewrite X; try lia.
    + replace (dz - 1) with 52 in Hlo by lia. replace dz with 53 in Hhi by lia.
      repeat split; try lia.
    + replace (dz - 1) with 52 in Hlo by lia. replace dz with 53 in Hhi by lia. lia.
  - (* more than 53 digits: the low bits are zero *)
    assert (Hk : Z.pos k <= e).
    { assert (2 ^ (dz - 1) < 2 ^ (53 + e)).
      { apply Z.le_lt_trans with (Zpos q); [exact Hlo|]. rewrite Eq.
        rewrite Z.pow_add_r by lia. pose proof (@pow2_pos e ltac:(lia)). nia. }
      apply Z.pow_lt_mono_r_iff in H; lia. }
    destruct (@pos_mul_pow2 m (e - Z.pos k) ltac:(lia)) as [M EM].
    assert (EqM : Zpos q = Zpos M * 2 ^ Z.pos k).
    { rewrite EM, Eq, <- Z.mul_assoc, <- Z.pow_add_r by lia. do 2 f_equal. lia. }
    assert (BM : 2 ^ 52 <= Zpos M < 2 ^ 53).
    { pose proof (@pow2_pos (Z.pos k) ltac:(lia)) as Hp.
      replace (dz - 1) with (52 + Z.pos k) in Hlo by lia.
      replace dz with (53 + Z.pos k) in Hhi by lia.
      rewrite Z.pow_add_r in Hlo, Hhi by lia. nia. }
    exists M, (Z.pos k). rewrite EqM.
    rewrite binary_round_aux_exact by lia.
    repeat split; try lia.
  - (* fewer than 53 digits: shifted to the left *)
    exists (Pos.iter xO q d), (Z.neg d).
    pose proof (iter_xO q d) as EI.
    assert (BM : 2 ^ 52 <= Zpos (Pos.iter xO q d) < 2 ^ 53).
    { rewrite EI. pose proof (@pow2_pos (Z.pos d) ltac:(lia)) as Hp.
      replace 52 with ((dz - 1) + Z.pos d) by lia.
      replace 53 with (dz + Z.pos d) by lia.
      rewrite !Z.pow_add_r by lia. nia. }
    pose proof (@binary_round_aux_exact false (Pos.iter xO q d) 0 (Z.neg d)) as X.
    rewrite Z.pow_0_r, Z.mul_1_r, Z.add_0_r in X. rewrite X; try lia.
    repeat split; try lia.
    intros _. rewrite EI. reflexivity.
Qed.

Lemma mul_one_exact (M1 : positive) (e1 : Z) :
  2 ^ 52 <= Zpos M1 < 2 ^ 53 -> -52 <= e1 <= 971 ->
  mul (S754_finite false M1 e1) one = S754_finite false M1 e1.
Proof.
  intros HM He. rewrite one_value. unfold mul, SFmul. cbn [xorb].
  rewrite Pos2Z.inj_mul.
  change (Z.pos 4503599627370496) with (2 ^ 52).
  rewrite binary_round_aux_exact by lia.
  f_equal. lia.
Qed.

Lemma scale_one_exact (z : Z) :
  z = 0 \/ (0 < z /\ representable z) -> scale z one = Ok z.
Proof.
  intros [-> | [Hz R]]; [reflexivity|].
  destruct z as [|q|q]; try lia.
  destruct (@of_scaled_exact q R) as (M1 & e1 & E & HM & He & Hneg & Hpos).
  unfold scale, int_mul, of_int. rewrite E. unfold bind.
  rewrite mul_one_exact by assumption.
  unfold to_int. f_equal.
  destruct e1 as [|k|k].
  - rewrite Hpos by lia. reflexivity.
  - rewrite Hpos by lia. reflexivity.
  - rewrite Hneg by lia. simpl Z.opp.
    apply Z.quot_mul. pose proof (@pow2_pos (Z.pos k) ltac:(lia)). lia.
Qed.

Lemma mul_bounded (a b : float) (s : bool) (m : positive) (e : Z) :
  mul a b = S754_finite s m e -> Zpos m < 2 ^ 53 /\ e <= 971.
Proof.
  unfold mul, SFmul.
  destruct a as [sa|sa| |sa ma ea], b as [sb|sb| |sb mb eb]; try discriminate.
  apply binary_round_aux_bounded.
Qed.

Lemma int_mul_shape (n : Z) (f p : float) :
  0 <= n -> nonneg_finite f -> int_mul n f = Ok p ->
  not_negative p
  /\ forall s m e, p = S754_finite s m e -> Zpos m < 2 ^ 53 /\ e <= 971.
Proof.
  intros Hn Hf. unfold int_mul, of_int.
  pose proof (@of_scaled_sign n 0 Hn) as Hs.
  assert (G : forall x, not_negative x -> Ok (mul x f) = Ok p ->
                not_negative p
                /\ forall s m e, p = S754_finite s m e -> Zpos m < 2 ^ 53 /\ e <= 971).
  { intros x Hx E. assert (Ep : p = mul x f) by congruence. split.
    - rewrite Ep. now apply mul_sign.
    - intros s m e Es. rewrite Ep in Es. exact (mul_bounded _ _ Es). }
  destruct (of_scaled n 0) as [s|s| |s m e]; unfold bind; try discriminate;
    apply G; exact Hs.
Qed.

(** A coordinate that was scaled once is left as it is by the scale 1. *)
Lemma scale_idempotent (n : Z) (f : float) (z : Z) :
  0 <= n -> nonneg_finite f -> scale n f = Ok z -> scale z one = Ok z.
Proof.
  intros Hn Hf H.
  destruct (@scale_floor n f z Hn Hf H) as (p & Hp & _ & Hz).
  unfold scale in H. rewrite Hp in H. unfold bind in H.
  destruct (@int_mul_shape n f p Hn Hf Hp) as [Hs Hb].
  apply scale_one_exact.
  destruct (Z.eq_dec z 0) as [->|Nz]; [now left|right].
  split; [lia|].
  destruct p as [sp|sp| |sp m e]; try discriminate.
  { inversion H; subst. contradiction. }
  destruct (Hb sp m e eq_refl) as [Bm Be].
  unfold not_negative in Hs. subst sp. unfold to_int in H.
  injection H as Ez.
  destruct e as [|k|k].
  - exists m, 0. repeat split; [symmetry; exact Ez | exact Bm | lia | lia].
  - exists m, (Z.pos k). repeat split; [symmetry; exact Ez | exact Bm | lia | lia].
  - pose proof (@pow2_pos (Z.pos k) ltac:(lia)) as Hp2.
    rewrite Z.quot_div_nonneg in Ez by lia.
    assert (z <= Zpos m).
    { rewrite <- Ez. apply Z.div_le_upper_bound; [lia|]. nia. }
    assert (0 <= z).
    { rewrite <- Ez. apply Z.div_pos; lia. }
    destruct z as [|q|q]; try lia.
    exists q, 0. rewrite Z.pow_0_r. repeat split; lia.
Qed.

(** A scaled coordinate is written with far fewer digits than [int]
    reads. *)
Lemma scale_below (n : Z) (f : float) (z : Z) :
  0 <= n -> nonneg_finite f -> scale n f = Ok z ->
  0 <= z < 10 ^ Z.of_nat max_str_digits.
Proof.
  intros Hn Hf H.
  destruct (@scale_floor n f z Hn Hf H) as (p & Hp & _ & Hz).
  split; [exact Hz|].
  unfold scale in H. rewrite Hp in H. unfold bind in H.
  destruct (@int_mul_shape n f p Hn Hf Hp) as [Hs Hb].
  assert (B : 2 ^ 1024 <= 10 ^ Z.of_nat max_str_digits)
    by (apply Z.leb_le; vm_compute; reflexivity).
  assert (P53 : 0 < 2 ^ 53) by (apply pow2_pos; lia).
  assert (E1024 : 2 ^ 1024 = 2 ^ 53 * 2 ^ 971)
    by (rewrite <- Z.pow_add_r by lia; reflexivity).
  assert (P971 : 0 < 2 ^ 971) by (apply pow2_pos; lia).
  assert (G : z < 2 ^ 1024); [|lia].
  rewrite E1024. clear B E1024.
  destruct p as [sp|sp| |sp m e]; try discriminate.
  { inversion H; subst. apply Z.mul_pos_pos; assumption. }
  destruct (Hb sp m e eq_refl) as [Bm Be].
  unfold not_negative in Hs. subst sp. unfold to_int in H.
  injection H as Ez.
  assert (M : forall P, 0 < P -> P <= 2 ^ 971 -> Zpos m * P < 2 ^ 53 * 2 ^ 971).
  { intros P HP HQ.
    apply Z.le_lt_trans with (Zpos m * 2 ^ 971).
    - apply Z.mul_le_mono_nonneg_l; lia.
    - apply Z.mul_lt_mono_pos_r; assumption. }
  destruct e as [|k|k].
  - rewrite <- Ez. apply M; [apply pow2_pos; lia | apply Z.pow_le_mono_r; lia].
  - rewrite <- Ez. apply M; [apply pow2_pos; lia | apply Z.pow_le_mono_r; lia].
  - pose proof (@pow2_pos (Z.pos k) ltac:(lia)) as Hp2.
    rewrite Z.quot_div_nonneg in Ez by lia.
    assert (z <= Zpos m).
    { rewrite <- Ez. apply Z.div_le_upper_bound; [lia|].
      rewrite <- (Z.mul_1_l (Z.pos m)) at 1.
      apply Z.mul_le_mono_nonneg_r; lia. }
    apply Z.le_lt_trans with (Zpos m * 1); [lia|].
    apply M; [lia|]. change 1 with (2 ^ 0). apply Z.pow_le_mono_r; lia.
Qed.

End Exact.

(** ** Parsing what the parser returned *)

Section Reparse.
Import Re Notions QwenVisionAgent UIElementParser.

Lemma tap_match_shape (s : str) (gs : list str) (rest : str) :
  Match tap_re s gs rest ->
  exists gx gy,
    gs = [gx; gy]
    /\ Forall (fun c => isdigit c = true) gx
    /\ Forall (fun c => isdigit c = true) gy.
Proof.
  unfold tap_re, chars. simpl. intros M.
  repeat match goal with
         | H : Match (Chr _ :: _) _ _ _ |- _ => inversion H; subst; clear H
         | H : Match (Star _ :: _) _ _ _ |- _ => inversion H; subst; clear H
         | H : Match (Group _ :: _) _ _ _ |- _ => inversion H; subst; clear H
         | H : Match [] _ _ _ |- _ => inversion H; subst; clear H
         end.
  eauto.
Qed.

Lemma tap_search_digits (s gx gy : str) :
  tap_search s = Some (gx, gy) ->
  Forall (fun c => isdigit c = true) gx /\ Forall (fun c => isdigit c = true) gy.
Proof.
  unfold tap_search.
  destruct (search tap_re s) as [gs|] eqn:E; [|discriminate].
  apply search_sound in E. destruct E as (a & b & _ & E).
  apply match_here_sound in E. destruct E as (rest & M).
  apply tap_match_shape in M. destruct M as (x & y & -> & Hx & Hy).
  intros H; inversion H; subst. auto.
Qed.

Lemma tap_match_groups (s : str) (gs : list str) (rest : str) :
  Match tap_re s gs rest ->
  exists gx gy,
    gs = [gx; gy]
    /\ (Forall (fun c => isdigit c = true) gx /\ gx <> [])
    /\ (Forall (fun c => isdigit c = true) gy /\ gy <> []).
Proof.
  unfold tap_re, chars. simpl. intros M.
  repeat match goal with
         | H : Match (Chr _ :: _) _ _ _ |- _ => inversion H; subst; clear H
         | H : Match (Star _ :: _) _ _ _ |- _ => inversion H; subst; clear H
         | H : Match (Group _ :: _) _ _ _ |- _ => inversion H; subst; clear H
         | H : Match [] _ _ _ |- _ => inversion H; subst; clear H
         end.
  eauto 10.
Qed.

(** The two groups of a tap are non-empty runs of digits. *)
Lemma tap_search_groups (s gx gy : str) :
  tap_search s = Some (gx, gy) ->
  (Forall (fun c => isdigit c = true) gx /\ gx <> [])
  /\ (Forall (fun c => isdigit c = true) gy /\ gy <> []).
Proof.
  unfold tap_search.
  destruct (search tap_re s) as [gs|] eqn:E; [|discriminate].
  apply search_sound in E. destruct E as (a & b & _ & E).
  apply match_here_sound in E. destruct E as (rest & M).
  apply tap_match_groups in M. destruct M as (x & y & -> & Hx & Hy).
  intros H; inversion H; subst. auto.
Qed.

(** What [int] makes of a group of a tap. *)
Lemma int_of_str_group (g : str) :
  Forall (fun c => isdigit c = true) g /\ g <> [] ->
  ((List.length g <= max_str_digits)%nat /\ int_of_str g = Ok (int_of_digits g))
  \/ ((max_str_digits < List.length g)%nat /\ int_of_str g = Raise ValueError).
Proof.
  intros [D N].
  destruct (Nat.le_gt_cases (List.length g) max_str_digits) as [L|L].
  - left. split; [exact L|]. now apply int_of_str_short.
  - right. split; [exact L|]. now apply int_of_str_long.
Qed.

Lemma type_match_shape (s : str) (gs : list str) (rest : str) :
  Match type_re s gs rest ->
  exists spaces q1 g q2,
    gs = [g]
    /\ s = lit "TYPE" ++ spaces ++ q1 :: g ++ q2 :: rest
    /\ isquote q2 = true.
Proof.
  unfold type_re, chars. simpl. intros M.
  repeat match goal with
         | H : Match (Chr _ :: _) _ _ _ |- _ => inversion H; subst; clear H
         | H : Match (Star _ :: _) _ _ _ |- _ => inversion H; subst; clear H
         | H : Match (OneOf _ :: _) _ _ _ |- _ => inversion H; subst; clear H
         | H : Match (Group _ :: _) _ _ _ |- _ => inversion H; subst; clear H
         | H : Match [] _ _ _ |- _ => inversion H; subst; clear H
         end.
  do 4 eexists. split; [reflexivity|]. split; [reflexivity|]. assumption.
Qed.

Lemma after_first_incl (c x : ascii) (s : str) :
  In x (after_first c s) -> In x s.
Proof.
  induction s as [|y s IH]; simpl; [auto|].
  destruct (Ascii.eqb y c); auto.
Qed.

Lemma comment_of_stripped (line : str) :
  one_line line -> stripped (comment_of line) /\ one_line (comment_of line).
Proof.
  intros Hl. unfold comment_of. destruct (has "#" line).
  - split; [apply strip_idempotent|].
    apply strip_one_line. unfold one_line in *. intros H. apply Hl.
    eapply after_first_incl; eassumption.
  - split; [reflexivity|]. unfold one_line. simpl. intros H.
    repeat (destruct H as [H|H]; [discriminate|]). exact H.
Qed.

(** The lines of a reply are stripped here and within one line. *)
Lemma first_actionable_line (response_lines : list str) (line : str) :
  Forall one_line response_lines ->
  first_actionable response_lines = Some line ->
  stripped line /\ one_line line /\ actionable line = true.
Proof.
  intros Hall H. apply first_actionable_spec in H.
  destruct H as (pre & l & post & -> & _ & -> & Ha).
  split; [apply strip_idempotent|]. split; [|exact Ha].
  apply strip_one_line. rewrite Forall_forall in Hall. apply Hall.
  apply in_or_app. right. now left.
Qed.

(** A stripped line that decided once decides again, alone. *)
Lemma lines_of_line (line : str) :
  stripped line -> one_line line -> actionable line = true ->
  first_actionable (lines_of line) = Some line.
Proof.
  intros Hs Hl Ha. unfold lines_of. rewrite Hs, split_one_line by exact Hl.
  cbn [first_actionable]. rewrite Hs, Ha. reflexivity.
Qed.

Lemma strip_rstrip_comment (c : str) :
  stripped c -> strip (rstrip (" "%char :: c)) = c.
Proof.
  intros Hc. destruct c as [|x c]; [reflexivity|].
  change (" "%char :: x :: c) with ([" "%char] ++ x :: c).
  rewrite rstrip_stripped by (assumption || discriminate).
  apply strip_space_stripped. exact Hc.
Qed.

(** The text of a tap is parsed back to itself at the scale 1. *)
Lemma reparse_tap (X Y : Z) (comment : str) :
  0 <= X < 10 ^ Z.of_nat max_str_digits -> 0 <= Y < 10 ^ Z.of_nat max_str_digits ->
  PyFloat.scale X PyFloat.one = Ok X -> PyFloat.scale Y PyFloat.one = Ok Y ->
  stripped comment -> one_line comment ->
  extract_action_from_response (tap_text X Y comment) PyFloat.one PyFloat.one
  = Ok (Some (tap_text X Y comment)).
Proof.
  intros BX BY SX SY Hs Hl.
  assert (HX : 0 <= X) by lia. assert (HY : 0 <= Y) by lia.
  destruct (str_of_int_nonneg HX) as (NX & DX & VX).
  destruct (str_of_int_nonneg HY) as (NY & DY & VY).
  destruct (@primary_tap_text X Y comment HX HY Hl) as [_ T].
  set (out := strip (tap_text X Y comment)) in *.
  assert (Hout : stripped out) by apply strip_idempotent.
  assert (Lout : one_line out)
    by (apply strip_one_line, tap_text_one_line; assumption).
  assert (Shape : out = (lit "TAP (" ++ str_of_int X ++ lit "," ++ str_of_int Y
                           ++ lit ") ") ++ hash :: rstrip (" "%char :: comment)).
  { unfold out. rewrite tap_text_strip.
    repeat (simpl; rewrite <- ?app_assoc). reflexivity. }
  assert (Aout : actionable out = true).
  { unfold actionable. rewrite matches_tap, T.
    unfold out. rewrite tap_text_strip. reflexivity. }
  assert (Cout : comment_of out = comment).
  { unfold comment_of, has.
    assert (Hin : In hash out).
    { rewrite Shape. apply in_or_app. right. now left. }
    apply (has_char hash out) in Hin. change (lit "#") with [hash]. rewrite Hin.
    rewrite Shape, after_first_app.
    - now apply strip_rstrip_comment.
    - intros Hh.
      apply in_app_or in Hh. destruct Hh as [Hh|Hh].
      { simpl in Hh. repeat (destruct Hh as [Hh|Hh]; [discriminate|]). exact Hh. }
      apply in_app_or in Hh. destruct Hh as [Hh|Hh].
      { exact (digits_no_hash DX Hh). }
      apply in_app_or in Hh. destruct Hh as [Hh|Hh].
      { simpl in Hh. repeat (destruct Hh as [Hh|Hh]; [discriminate|]). exact Hh. }
      apply in_app_or in Hh. destruct Hh as [Hh|Hh].
      { exact (digits_no_hash DY Hh). }
      simpl in Hh. repeat (destruct Hh as [Hh|Hh]; [discriminate|]). exact Hh. }
  rewrite extract_spec. unfold lines_of. fold out.
  rewrite split_one_line by exact Lout.
  cbn [first_actionable]. rewrite Hout, Aout.
  unfold line_result. rewrite T, Cout.
  rewrite (@scaled_tap_ok (str_of_int X) (str_of_int Y) comment
             PyFloat.one PyFloat.one X Y X Y)
    by (assumption || now apply int_of_str_of_int).
  reflexivity.
Qed.

End Reparse.

Section ReparseType.
Import Re Notions QwenVisionAgent UIElementParser.

Lemma prefix_split (P : ascii -> bool) (consumed : str) :
  forall g2 q B rest,
    g2 ++ q :: B = consumed ++ rest ->
    Forall (fun c => P c = true) consumed ->
    P q = false ->
    exists g3, g2 = consumed ++ g3.
Proof.
  induction consumed as [|c cs IH]; intros g2 q B rest E Hc Hq.
  - exists g2. reflexivity.
  - inversion Hc as [|? ? Pc Hcs]; subst.
    destruct g2 as [|x g2]; simpl in E; inversion E; subst.
    + congruence.
    + destruct (IH _ _ _ _ H1 Hcs Hq) as (g3 & ->). exists g3. reflexivity.
Qed.

(** The text that the fallback builds around a typed text has no tap in
    it when the reply had none. *)
Lemma no_tap_in_type_text (full g : str) :
  search tap_re full = None ->
  group1 type_re full = Some g ->
  search tap_re (lit "TYPE '" ++ g ++ lit "' # extracted action") = None.
Proof.
  intros Hfull Hg.
  unfold group1 in Hg.
  destruct (search type_re full) as [gs|] eqn:E; [|discriminate].
  apply search_sound in E. destruct E as (a & b & -> & E).
  apply match_here_sound in E. destruct E as (rest & M).
  apply type_match_shape in M.
  destruct M as (spaces & q1 & g' & q2 & -> & -> & Hq2).
  inversion Hg; subst g'; clear Hg.
  apply search_none_app. split.
  - intros a1 a2 Ea Hne.
    do 6 (destruct a1 as [|? a1];
          [simpl in Ea; subst a2; reflexivity | simpl in Ea; injection Ea as <- Ea]).
    destruct a1; simpl in Ea; [subst a2; contradiction | discriminate].
  - apply search_none_app. split; [|vm_compute; reflexivity].
    intros g1 g2 -> Hne.
    destruct (match_here tap_re (g2 ++ lit "' # extracted action")) as [gs|] eqn:E;
      [exfalso|reflexivity].
    apply match_here_sound in E. destruct E as (rest' & M).
    apply Match_consumed in M. destruct M as (consumed & Ec & Al & F).
    destruct (@prefix_split (alphabet tap_re) consumed g2 "'"%char
                (lit " # extracted action") rest' Ec Al eq_refl) as (g3 & ->).
    pose proof (match_here_complete (F (g3 ++ q2 :: rest))) as C.
    apply (@search_found tap_re (a ++ lit "TYPE" ++ spaces ++ q1 :: g1)) in C.
    apply C. rewrite <- Hfull. f_equal.
    repeat (simpl; rewrite <- ?app_assoc). reflexivity.
Qed.

Lemma reparse_type (full g : str) :
  search tap_re full = None ->
  group1 type_re full = Some g ->
  one_line (lit "TYPE '" ++ g ++ lit "' # extracted action") ->
  extract_action_from_response (lit "TYPE '" ++ g ++ lit "' # extracted action")
    PyFloat.one PyFloat.one
  = Ok (Some (lit "TYPE '" ++ g ++ lit "' # extracted action")).
Proof.
  intros Hfull Hg Hl.
  pose proof (no_tap_in_type_text _ Hfull Hg) as NT.
  set (out := lit "TYPE '" ++ g ++ lit "' # extracted action") in *.
  assert (Hs : stripped out).
  { unfold stripped, out.
    replace (lit "TYPE '" ++ g ++ lit "' # extracted action")
      with ("T"%char :: (lit "YPE '" ++ g ++ lit "' # extracted actio") ++ ["n"%char]).
    - apply strip_fixed; reflexivity.
    - repeat (simpl; rewrite <- ?app_assoc). reflexivity. }
  assert (Ha : actionable out = true).
  { unfold actionable.
    replace (skipped out) with false by reflexivity.
    replace (matches type_open_re out) with true by reflexivity.
    simpl. rewrite orb_true_r. reflexivity. }
  rewrite extract_spec, lines_of_line by assumption.
  unfold line_result.
  apply tap_search_none in NT. rewrite NT. reflexivity.
Qed.

End ReparseType.

Section ReparseClaim.
Import Re Notions QwenVisionAgent UIElementParser.

(** A tap found in a text and scaled by non-negative factors: the text that
    is built parses to itself at scale 1.0 and lies within one line. *)
Lemma scaled_tap_reparse (text gx gy comment out : str) (sw sh : PyFloat.float) :
  PyFloat.nonneg_finite sw -> PyFloat.nonneg_finite sh ->
  tap_search text = Some (gx, gy) ->
  stripped comment -> one_line comment ->
  scaled_tap gx gy sw sh comment = Ok out ->
  extract_action_from_response out PyFloat.one PyFloat.one = Ok (Some out)
  /\ one_line out.
Proof.
  intros Hsw Hsh T Hs Hl H.
  destruct (tap_search_groups _ T) as [Gx Gy].
  pose proof (int_of_digits_nonneg (proj1 Gx)) as Dx.
  pose proof (int_of_digits_nonneg (proj1 Gy)) as Dy.
  unfold scaled_tap in H.
  destruct (int_of_str_group Gx) as [[_ Ex]|[_ Ex]]; rewrite Ex in H;
    unfold bind at 1 in H; [|discriminate].
  destruct (int_of_str_group Gy) as [[_ Ey]|[_ Ey]]; rewrite Ey in H;
    unfold bind at 1 in H; [|discriminate].
  destruct (PyFloat.scale (int_of_digits gx) sw) as [X|e] eqn:SX;
    unfold bind at 1 in H; [|discriminate].
  destruct (PyFloat.scale (int_of_digits gy) sh) as [Y|e] eqn:SY;
    unfold bind in H; [|discriminate].
  injection H as <-.
  pose proof (@scale_below _ _ _ Dx Hsw SX) as BX.
  pose proof (@scale_below _ _ _ Dy Hsh SY) as BY.
  split.
  - apply reparse_tap; try assumption.
    + exact (@scale_idempotent _ _ _ Dx Hsw SX).
    + exact (@scale_idempotent _ _ _ Dy Hsh SY).
  - apply tap_text_one_line; (assumption || lia).
Qed.

(** C9 (parser idempotence, amended).  Let the parser return the action
    [out] for a reply, with non-negative finite scale factors.  If [out]
    lies within one line, parsing [out] again with the scale factors
    (1.0, 1.0) returns [out] itself.  The action does lie within one line
    whenever it was taken from a line of the reply or from a tap found in
    the full text; only the text of a TYPE found in the full text can
    carry a line break into the action. *)
Theorem C9_reparse_idempotent :
  forall (model_response out : str) (sw sh : PyFloat.float),
    PyFloat.nonneg_finite sw -> PyFloat.nonneg_finite sh ->
    extract_action_from_response model_response sw sh = Ok (Some out) ->
    (one_line out ->
     extract_action_from_response out PyFloat.one PyFloat.one = Ok (Some out))
    /\ (first_actionable (lines_of model_response) <> None
        \/ tap_search (strip model_response) <> None
        \/ group1 type_re (strip model_response) = None ->
        one_line out).
Proof.
  intros r out sw sh Hsw Hsh H.
  rewrite extract_spec in H.
  destruct (first_actionable (lines_of r)) as [line|] eqn:F.
  - destruct (@first_actionable_line (lines_of r) line
                (split_lines_one_line (strip r)) F) as (Ls & Ll & La).
    unfold line_result in H.
    destruct (tap_search line) as [[gx gy]|] eqn:T.
    + destruct (scaled_tap gx gy sw sh (comment_of line)) as [a|e] eqn:S;
        unfold bind in H; [|discriminate].
      injection H as <-.
      destruct (comment_of_stripped Ll) as [Cs Cl].
      destruct (@scaled_tap_reparse line gx gy (comment_of line) a sw sh
                  Hsw Hsh T Cs Cl S) as [R O].
      split; [intros _; exact R | intros _; exact O].
    + injection H as <-. split; [|intros _; exact Ll].
      intros _. rewrite extract_spec, lines_of_line by assumption.
      unfold line_result. rewrite T. reflexivity.
  - unfold scan_full in H.
    destruct (tap_search (strip r)) as [[gx gy]|] eqn:T.
    + destruct (scaled_tap gx gy sw sh (lit "extracted and scaled")) as [a|e] eqn:S;
        unfold bind in H; [|discriminate].
      injection H as <-.
      assert (Cs : stripped (lit "extracted and scaled")) by reflexivity.
      assert (Cl : one_line (lit "extracted and scaled")).
      { unfold one_line. simpl. intros G.
        repeat (destruct G as [G|G]; [discriminate|]). exact G. }
      destruct (@scaled_tap_reparse (strip r) gx gy _ a sw sh Hsw Hsh T Cs Cl S)
        as [R O].
      split; [intros _; exact R | intros _; exact O].
    + destruct (group1 type_re (strip r)) as [g|] eqn:G.
      * injection H as <-. split.
        -- apply reparse_type with (full := strip r); [|exact G].
           apply tap_search_none. exact T.
        -- intros [N|[N|N]]; [now elim N | now elim N | discriminate].
      * destruct (has_upper "SCROLL" (strip r)).
        -- injection H as <-. split; [intros _; vm_compute; reflexivity|].
           intros _. unfold one_line. simpl. intros K.
           repeat (destruct K as [K|K]; [discriminate|]). exact K.
        -- destruct (has_upper "TASK_COMPLETE" (strip r)); [|discriminate].
           injection H as <-. split; [intros _; vm_compute; reflexivity|].
           intros _. unfold one_line. simpl. intros K.
           repeat (destruct K as [K|K]; [discriminate|]). exact K.
Qed.

(** A reply whose TYPE text runs over two lines: the action built from the
    full text spans two lines, and parsing it again stops at its first
    line. *)
Lemma C9_counterexample :
  extract_action_from_response (lit "# TYPE 'a" ++ [newline] ++ lit "b'")
    PyFloat.one PyFloat.one
  = Ok (Some (lit "TYPE 'a" ++ [newline] ++ lit "b' # extracted action"))
  /\ extract_action_from_response
       (lit "TYPE 'a" ++ [newline] ++ lit "b' # extracted action")
       PyFloat.one PyFloat.one
     = Ok (Some (lit "TYPE 'a"))
  /\ lit "TYPE 'a" <> lit "TYPE 'a" ++ [newline] ++ lit "b' # extracted action".
Proof.
  split; [vm_compute; reflexivity|].
  split; [vm_compute; reflexivity|].
  vm_compute. discriminate.
Qed.

(** A tap in running text, scaled by 2.0 and 1.5, parses to itself. *)
Lemma C9_witness :
  extract_action_from_response (lit "TAP (200,300) # scaled coordinates")
    PyFloat.one PyFloat.one
  = Ok (Some (lit "TAP (200,300) # scaled coordinates")).
Proof.
  refine (proj1
    (@C9_reparse_idempotent (lit "please TAP (100,200)")
       (lit "TAP (200,300) # scaled coordinates")
       (PyFloat.of_scaled 2 0) (PyFloat.of_scaled 3 (-1)) _ _ _) _).
  - vm_compute. reflexivity.
  - vm_compute. reflexivity.
  - vm_compute. reflexivity.
  - unfold one_line. vm_compute. intros K.
    repeat (destruct K as [K|K]; [discriminate|]). exact K.
Defined.

End ReparseClaim.

(** ** The device bridge: text input *)

Section TextInput.
Import AndroidController Notions.

Lemma replace_char_app (old : ascii) (new a b : str) :
  replace_char old new (a ++ b) = replace_char old new a ++ replace_char old new b.
Proof. unfold replace_char. apply flat_map_app. Qed.

Lemma escaped_text_app (a b : str) :
  escaped_text (a ++ b) = escaped_text a ++ escaped_text b.
Proof. unfold escaped_text. now rewrite !replace_char_app. Qed.

Lemma escaped_text_char (c : ascii) : escaped_text [c] = escape_char c.
Proof.
  unfold escaped_text, escape_char, replace_char.
  destruct (Ascii.eqb c " ") eqn:E1.
  { apply Ascii.eqb_eq in E1. subst c. reflexivity. }
  destruct (Ascii.eqb c "&") eqn:E2.
  { apply Ascii.eqb_eq in E2. subst c. reflexivity. }
  destruct (Ascii.eqb c "(") eqn:E3.
  { apply Ascii.eqb_eq in E3. subst c. reflexivity. }
  destruct (Ascii.eqb c ")") eqn:E4.
  { apply Ascii.eqb_eq in E4. subst c. reflexivity. }
  simpl. rewrite E1. simpl. rewrite E2. simpl. rewrite E3. simpl. rewrite E4.
  reflexivity.
Qed.

Lemma escaped_text_pointwise (input_text : str) :
  escaped_text input_text = flat_map escape_char input_text.
Proof.
  induction input_text as [|c s IH]; [reflexivity|].
  change (c :: s) with ([c] ++ s).
  rewrite escaped_text_app, escaped_text_char, IH. reflexivity.
Qed.

Lemma escape_char_plain (c : ascii) :
  Ascii.eqb c " " = false -> protected c = false -> escape_char c = [c].
Proof.
  unfold protected, escape_char. intros -> H.
  apply orb_false_iff in H. destruct H as [H H3].
  apply orb_false_iff in H. destruct H as [H1 H2].
  now rewrite H1, H2, H3.
Qed.

Lemma escape_char_cases (c : ascii) :
  (c = " "%char /\ escape_char c = lit "%s")
  \/ (protected c = true /\ escape_char c = ["\"%char; c])
  \/ (Ascii.eqb c " " = false /\ protected c = false /\ escape_char c = [c]).
Proof.
  destruct (Ascii.eqb c " ") eqn:E1.
  { apply Ascii.eqb_eq in E1. subst c. left. split; reflexivity. }
  right. destruct (protected c) eqn:P.
  - left. split; [reflexivity|]. unfold escape_char. rewrite E1.
    unfold protected in P.
    destruct (Ascii.eqb c "&") eqn:E2.
    { apply Ascii.eqb_eq in E2. subst c. reflexivity. }
    destruct (Ascii.eqb c "(") eqn:E3.
    { apply Ascii.eqb_eq in E3. subst c. reflexivity. }
    destruct (Ascii.eqb c ")") eqn:E4.
    { apply Ascii.eqb_eq in E4. subst c. reflexivity. }
    discriminate.
  - right. split; [reflexivity|]. split; [reflexivity|].
    now apply escape_char_plain.
Qed.





(** X2.  The text sent by [perform_text_input] holds no space, and in it every
    ampersand and every parenthesis stands right after a backslash. *)
Theorem X2_escaped_text_shape :
  forall input_text : str,
    ~ In " "%char (escaped_text input_text)
    /\ (forall a c b,
          escaped_text input_text = a ++ c :: b ->
          protected c = true ->
          exists a', a = a' ++ ["\"%char]).
Proof.
  intros t. rewrite escaped_text_pointwise. split.
  - induction t as [|c s IH]; simpl; [tauto|].
    intros H. apply in_app_or in H. destruct H as [H|H]; [|tauto].
    destruct (escape_char_cases c) as [[_ E]|[[P E]|(S & _ & E)]];
      rewrite E in H.
    + simpl in H. destruct H as [H|[H|[]]]; discriminate.
    + destruct H as [H|[H|[]]]; [discriminate|]. subst c. discriminate.
    + destruct H as [H|[]]. subst c. discriminate.
  - induction t as [|c0 s IH]; intros a c b E P.
    { destruct a; discriminate. }
    simpl in E.
    destruct (escape_char_cases c0) as [[_ E0]|[[P0 E0]|(_ & P0 & E0)]];
      rewrite E0 in E.
    + destruct a as [|x [|y a]]; simpl in E.
      * injection E as <- _. discriminate.
      * injection E as _ <- _. discriminate.
      * injection E as <- <- E. destruct (IH _ _ _ E P) as (a' & ->).
        exists ("%"%char :: "s"%char :: a'). reflexivity.
    + destruct a as [|x [|y a]]; simpl in E.
      * injection E as <- _. discriminate.
      * injection E as <- _ _. exists []. reflexivity.
      * injection E as <- <- E. destruct (IH _ _ _ E P) as (a' & ->).
        exists ("\"%char :: c0 :: a'). reflexivity.
    + destruct a as [|x a]; simpl in E.
      * injection E as <- _. congruence.
      * injection E as <- E. destruct (IH _ _ _ E P) as (a' & ->).
        exists (c0 :: a'). reflexivity.
Qed.

(** X3.  The escaping cannot be undone: a space and the two characters [%s]
    are sent as the same text, wherever they stand. *)
Theorem X3_space_and_percent_s_collide :
  forall before after : str,
    adb_calls (perform_text_input (before ++ lit " " ++ after))
    = adb_calls (perform_text_input (before ++ lit "%s" ++ after)).
Proof.
  intros a b. unfold adb_calls.
  rewrite !escaped_text_app. reflexivity.
Qed.

End TextInput.

(** ** What the coordinator does with an action *)

Section CoordinatorClaims.
Import Re ActionCoordinator AndroidController Notions.





Lemma count_occurrences (x : str) (l : list str) :
  count str_eqb x l = Z.of_nat (occurrences x l).
Proof.
  unfold occurrences. induction l as [|y l IH]; [reflexivity|].
  cbn [count count_occ]. rewrite IH.
  destruct (list_eq_dec ascii_dec y x) as [->|N].
  - rewrite str_eqb_refl. lia.
  - rewrite str_eqb_neq by congruence. lia.
Qed.

(** The test of repetition, on the entries that it looks at. *)
Lemma is_action_repeating_window (history older recent : list str)
      (cleaned_action gx gy : str) :
  tap_search cleaned_action = Some (gx, gy) ->
  history = older ++ recent ->
  List.length recent = 4%nat \/ (older = [] /\ (List.length recent <= 4)%nat) ->
  is_action_repeating history cleaned_action
  = (2 <=? occurrences (coordinate_string gx gy) recent)%nat.
Proof.
  intros T -> W. unfold is_action_repeating. rewrite T.
  assert (L : last_n 4 (older ++ recent) = recent).
  { destruct W as [W|[-> W]]; [now apply last_n_suffix | now apply last_n_short]. }
  rewrite L, count_occurrences. unfold max_action_repetitions.
  destruct (Nat.leb_spec 2 (occurrences (coordinate_string gx gy) recent));
    [apply Z.leb_le | apply Z.leb_gt]; lia.
Qed.

(** What is done with a tap. *)
Lemma execute_tap (history : list str) (action_command gx gy : str) :
  tap_search (primary_action action_command) = Some (gx, gy) ->
  execute_parsed_action history action_command
  = if is_action_repeating history (primary_action action_command)
    then {| history_after := history;
            sent := [perform_scroll_action down];
            returned := Ok false |}
    else if ((List.length gx <=? max_str_digits)
             && (List.length gy <=? max_str_digits))%nat
         then {| history_after := last_n 10 (history ++ [coordinate_string gx gy]);
                 sent := [perform_tap_action (int_of_digits gx) (int_of_digits gy)];
                 returned := Ok false |}
         else {| history_after := last_n 10 (history ++ [coordinate_string gx gy]);
                 sent := [];
                 returned := Raise ValueError |}.
Proof.
  intros T. destruct (tap_search_groups _ T) as [Gx Gy].
  unfold execute_parsed_action. rewrite T.
  destruct (is_action_repeating history (primary_action action_command));
    [reflexivity|].
  destruct (int_of_str_group Gx) as [[Lx Ex]|[Lx Ex]];
    destruct (int_of_str_group Gy) as [[Ly Ey]|[Ly Ey]];
    rewrite Ex, ?Ey; unfold bind;
    repeat match goal with
           | H : (?a <= ?b)%nat |- context [(?a <=? ?b)%nat] =>
               rewrite (proj2 (Nat.leb_le a b) H)
           | H : (?b < ?a)%nat |- context [(?a <=? ?b)%nat] =>
               rewrite (proj2 (Nat.leb_gt a b) H)
           end; cbn [andb]; rewrite ?andb_false_r; reflexivity.
Qed.





(** C2 (amended).  A tap whose identity stands at least twice among the
    last four entries of the history (among all of them when there are at
    most four) is replaced by one scroll down and the history stays as it
    is.  A tap whose identity stands fewer than two times there is
    admitted: its identity is put at the end of the history, of which the
    last ten entries are kept, and then the tap is sent; when a coordinate
    has more than 4300 digits the identity is in the history and the call
    raises [ValueError] with no tap sent.  An action without a tap pattern
    never touches the history, and what it sends and returns does not
    depend on the history. *)
Theorem C2_repetition_guard :
  forall (history : list str) (action_command : str),
    (forall gx gy older recent,
        tap_search (primary_action action_command) = Some (gx, gy) ->
        history = older ++ recent ->
        List.length recent = 4%nat \/ (older = [] /\ (List.length recent <= 4)%nat) ->
        ((2 <= occurrences (coordinate_string gx gy) recent)%nat ->
         execute_parsed_action history action_command
         = {| history_after := history;
              sent := [perform_scroll_action down];
              returned := Ok false |})
        /\ ((occurrences (coordinate_string gx gy) recent < 2)%nat ->
            (exists dropped,
                history ++ [coordinate_string gx gy]
                = dropped ++ history_after (execute_parsed_action history action_command))
            /\ List.length (history_after (execute_parsed_action history action_command))
               = Nat.min 10 (List.length history + 1)
            /\ In (coordinate_string gx gy)
                  (history_after (execute_parsed_action history action_command))
            /\ ((List.length gx <= 4300)%nat /\ (List.length gy <= 4300)%nat ->
                sent (execute_parsed_action history action_command)
                = [perform_tap_action (int_of_digits gx) (int_of_digits gy)]
                /\ returned (execute_parsed_action history action_command) = Ok false)
            /\ ((4300 < List.length gx)%nat \/ (4300 < List.length gy)%nat ->
                sent (execute_parsed_action history action_command) = []
                /\ returned (execute_parsed_action history action_command)
                   = Raise ValueError)))
    /\ (tap_search (primary_action action_command) = None ->
        history_after (execute_parsed_action history action_command) = history
        /\ forall other_history,
             sent (execute_parsed_action other_history action_command)
             = sent (execute_parsed_action history action_command)
             /\ returned (execute_parsed_action other_history action_command)
                = returned (execute_parsed_action history action_command)).
Proof.
  intros history action_command. split.
  - intros gx gy older recent T E W.
    rewrite (@execute_tap history action_command gx gy T).
    rewrite (@is_action_repeating_window history older recent _ gx gy T E W).
    change 4300%nat with max_str_digits.
    split; intros H.
    + rewrite (proj2 (Nat.leb_le _ _) H). reflexivity.
    + rewrite (proj2 (Nat.leb_gt _ _) H).
      assert (K : forall o,
                 history_after o = last_n 10 (history ++ [coordinate_string gx gy]) ->
                 (exists dropped,
                     history ++ [coordinate_string gx gy] = dropped ++ history_after o)
                 /\ List.length (history_after o) = Nat.min 10 (List.length history + 1)
                 /\ In (coordinate_string gx gy) (history_after o)).
      { intros o ->. split; [|split].
        - exists (firstn (List.length (history ++ [coordinate_string gx gy]) - 10)
                         (history ++ [coordinate_string gx gy])).
          unfold last_n. now rewrite firstn_skipn.
        - rewrite last_n_exact_length, length_app. reflexivity.
        - apply (last_n_snoc 9). }
      destruct ((List.length gx <=? max_str_digits)
                && (List.length gy <=? max_str_digits))%nat eqn:B.
      * apply andb_true_iff in B. destruct B as [Bx By].
        apply Nat.leb_le in Bx, By.
        destruct (K {| history_after := last_n 10 (history ++ [coordinate_string gx gy]);
                       sent := [perform_tap_action (int_of_digits gx) (int_of_digits gy)];
                       returned := Ok false |} eq_refl) as (K1 & K2 & K3).
        split; [exact K1|]. split; [exact K2|]. split; [exact K3|].
        split; [intros _; split; reflexivity|].
        intros [L|L]; lia.
      * apply andb_false_iff in B.
        destruct (K {| history_after := last_n 10 (history ++ [coordinate_string gx gy]);
                       sent := [];
                       returned := Raise ValueError |} eq_refl) as (K1 & K2 & K3).
        split; [exact K1|]. split; [exact K2|]. split; [exact K3|].
        split; [|intros _; split; reflexivity].
        intros [Lx Ly]. destruct B as [B|B]; apply Nat.leb_gt in B; lia.
  - intros E. unfold execute_parsed_action. rewrite E.
    split.
    + destruct (group1 type_re _); [destruct (adb_calls _); reflexivity|].
      destruct (has_upper "SCROLL" _); reflexivity.
    + intros other. destruct (group1 type_re _); [destruct (adb_calls _); auto|].
      destruct (has_upper "SCROLL" _); auto.
Qed.

(** C2, as stated, fails: with the history below [TAP(50,50)] occurs twice
    among the last four entries, so a third [TAP (50,50)] is replaced by a
    scroll; the tap [TAP (60,60)] has a distinct identity, and in the same
    history it is replaced too, and not admitted, because its own identity
    also occurs twice there. *)
Lemma C2_counterexample :
  let history :=
    [lit "TAP(50,50)"; lit "TAP(60,60)"; lit "TAP(50,50)"; lit "TAP(60,60)"] in
  is_action_repeating history (lit "TAP (50,50)") = true
  /\ coordinate_string (lit "60") (lit "60") <> coordinate_string (lit "50") (lit "50")
  /\ tap_search (primary_action (lit "TAP (60,60)")) = Some (lit "60", lit "60")
  /\ execute_parsed_action history (lit "TAP (60,60)")
     = {| history_after := history;
          sent := [perform_scroll_action down];
          returned := Ok false |}.
Proof.
  cbv zeta. split; [vm_compute; reflexivity|].
  split; [vm_compute; discriminate|].
  split; vm_compute; reflexivity.
Qed.

(** The guard at work on histories of six and of ten entries.  In the
    first, [TAP(50,50)] stands twice among the last four entries and twice
    before them: the tap [TAP (50,50)] is replaced by a scroll, and the tap
    [TAP (7,7)], which stands twice before the last four and not among
    them, is admitted.  In the second, the admitted tap pushes the oldest
    entry out. *)
Lemma C2_witness :
  let older := [lit "TAP(7,7)"; lit "TAP(7,7)"] in
  let recent := [lit "TAP(50,50)"; lit "TAP(10,10)"; lit "TAP(50,50)"; lit "TAP(9,9)"] in
  let ten := map (fun n => lit "TAP(" ++ str_of_int n ++ lit ",0)")
                 [1; 2; 3; 4; 5; 6; 7; 8; 9; 10] in
  execute_parsed_action (older ++ recent) (lit "TAP (50,50) # again")
  = {| history_after := older ++ recent;
       sent := [perform_scroll_action down];
       returned := Ok false |}
  /\ (sent (execute_parsed_action (older ++ recent) (lit "TAP (7,7)"))
      = [perform_tap_action 7 7]
      /\ returned (execute_parsed_action (older ++ recent) (lit "TAP (7,7)")) = Ok false)
  /\ history_after (execute_parsed_action (older ++ recent) (lit "TAP (7,7)"))
     = older ++ recent ++ [lit "TAP(7,7)"]
  /\ history_after (execute_parsed_action ten (lit "TAP (60,60)"))
     = tl ten ++ [lit "TAP(60,60)"]
  /\ history_after (execute_parsed_action (older ++ recent) (lit "SCROLL down"))
     = older ++ recent.
Proof.
  cbv zeta.
  split.
  { refine (proj1 (proj1 (C2_repetition_guard _ (lit "TAP (50,50) # again"))
                         (lit "50") (lit "50")
                         [lit "TAP(7,7)"; lit "TAP(7,7)"] _ _ eq_refl _) _);
      [vm_compute; reflexivity | left; reflexivity | vm_compute; lia]. }
  split.
  { refine (proj1 (proj2 (proj2 (proj2 (proj2
              (proj1 (C2_repetition_guard _ (lit "TAP (7,7)"))
                     (lit "7") (lit "7")
                     [lit "TAP(7,7)"; lit "TAP(7,7)"] _ _ eq_refl _) _)))) _);
      [vm_compute; reflexivity | left; reflexivity | vm_compute; lia
      | split; vm_compute; lia]. }
  split; [vm_compute; reflexivity|].
  split; [vm_compute; reflexivity|].
  refine (proj1 (proj2 (C2_repetition_guard _ (lit "SCROLL down")) _)).
  vm_compute; reflexivity.
Defined.

End CoordinatorClaims.

Section TapClaim.
Import Re Notions QwenVisionAgent UIElementParser ActionCoordinator AndroidController.

(** The reply that is one well-formed tap. *)
Lemma well_formed_tap (x y : Z) :
  0 <= x -> 0 <= y ->
  decides (lit "TAP (" ++ str_of_int x ++ lit "," ++ str_of_int y ++ lit ")")
          (lit "TAP (" ++ str_of_int x ++ lit "," ++ str_of_int y ++ lit ")")
          (lit "scaled coordinates")
  /\ tap_search (lit "TAP (" ++ str_of_int x ++ lit "," ++ str_of_int y ++ lit ")")
     = Some (str_of_int x, str_of_int y).
Proof.
  intros Hx Hy.
  destruct (str_of_int_nonneg Hx) as (NX & DX & _).
  destruct (str_of_int_nonneg Hy) as (NY & DY & _).
  set (r := lit "TAP (" ++ str_of_int x ++ lit "," ++ str_of_int y ++ lit ")").
  assert (T : tap_search r = Some (str_of_int x, str_of_int y)).
  { pose proof (@tap_re_canonical (str_of_int x) (str_of_int y) [] DX NX DY NY) as H.
    rewrite app_nil_r in H. exact H. }
  assert (S : strip r = r).
  { unfold r.
    replace (lit "TAP (" ++ str_of_int x ++ lit "," ++ str_of_int y ++ lit ")")
      with ("T"%char :: (lit "AP (" ++ str_of_int x ++ lit "," ++ str_of_int y) ++ [")"%char]).
    - apply strip_fixed; reflexivity.
    - repeat (simpl; rewrite <- ?app_assoc). reflexivity. }
  assert (L : one_line r).
  { unfold r, one_line. intros Hin.
    apply in_app_or in Hin. destruct Hin as [Hin|Hin].
    { simpl in Hin. repeat (destruct Hin as [Hin|Hin]; [discriminate|]). exact Hin. }
    apply in_app_or in Hin. destruct Hin as [Hin|Hin].
    { exact (digits_one_line DX Hin). }
    apply in_app_or in Hin. destruct Hin as [Hin|Hin].
    { simpl in Hin. repeat (destruct Hin as [Hin|Hin]; [discriminate|]). exact Hin. }
    apply in_app_or in Hin. destruct Hin as [Hin|Hin].
    { exact (digits_one_line DY Hin). }
    simpl in Hin. repeat (destruct Hin as [Hin|Hin]; [discriminate|]). exact Hin. }
  assert (H : ~ In hash r).
  { unfold r. intros Hin.
    apply in_app_or in Hin. destruct Hin as [Hin|Hin].
    { simpl in Hin. repeat (destruct Hin as [Hin|Hin]; [discriminate|]). exact Hin. }
    apply in_app_or in Hin. destruct Hin as [Hin|Hin].
    { exact (digits_no_hash DX Hin). }
    apply in_app_or in Hin. destruct Hin as [Hin|Hin].
    { simpl in Hin. repeat (destruct Hin as [Hin|Hin]; [discriminate|]). exact Hin. }
    apply in_app_or in Hin. destruct Hin as [Hin|Hin].
    { exact (digits_no_hash DY Hin). }
    simpl in Hin. repeat (destruct Hin as [Hin|Hin]; [discriminate|]). exact Hin. }
  split; [|exact T]. left. split.
  - unfold lines_of. rewrite S, split_one_line by exact L.
    cbn [first_actionable]. rewrite S.
    unfold actionable. rewrite matches_tap, T. reflexivity.
  - unfold comment_of, has.
    destruct (contains Ascii.eqb (lit "#") r) eqn:E; [|reflexivity].
    apply has_char in E. contradiction.
Qed.

(** C1 (amended).  Let the parser find a tap in a reply, in its first
    line that is not skipped and matches a pattern or, when there is no
    such line, in its whole text, with coordinates [x] and [y] written with
    at most 4300 digits each; let the scale factors be finite and not
    negative.  Then the parser returns the tap at the floor of the float
    products [x * sw] and [y * sh], when these are finite; this holds in
    particular for the reply that is the well-formed tap [TAP (x,y)] alone.
    The coordinator reads these very coordinates in the returned text and
    taps there (or scrolls when the tap is a repetition): nothing is scaled
    again. *)
Theorem C1_tap_scaled_once :
  forall (x y : Z) (sw sh px py : PyFloat.float) (X Y : Z),
    0 <= x < 10 ^ 4300 -> 0 <= y < 10 ^ 4300 ->
    PyFloat.nonneg_finite sw -> PyFloat.nonneg_finite sh ->
    PyFloat.int_mul x sw = Ok px -> PyFloat.int_mul y sh = Ok py ->
    PyFloat.floor px = Some X -> PyFloat.floor py = Some Y ->
    (forall model_response text comment gx gy,
        decides model_response text comment ->
        tap_search text = Some (gx, gy) ->
        int_of_digits gx = x -> int_of_digits gy = y ->
        (List.length gx <= 4300)%nat -> (List.length gy <= 4300)%nat ->
        extract_action_from_response model_response sw sh
        = Ok (Some (tap_text X Y comment)))
    /\ extract_action_from_response
         (lit "TAP (" ++ str_of_int x ++ lit "," ++ str_of_int y ++ lit ")") sw sh
       = Ok (Some (tap_text X Y (lit "scaled coordinates")))
    /\ (forall history comment,
          one_line comment ->
          tap_search (primary_action (tap_text X Y comment))
          = Some (str_of_int X, str_of_int Y)
          /\ int_of_digits (str_of_int X) = X
          /\ int_of_digits (str_of_int Y) = Y
          /\ returned (execute_parsed_action history (tap_text X Y comment)) = Ok false
          /\ sent (execute_parsed_action history (tap_text X Y comment))
             = if is_action_repeating history (primary_action (tap_text X Y comment))
               then [perform_scroll_action down]
               else [perform_tap_action X Y]).
Proof.
  change (10 ^ 4300) with (10 ^ Z.of_nat max_str_digits).
  change 4300%nat with max_str_digits.
  intros x y sw sh px py X Y Bx By Hsw Hsh Hpx Hpy HX HY.
  assert (Hx : 0 <= x) by lia. assert (Hy : 0 <= y) by lia.
  destruct (@scale_of_floor x sw px X Hx Hsw Hpx HX) as [SX PX].
  destruct (@scale_of_floor y sh py Y Hy Hsh Hpy HY) as [SY PY].
  pose proof (@scale_below x sw X Hx Hsw SX) as BX.
  pose proof (@scale_below y sh Y Hy Hsh SY) as BY.
  assert (General : forall model_response text comment gx gy,
             decides model_response text comment ->
             tap_search text = Some (gx, gy) ->
             int_of_digits gx = x -> int_of_digits gy = y ->
             (List.length gx <= max_str_digits)%nat ->
             (List.length gy <= max_str_digits)%nat ->
             extract_action_from_response model_response sw sh
             = Ok (Some (tap_text X Y comment))).
  { intros r text comment gx gy D T Ex Ey Lx Ly.
    destruct (tap_search_groups _ T) as [[Dx Nx] [Dy Ny]].
    pose proof (int_of_str_short Dx Nx Lx) as Ix.
    pose proof (int_of_str_short Dy Ny Ly) as Iy.
    rewrite Ex in Ix. rewrite Ey in Iy.
    rewrite extract_spec.
    destruct D as [[F ->] | (F & -> & ->)]; rewrite F.
    - unfold line_result. rewrite T.
      rewrite (@scaled_tap_ok gx gy _ sw sh x y X Y) by assumption.
      reflexivity.
    - unfold scan_full. rewrite T.
      rewrite (@scaled_tap_ok gx gy _ sw sh x y X Y) by assumption.
      reflexivity. }
  split; [exact General|]. split.
  - destruct (@well_formed_tap x y Hx Hy) as [D T].
    destruct (str_of_int_nonneg Hx) as (_ & _ & Vx).
    destruct (str_of_int_nonneg Hy) as (_ & _ & Vy).
    apply (General _ _ _ _ _ D T Vx Vy);
      apply str_of_int_length; (assumption || (unfold max_str_digits; lia)).
  - intros history comment Hc.
    destruct (@primary_tap_text X Y comment PX PY Hc) as [P T].
    destruct (str_of_int_nonneg PX) as (_ & _ & VX).
    destruct (str_of_int_nonneg PY) as (_ & _ & VY).
    rewrite P. split; [exact T|]. split; [exact VX|]. split; [exact VY|].
    rewrite <- P in T.
    rewrite (@execute_tap history (tap_text X Y comment) _ _ T). rewrite <- P.
    destruct (is_action_repeating history _); cbn [returned sent];
      [split; reflexivity|].
    assert (LX : (List.length (str_of_int X) <= max_str_digits)%nat)
      by (apply str_of_int_length; [assumption | unfold max_str_digits; lia]).
    assert (LY : (List.length (str_of_int Y) <= max_str_digits)%nat)
      by (apply str_of_int_length; [assumption | unfold max_str_digits; lia]).
    rewrite (proj2 (Nat.leb_le _ _) LX), (proj2 (Nat.leb_le _ _) LY).
    cbn [andb returned sent]. rewrite VX, VY. split; reflexivity.
Qed.

(** C1, as stated, fails.  The reply below contains the well-formed line
    [TAP (100,200)], and with the scale factors 2.0 and 1.5 the parser
    returns the scroll of the line before it, not a tap.  And with the
    scale factor -1.5 the tap [TAP (1,1)] is put at -1, where the floor of
    the product is -2. *)
Lemma C1_counterexample :
  extract_action_from_response
    (lit "SCROLL down" ++ [newline] ++ lit "TAP (100,200)")
    (PyFloat.of_scaled 2 0) (PyFloat.of_scaled 3 (-1))
  = Ok (Some (lit "SCROLL down"))
  /\ (extract_action_from_response (lit "TAP (1,1)")
        (PyFloat.of_scaled (-3) (-1)) (PyFloat.of_scaled 1 0)
      = Ok (Some (lit "TAP (-1,1) # scaled coordinates"))
      /\ option_map PyFloat.floor
           (match PyFloat.int_mul 1 (PyFloat.of_scaled (-3) (-1)) with
            | Ok p => Some p
            | Raise _ => None
            end)
         = Some (Some (-2))).
Proof.
  split; [vm_compute; reflexivity|].
  split; vm_compute; reflexivity.
Qed.

(** The example of the specification: [TAP (100,200)] with the scale
    factors 2.0 and 1.5. *)
Lemma C1_witness :
  extract_action_from_response (lit "TAP (100,200)")
    (PyFloat.of_scaled 2 0) (PyFloat.of_scaled 3 (-1))
  = Ok (Some (lit "TAP (200,300) # scaled coordinates")).
Proof.
  refine (proj1 (proj2
    (@C1_tap_scaled_once 100 200 (PyFloat.of_scaled 2 0) (PyFloat.of_scaled 3 (-1))
       (PyFloat.of_scaled 200 0) (PyFloat.of_scaled 300 0) 200 300
       _ _ _ _ _ _ _ _)));
    try (vm_compute; reflexivity); try (split; vm_compute; [discriminate | reflexivity]).
Defined.

End TapClaim.

(** ** The device bridge: choice of the device *)

Section Connection.
Import AndroidController.

Lemma split_ws_tokens (s : str) :
  Forall (fun t => t <> [] /\ Forall (fun c => isspace c = false) t) (split_ws s).
Proof.
  induction s as [|c s IH]; simpl; [constructor|].
  destruct (isspace c) eqn:Ec; [exact IH|].
  destruct s as [|d s'].
  - repeat constructor; [discriminate | exact Ec].
  - destruct (isspace d) eqn:Ed.
    + constructor; [|exact IH]. split; [discriminate|]. repeat constructor. exact Ec.
    + destruct (split_ws (d :: s')) as [|t ts].
      * repeat constructor; [discriminate | exact Ec].
      * inversion IH as [|? ? [_ Ht] Hts]; subst.
        constructor; [|exact Hts]. split; [discriminate|].
        constructor; assumption.
Qed.

Lemma split_ws_some (s : str) (c : ascii) :
  In c s -> isspace c = false -> split_ws s <> [].
Proof.
  induction s as [|x s IH]; simpl; [intros []|].
  intros Hin Hc. destruct (isspace x) eqn:Ex.
  - destruct Hin as [->|Hin]; [congruence|]. now apply IH.
  - destruct s as [|d s']; [discriminate|].
    destruct (isspace d); [discriminate|].
    destruct (split_ws (d :: s')); discriminate.
Qed.

Lemma contains_head (c : ascii) (p s : str) :
  contains Ascii.eqb (c :: p) s = true -> In c s.
Proof.
  induction s as [|x s IH]; simpl; [discriminate|].
  intros H. apply orb_true_iff in H. destruct H as [H|H].
  - apply andb_true_iff in H. destruct H as [H _].
    apply Ascii.eqb_eq in H. now left.
  - right. now apply IH.
Qed.

Lemma dropwhile_keeps (A : Type) (p : A -> bool) (c : A) (l : list A) :
  In c l -> p c = false -> In c (dropwhile p l).
Proof.
  intros H Hc. induction l as [|x l IH]; simpl; [contradiction|].
  destruct (p x) eqn:Ex; [|exact H].
  destruct H as [->|H]; [congruence | now apply IH].
Qed.

Lemma strip_keeps (c : ascii) (s : str) :
  In c s -> isspace c = false -> In c (strip s).
Proof.
  intros H Hc. unfold strip, rstrip, lstrip.
  apply in_rev. rewrite rev_involutive.
  apply dropwhile_keeps; [|exact Hc].
  apply -> in_rev. now apply dropwhile_keeps.
Qed.

Lemma device_line_token (line : str) :
  has "device" line = true ->
  truthy (strip line) = true /\ split_ws line <> [].
Proof.
  intros H. apply contains_head in H.
  split; [|now apply (@split_ws_some line "d"%char)].
  apply strip_keeps in H; [|reflexivity].
  destruct (strip line); [contradiction|reflexivity].
Qed.

Lemma available_devices_first (lines : list str) :
  match find (has "device") lines with
  | Some line =>
      exists first rest ids,
        split_ws line = first :: rest
        /\ available_devices lines = Some (first :: ids)
  | None => available_devices lines = Some []
  end.
Proof.
  assert (Total : forall l, exists ids, available_devices l = Some ids).
  { induction l as [|line l [ids IH]]; simpl; [now exists []|].
    destruct (has "device" line) eqn:D.
    - destruct (device_line_token _ D) as [T N]. rewrite T. simpl.
      destruct (split_ws line) as [|first rest]; [contradiction|].
      rewrite IH. now exists (first :: ids).
    - rewrite andb_false_r. now exists ids. }
  induction lines as [|line l IH]; simpl; [reflexivity|].
  destruct (has "device" line) eqn:D.
  - destruct (device_line_token _ D) as [T N]. rewrite T. simpl.
    destruct (split_ws line) as [|first rest]; [contradiction|].
    destruct (Total l) as [ids ->]. now exists first, rest, ids.
  - rewrite andb_false_r. exact IH.
Qed.

(** X4.  [_establish_connection] takes the first line after the header line of
    [adb devices] that holds the word [device], whatever the state shown
    on it, and the device is the first field of that line: a non-empty
    text without white space.  The indexing [line.split()[0]] never fails.
    When no line after the header holds the word, the exception for no
    device is raised. *)
Theorem X4_first_listed_device :
  forall stdout : str,
    match find (has "device") (tl (split "010"%char (strip stdout))) with
    | Some line =>
        exists first rest,
          split_ws line = first :: rest
          /\ establish_connection stdout = connected first
          /\ first <> []
          /\ Forall (fun c => isspace c = false) first
    | None => establish_connection stdout = no_devices_detected
    end.
Proof.
  intros stdout. unfold establish_connection.
  pose proof (available_devices_first (tl (split "010"%char (strip stdout)))) as H.
  destruct (find (has "device") _) as [line|].
  - destruct H as (first & rest & ids & S & ->).
    exists first, rest. split; [exact S|]. split; [reflexivity|].
    pose proof (split_ws_tokens line) as T. rewrite S in T.
    inversion T as [|? ? [N F] _]; subst. split; assumption.
  - now rewrite H.
Qed.

End Connection.

(** ** The target application *)

Section TargetApp.
Import AppUtilities IntelligentMobileAgent.

Lemma lower_char_idempotent (c : ascii) : lower_char (lower_char c) = lower_char c.
Proof. destruct c as [[] [] [] [] [] [] [] []]; vm_compute; reflexivity. Qed.

Lemma lower_idempotent (s : str) : lower (lower s) = lower s.
Proof.
  unfold lower. rewrite map_map. apply map_ext. apply lower_char_idempotent.
Qed.

Lemma dict_get_default (d : list (str * str)) (key default : str) :
  (forall k v, In (k, v) d -> k <> key) -> dict_get d key default = default.
Proof.
  induction d as [|[k v] d IH]; simpl; intros H; [reflexivity|].
  rewrite str_eqb_neq by (apply (H k v); now left).
  apply IH. intros k' v' I. apply (H k' v'). now right.
Qed.

Lemma first_keyword_found (pre : list string) (k : string) (post : list string)
      (text : str) :
  (forall k', In k' pre -> has k' text = false) ->
  has k text = true ->
  first_keyword (pre ++ k :: post) text = k.
Proof.
  induction pre as [|p pre IH]; simpl; intros Hpre Hk.
  - now rewrite Hk.
  - rewrite (Hpre p (or_introl eq_refl)). apply IH; [|exact Hk].
    intros k' Hk'. apply Hpre. now right.
Qed.

Lemma first_keyword_cases (apps : list string) (text : str) :
  (first_keyword apps text = "unknown"%string
   /\ forall k, In k apps -> has k text = false)
  \/ (In (first_keyword apps text) apps
      /\ has (first_keyword apps text) text = true).
Proof.
  induction apps as [|a apps IH]; simpl.
  - left. split; [reflexivity | intros k []].
  - destruct (has a text) eqn:E.
    + right. split; [now left | exact E].
    + destruct IH as [[U N]|[I H]].
      * left. split; [exact U|]. intros k [<-|Hk]; [exact E | now apply N].
      * right. split; [now right | exact H].
Qed.

Lemma unknown_iff_no_keyword (task_instruction : str) :
  extract_app_identifier task_instruction = lit "unknown"
  <-> forall k, In k supported_apps -> has k (lower task_instruction) = false.
Proof.
  unfold extract_app_identifier.
  destruct (first_keyword_cases supported_apps (lower task_instruction))
    as [[U N]|[I H]].
  - rewrite U. split; [intros _; exact N | reflexivity].
  - split.
    + intros E. exfalso.
      remember (first_keyword supported_apps (lower task_instruction)) as w.
      simpl in I.
      repeat (destruct I as [I|I]; [rewrite <- I in E; discriminate|]).
      exact I.
    + intros N. rewrite (N _ I) in H. discriminate.
Qed.

(** X5.  [extract_app_identifier] looks at the instruction in lower case only.
    It answers [unknown] exactly when none of the five application names
    occurs in it, as a word or inside a word; otherwise it answers the
    first name, in the order flipkart, amazon, blinkit, zomato, ola, that
    occurs, wherever the names stand in the instruction. *)
Theorem X5_app_identifier :
  forall task_instruction : str,
    (extract_app_identifier task_instruction = lit "unknown"
     <-> forall k, In k supported_apps -> has k (lower task_instruction) = false)
    /\ (forall pre k post,
          supported_apps = pre ++ k :: post ->
          (forall k', In k' pre -> has k' (lower task_instruction) = false) ->
          has k (lower task_instruction) = true ->
          extract_app_identifier task_instruction = lit k)
    /\ extract_app_identifier (lower task_instruction)
       = extract_app_identifier task_instruction.
Proof.
  intros t. split; [apply unknown_iff_no_keyword|]. split.
  - intros pre k post E Hpre Hk. unfold extract_app_identifier.
    rewrite E. f_equal. now apply first_keyword_found.
  - unfold extract_app_identifier. now rewrite lower_idempotent.
Qed.

(** X6.  Every application that [extract_app_identifier] can name has a package:
    [get_app_package_name] maps the name to it, in whatever letter case the
    name is given.  An identifier that is not one of the five names comes
    back as it was given, so [unknown] stays [unknown]. *)
Theorem X6_package_of_identifier :
  forall task_instruction : str,
    (extract_app_identifier task_instruction <> lit "unknown" ->
     exists k p,
       In (k, p) package_mapping
       /\ extract_app_identifier task_instruction = lit k
       /\ get_app_package_name (extract_app_identifier task_instruction) = lit p)
    /\ (forall app_identifier k p,
          In (k, p) package_mapping ->
          lower app_identifier = lit k ->
          get_app_package_name app_identifier = lit p)
    /\ (forall app_identifier,
          (forall k p, In (k, p) package_mapping -> lower app_identifier <> lit k) ->
          get_app_package_name app_identifier = app_identifier).
Proof.
  intros t. split; [|split].
  - intros NU. unfold extract_app_identifier in *.
    destruct (first_keyword_cases supported_apps (lower t)) as [[U _]|[I _]].
    { rewrite U in NU. now elim NU. }
    remember (first_keyword supported_apps (lower t)) as w.
    simpl in I.
    destruct I as [I|[I|[I|[I|[I|[]]]]]]; rewrite <- I;
      [ exists "flipkart"%string, "com.flipkart.android"%string
      | exists "amazon"%string, "in.amazon.mShop.android.shopping"%string
      | exists "blinkit"%string, "com.grofers.customerapp"%string
      | exists "zomato"%string, "com.application.zomata"%string
      | exists "ola"%string, "com.olacabs.customer"%string ];
      (split; [simpl; tauto | split; reflexivity]).
  - intros id k p I L. unfold get_app_package_name. rewrite L.
    simpl in I.
    destruct I as [I|[I|[I|[I|[I|[]]]]]]; injection I as <- <-; reflexivity.
  - intros id N. unfold get_app_package_name.
    apply dict_get_default. intros k v I E. apply in_map_iff in I.
    destruct I as ([k0 p0] & I0 & I). injection I0 as <- <-.
    apply (N _ _ I). now symmetry.
Qed.

(** X7.  [execute_task_instruction] starts the application only when the
    instruction names one.  When it names none, the answer of
    [launch_application] plays no part in the run.  When it names one and
    the launch fails, the task ends at once: no pass of the loop is made,
    nothing is sent to the device, and the result is the failure text. *)
Theorem X7_launch_gate :
  forall (self : agent) (task_instruction : str) (env : Z -> observation),
    ((forall k, In k supported_apps -> has k (lower task_instruction) = false) ->
     forall launched,
       execute_task_instruction self task_instruction launched env
       = execute_task_instruction self task_instruction true env)
    /\ ((exists k, In k supported_apps /\ has k (lower task_instruction) = true) ->
        execute_task_instruction self task_instruction false env
        = Ok ([], lit "Failed to launch target application")).
Proof.
  intros self t env. split.
  - intros N launched. pose proof (proj2 (unknown_iff_no_keyword t) N) as U.
    unfold execute_task_instruction. rewrite U. reflexivity.
  - intros (k & I & H). unfold execute_task_instruction.
    rewrite str_eqb_neq; [reflexivity|].
    intros U. pose proof (proj1 (unknown_iff_no_keyword t) U) as N.
    rewrite (N k I) in H. discriminate.
Qed.

End TargetApp.

(** ** The step budget of a run *)

Section Budget.
Import TaskExecutionState IntelligentMobileAgent Notions.

Lemma loop_body_limit (o : observation) (a : agent) (p : pass) :
  loop_body o a = Ok p ->
  maximum_allowed_steps (execution_state (after p))
  = maximum_allowed_steps (execution_state a).
Proof.
  intros H. apply loop_body_cases in H.
  destruct H as [[_ ->]|(_ & act & t & s2 & flag & C & _ & ->)]; [reflexivity|].
  cbn [after execution_state].
  destruct (update_task_progress_frame s2 act) as (_ & _ & -> & _).
  apply choose_action_advanced in C. destruct C as (_ & _ & -> & _).
  destruct (screen_hash o); reflexivity.
Qed.

(** Every pass of the loop is made by an agent that is below its limit. *)
Lemma main_loop_passes (fuel : nat) (env : Z -> observation) :
  forall (a : agent) (passes : list pass) (final : str) (i : nat) (p : pass),
    main_loop fuel env a = Ok (passes, final) ->
    nth_error passes i = Some p ->
    exists b,
      step_of b = step_of a + Z.of_nat i
      /\ maximum_allowed_steps (execution_state b)
         = maximum_allowed_steps (execution_state a)
      /\ has_reached_step_limit (execution_state b) = false
      /\ loop_body (env (step_of b + 1)) b = Ok p.
Proof.
  induction fuel as [|fuel IH]; intros a passes final i p; simpl.
  - intros H; inversion H; subst. destruct i; discriminate.
  - destruct (has_reached_step_limit (execution_state a)) eqn:L.
    { intros H; inversion H; subst. destruct i; discriminate. }
    destruct (loop_body _ a) as [q|e] eqn:B; simpl; [|discriminate].
    assert (Here : exists b,
               step_of b = step_of a + Z.of_nat 0
               /\ maximum_allowed_steps (execution_state b)
                  = maximum_allowed_steps (execution_state a)
               /\ has_reached_step_limit (execution_state b) = false
               /\ loop_body (env (step_of b + 1)) b = Ok q).
    { exists a. split; [simpl; lia|]. split; [reflexivity|]. split; assumption. }
    assert (Hone : forall f, Ok ([q], f) = Ok (passes, final) ->
                   nth_error passes i = Some p ->
                   exists b, step_of b = step_of a + Z.of_nat i
                     /\ maximum_allowed_steps (execution_state b)
                        = maximum_allowed_steps (execution_state a)
                     /\ has_reached_step_limit (execution_state b) = false
                     /\ loop_body (env (step_of b + 1)) b = Ok p).
    { intros f H Hi. inversion H; subst.
      destruct i as [|[|i]]; simpl in Hi; try discriminate.
      inversion Hi; subst. exact Here. }
    assert (Hmore : (more <- main_loop fuel env (after q) ;; Ok (q :: fst more, snd more))
                    = Ok (passes, final) ->
                    nth_error passes i = Some p ->
                    exists b, step_of b = step_of a + Z.of_nat i
                      /\ maximum_allowed_steps (execution_state b)
                         = maximum_allowed_steps (execution_state a)
                      /\ has_reached_step_limit (execution_state b) = false
                      /\ loop_body (env (step_of b + 1)) b = Ok p).
    { destruct (main_loop fuel env (after q)) as [[ps f]|e] eqn:M; simpl; [|discriminate].
      intros H Hi. inversion H; subst.
      destruct i as [|i]; simpl in Hi.
      + inversion Hi; subst. exact Here.
      + destruct (IH _ _ _ _ _ M Hi) as (b & Hb & Mb & Lb & Bb).
        exists b. split; [|split; [|split; assumption]].
        * rewrite Hb, (loop_body_step _ _ B). lia.
        * rewrite Mb. apply (loop_body_limit _ _ B). }
    destruct (ended q) as [|[|]|f].
    + exact Hmore.
    + apply Hone.
    + exact Hmore.
    + apply Hone.
Qed.

Lemma execute_passes (self : agent) (task_instruction : str) (launched : bool)
      (env : Z -> observation) (passes : list pass) (text : str) (i : nat) (p : pass) :
  execute_task_instruction self task_instruction launched env = Ok (passes, text) ->
  nth_error passes i = Some p ->
  step_of (after p) = Z.of_nat i + 1
  /\ step_of (after p) <= maximum_allowed_steps (execution_state self)
  /\ maximum_allowed_steps (execution_state (after p))
     = maximum_allowed_steps (execution_state self).
Proof.
  unfold execute_task_instruction.
  destruct (negb (str_eqb _ _) && negb launched).
  { intros H; inversion H; subst. destruct i; discriminate. }
  match goal with
  | |- (run <- main_loop ?f env ?a0 ;; _) = _ -> _ =>
      destruct (main_loop f env a0) as [[ps final]|e] eqn:M; simpl; [|discriminate]
  end.
  intros H Hi. inversion H; subst; clear H.
  destruct (main_loop_passes _ _ _ _ M Hi) as (b & Hb & Mb & Lb & Bb).
  pose proof (loop_body_step _ _ Bb) as S.
  pose proof (loop_body_limit _ _ Bb) as L.
  unfold has_reached_step_limit in Lb. apply Z.leb_gt in Lb.
  unfold step_of in *. simpl in Hb, Mb. rewrite L, Mb.
  split; [lia|]. split; [lia | reflexivity].
Qed.

(** The loop does not depend on the number of passes that it is allowed,
    once this number is at least the number of steps left. *)
Lemma main_loop_fuel (env : Z -> observation) (fuel : nat) :
  forall (more : nat) (a : agent),
    maximum_allowed_steps (execution_state a) - step_of a <= Z.of_nat fuel ->
    (fuel <= more)%nat ->
    main_loop more env a = main_loop fuel env a.
Proof.
  induction fuel as [|fuel IH]; intros more a F L.
  - assert (R : has_reached_step_limit (execution_state a) = true).
    { unfold has_reached_step_limit. apply Z.leb_le. unfold step_of in F. simpl in F. lia. }
    destruct more as [|more]; [reflexivity|]. cbn [main_loop]. now rewrite R.
  - destruct more as [|more]; [lia|]. cbn [main_loop].
    destruct (has_reached_step_limit (execution_state a)); [reflexivity|].
    destruct (loop_body _ a) as [q|e] eqn:B; [|reflexivity].
    unfold bind at 1 3.
    rewrite (IH more (after q)); [reflexivity | | lia].
    rewrite (loop_body_limit _ _ B), (loop_body_step _ _ B). lia.
Qed.

(** Where each pass of a loop ends. *)
Lemma main_loop_each (fuel : nat) (env : Z -> observation) (a : agent)
      (passes : list pass) (final : str) (i : nat) (p : pass) :
  main_loop fuel env a = Ok (passes, final) ->
  nth_error passes i = Some p ->
  step_of (after p) = step_of a + Z.of_nat i + 1
  /\ step_of (after p) <= maximum_allowed_steps (execution_state a)
  /\ maximum_allowed_steps (execution_state (after p))
     = maximum_allowed_steps (execution_state a).
Proof.
  intros H Hi.
  destruct (main_loop_passes _ _ _ _ H Hi) as (b & Hb & Mb & Lb & Bb).
  pose proof (loop_body_step _ _ Bb) as S.
  pose proof (loop_body_limit _ _ Bb) as L.
  unfold has_reached_step_limit in Lb. apply Z.leb_gt in Lb.
  unfold step_of in *. rewrite L, Mb.
  split; [lia|]. split; [lia | reflexivity].
Qed.

(** A loop makes no more passes than there are steps left. *)
Lemma main_loop_count (fuel : nat) (env : Z -> observation) (a : agent)
      (passes : list pass) (final : str) :
  main_loop fuel env a = Ok (passes, final) ->
  Z.of_nat (List.length passes)
  <= Z.max 0 (maximum_allowed_steps (execution_state a) - step_of a).
Proof.
  intros H.
  destruct passes as [|p0 ps] eqn:E; [simpl; lia|]. rewrite <- E in *.
  assert (Hlast : exists p, nth_error passes (List.length passes - 1) = Some p).
  { destruct (nth_error passes (List.length passes - 1)) eqn:N; [eauto|].
    apply nth_error_None in N. subst passes. simpl in N. lia. }
  destruct Hlast as [p Hp].
  destruct (main_loop_each _ _ _ _ H Hp) as (S & B & _).
  assert (0 < List.length passes)%nat by (subst passes; simpl; lia).
  lia.
Qed.

(** X8.  The step counter counts the passes of the loop and never passes
    the limit, however many passes the loop is allowed: the pass of index
    [i] of a loop entered at step [n] ends at step [n + i + 1], which is at
    most [maximum_allowed_steps], a limit that no pass changes.  So the loop
    makes at most [maximum_allowed_steps - n] passes, and none when the
    limit is reached on entry. *)
Theorem X8_step_budget :
  forall (fuel : nat) (env : Z -> observation) (a : agent)
         (passes : list pass) (final : str),
    main_loop fuel env a = Ok (passes, final) ->
    (forall i p,
        nth_error passes i = Some p ->
        step_of (after p) = step_of a + Z.of_nat i + 1
        /\ step_of (after p) <= maximum_allowed_steps (execution_state a)
        /\ maximum_allowed_steps (execution_state (after p))
           = maximum_allowed_steps (execution_state a))
    /\ Z.of_nat (List.length passes)
       <= Z.max 0 (maximum_allowed_steps (execution_state a) - step_of a).
Proof.
  intros fuel env a passes final H. split.
  - intros i p. exact (main_loop_each _ _ _ _ H).
  - exact (main_loop_count _ _ _ H).
Qed.

(** A loop allowed ten passes, with a limit of three steps, makes three. *)
Lemma X8_witness :
  match main_loop 10 (fun _ => blind) (new_agent 3) with
  | Ok (passes, _) =>
      Z.of_nat (List.length passes) <= 3 /\ List.length passes = 3%nat
  | Raise _ => False
  end.
Proof.
  destruct (main_loop 10 (fun _ => blind) (new_agent 3)) as [[passes text]|e] eqn:E;
    [|vm_compute in E; discriminate].
  split; [exact (proj2 (@X8_step_budget _ _ _ _ _ E))|].
  vm_compute in E. inversion E; subst. reflexivity.
Defined.

End Budget.

(** ** How a run ends without a completion text *)

Section Exhaustion.
Import TaskExecutionState IntelligentMobileAgent Notions.

Lemma last_cons (A : Type) (x d : A) (l : list A) : last (x :: l) d = last l x.
Proof.
  revert x d. induction l as [|y l IH]; intros x d; [reflexivity|].
  change (last (x :: y :: l) d) with (last (y :: l) d).
  rewrite IH. symmetry. apply IH.
Qed.

Lemma last_agent_cons (a : agent) (q : pass) (passes : list pass) :
  last_agent a (q :: passes) = last_agent (after q) passes.
Proof. unfold last_agent. simpl map. apply last_cons. Qed.

(** With enough fuel, a loop in which no pass completes the task runs up
    to the limit. *)
Lemma main_loop_exhausts (env : Z -> observation) (fuel : nat) :
  forall (a : agent) (passes : list pass) (final : str),
    main_loop fuel env a = Ok (passes, final) ->
    maximum_allowed_steps (execution_state a) - step_of a <= Z.of_nat fuel ->
    (forall p, In p passes ->
               ended p = continue_after_screen_loop \/ ended p = end_of_body false) ->
    final = []
    /\ Z.of_nat (List.length passes)
       = Z.max 0 (maximum_allowed_steps (execution_state a) - step_of a)
    /\ step_of (last_agent a passes)
       = Z.max (step_of a) (maximum_allowed_steps (execution_state a)).
Proof.
  induction fuel as [|fuel IH]; intros a passes final.
  - simpl. intros H F _. inversion H; subst. unfold last_agent. simpl.
    split; [reflexivity|]. split; lia.
  - cbn [main_loop]. unfold has_reached_step_limit.
    destruct (maximum_allowed_steps (execution_state a)
              <=? current_step_number (execution_state a)) eqn:L.
    { intros H _ _. inversion H; subst. apply Z.leb_le in L.
      unfold last_agent, step_of. simpl.
      split; [reflexivity|]. split; lia. }
    apply Z.leb_gt in L.
    destruct (loop_body _ a) as [q|e] eqn:B; [|discriminate].
    pose proof (loop_body_step _ _ B) as S.
    pose proof (loop_body_limit _ _ B) as M.
    unfold bind at 1.
    assert (Hmore : (more <- main_loop fuel env (after q) ;; Ok (q :: fst more, snd more))
                    = Ok (passes, final) ->
                    maximum_allowed_steps (execution_state a) - step_of a
                    <= Z.of_nat (Datatypes.S fuel) ->
                    (forall p, In p passes ->
                       ended p = continue_after_screen_loop
                       \/ ended p = end_of_body false) ->
                    final = []
                    /\ Z.of_nat (List.length passes)
                       = Z.max 0 (maximum_allowed_steps (execution_state a) - step_of a)
                    /\ step_of (last_agent a passes)
                       = Z.max (step_of a) (maximum_allowed_steps (execution_state a))).
    { destruct (main_loop fuel env (after q)) as [[ps f]|e] eqn:R; simpl; [|discriminate].
      intros H F Q. inversion H; subst; clear H.
      destruct (IH _ _ _ R) as (Hf & Hl & Hs).
      - rewrite M, S. lia.
      - intros p Hp. apply Q. now right.
      - rewrite last_agent_cons, Hs, M, S.
        unfold step_of in *. split; [exact Hf|].
        split; [|lia].
        change (List.length (q :: ps)) with (Datatypes.S (List.length ps)).
        rewrite Nat2Z.inj_succ, Hl, M, S. lia. }
    destruct (ended q) as [|[|]|f] eqn:Eq.
    + exact Hmore.
    + intros H _ Q. inversion H; subst.
      destruct (Q q (or_introl eq_refl)) as [E|E]; congruence.
    + exact Hmore.
    + intros H _ Q. inversion H; subst.
      destruct (Q q (or_introl eq_refl)) as [E|E]; congruence.
Qed.

(** The pass in which the coordinator reports the completion is the last
    one, and it leaves no text. *)
Lemma main_loop_flag (fuel : nat) (env : Z -> observation) :
  forall (a : agent) (passes : list pass) (final : str) (i : nat) (p : pass),
    main_loop fuel env a = Ok (passes, final) ->
    nth_error passes i = Some p ->
    ended p = end_of_body true ->
    final = [] /\ passes = firstn i passes ++ [p].
Proof.
  induction fuel as [|fuel IH]; intros a passes final i p; simpl.
  - intros H; inversion H; subst. destruct i; discriminate.
  - destruct (has_reached_step_limit (execution_state a)).
    { intros H; inversion H; subst. destruct i; discriminate. }
    destruct (loop_body _ a) as [q|e] eqn:B; simpl; [|discriminate].
    assert (Hmore : (more <- main_loop fuel env (after q) ;; Ok (q :: fst more, snd more))
                    = Ok (passes, final) ->
                    ended q <> end_of_body true ->
                    nth_error passes i = Some p ->
                    ended p = end_of_body true ->
                    final = [] /\ passes = firstn i passes ++ [p]).
    { destruct (main_loop fuel env (after q)) as [[ps f]|e] eqn:M; simpl; [|discriminate].
      intros H Hq Hi Hp. inversion H; subst.
      destruct i as [|i]; simpl in Hi.
      + inversion Hi; subst. contradiction.
      + destruct (IH _ _ _ _ _ M Hi Hp) as [-> L]. split; [reflexivity|].
        simpl. f_equal. exact L. }
    destruct (ended q) as [|[|]|f] eqn:Eq.
    + intros H. apply Hmore; [exact H | discriminate].
    + intros H Hi Hp. inversion H; subst.
      destruct i as [|[|i]]; simpl in Hi; try discriminate.
      inversion Hi; subst. split; reflexivity.
    + intros H. apply Hmore; [exact H | discriminate].
    + intros H Hi Hp. inversion H; subst.
      destruct i as [|[|i]]; simpl in Hi; try discriminate.
      inversion Hi; subst. congruence.
Qed.

Lemma last_agent_snoc (a : agent) (passes : list pass) (p : pass) :
  last_agent a (passes ++ [p]) = after p.
Proof. unfold last_agent. rewrite map_app. simpl. apply last_last. Qed.

(** X9.  When no pass completes the task, the loop runs until the step
    limit, whenever it is allowed at least as many passes as there are
    steps left: entered at step [n], it makes [maximum_allowed_steps - n]
    passes (none when the limit is reached on entry), ends at the step of
    the limit and leaves no completion text.  So a task, which enters the
    loop at step 0, makes as many passes as [maximum_allowed_steps] and
    returns the text that counts them. *)
Theorem X9_result_at_the_limit :
  (forall (fuel : nat) (env : Z -> observation) (a : agent)
          (passes : list pass) (final : str),
      main_loop fuel env a = Ok (passes, final) ->
      maximum_allowed_steps (execution_state a) - step_of a <= Z.of_nat fuel ->
      (forall p, In p passes ->
                 ended p = continue_after_screen_loop \/ ended p = end_of_body false) ->
      final = []
      /\ Z.of_nat (List.length passes)
         = Z.max 0 (maximum_allowed_steps (execution_state a) - step_of a)
      /\ step_of (last_agent a passes)
         = Z.max (step_of a) (maximum_allowed_steps (execution_state a)))
  /\ (forall (self : agent) (task_instruction : str) (env : Z -> observation)
             (passes : list pass) (text : str),
        execute_task_instruction self task_instruction true env = Ok (passes, text) ->
        (forall p, In p passes ->
                   ended p = continue_after_screen_loop \/ ended p = end_of_body false) ->
        Z.of_nat (List.length passes)
        = Z.max 0 (maximum_allowed_steps (execution_state self))
        /\ text = lit "Task completed in "
                  ++ str_of_int (Z.max 0 (maximum_allowed_steps (execution_state self)))
                  ++ lit " steps.").
Proof.
  split.
  { intros fuel env a passes final. apply main_loop_exhausts. }
  intros self t env passes text. unfold execute_task_instruction.
  rewrite andb_false_r.
  match goal with
  | |- (run <- main_loop ?f env ?a0 ;; _) = _ -> _ =>
      destruct (main_loop f env a0) as [[ps final]|e] eqn:M; simpl; [|discriminate]
  end.
  intros H Q. inversion H; subst; clear H.
  apply main_loop_exhausts in M; [|unfold step_of; simpl; lia | exact Q].
  destruct M as (-> & L & S). unfold step_of in *. simpl in L, S.
  split; [lia|]. simpl truthy. cbv iota.
  rewrite S. reflexivity.
Qed.

(** A loop entered at step 0 with a limit of three steps and allowed ten
    passes, in which nothing is seen and no action completes the task,
    makes three passes. *)
Lemma X9_witness :
  match main_loop 10 (fun _ => blind) (new_agent 3) with
  | Ok (passes, final) =>
      final = [] /\ Z.of_nat (List.length passes) = 3
      /\ step_of (last_agent (new_agent 3) passes) = 3
  | Raise _ => False
  end.
Proof.
  destruct (main_loop 10 (fun _ => blind) (new_agent 3)) as [[passes final]|e] eqn:E;
    [|vm_compute in E; discriminate].
  apply (proj1 X9_result_at_the_limit _ _ _ _ _ E); [vm_compute; discriminate|].
  vm_compute in E. inversion E; subst.
  intros p [<-|[<-|[<-|[]]]]; right; reflexivity.
Defined.

(** X10.  When the coordinator reports the completion of the task for an action
    that does not hold [TASK_COMPLETE] in capitals, the pass is the last one
    and the result of the task is the text that counts the steps made; no
    completion message is returned. *)
Theorem X10_completion_by_flag :
  forall (self : agent) (task_instruction : str) (launched : bool)
         (env : Z -> observation) (passes : list pass) (text : str)
         (i : nat) (p : pass),
    execute_task_instruction self task_instruction launched env = Ok (passes, text) ->
    nth_error passes i = Some p ->
    ended p = end_of_body true ->
    List.length passes = S i
    /\ text = lit "Task completed in " ++ str_of_int (Z.of_nat i + 1) ++ lit " steps.".
Proof.
  intros self t launched env passes text i p H Hi Hp.
  destruct (execute_passes _ _ _ _ _ H Hi) as (S & _).
  revert H. unfold execute_task_instruction.
  destruct (negb (str_eqb _ _) && negb launched).
  { intros H; inversion H; subst. destruct i; discriminate. }
  match goal with
  | |- (run <- main_loop ?f env ?a0 ;; _) = _ -> _ =>
      destruct (main_loop f env a0) as [[ps final]|e] eqn:M; simpl; [|discriminate]
  end.
  intros H. inversion H; subst; clear H.
  destruct (main_loop_flag _ _ _ _ M Hi Hp) as [-> L].
  assert (Hlen : List.length passes = Datatypes.S i).
  { rewrite L at 1. rewrite length_app, length_firstn. simpl.
    assert (i < List.length passes)%nat
      by (apply nth_error_Some; rewrite Hi; discriminate).
    lia. }
  split; [exact Hlen|]. simpl truthy. cbv iota.
  rewrite L, last_agent_snoc. unfold step_of in S. rewrite S. reflexivity.
Qed.

Lemma X10_witness :
  match execute_task_instruction (new_agent 5) (lit "find watermelons") true
          (fun _ => replying (lit "task_complete: found")) with
  | Ok (passes, text) =>
      List.length passes = 1%nat /\ text = lit "Task completed in 1 steps."
  | Raise _ => False
  end.
Proof.
  destruct (execute_task_instruction (new_agent 5) (lit "find watermelons") true
              (fun _ => replying (lit "task_complete: found")))
    as [[passes text]|e] eqn:E; [|vm_compute in E; discriminate].
  assert (P : exists p, nth_error passes 0 = Some p /\ ended p = end_of_body true).
  { vm_compute in E. inversion E; subst. eexists. split; reflexivity. }
  destruct P as (p & Hp & He).
  exact (@X10_completion_by_flag _ _ _ _ _ _ _ _ E Hp He).
Defined.

End Exhaustion.

(** ** The two histories stay short *)

Section Histories.
Import TaskExecutionState ActionCoordinator IntelligentMobileAgent Notions.

(** A property of the agent kept by every pass holds after every pass of
    the loop. *)
Lemma main_loop_invariant (P : agent -> Prop) (env : Z -> observation) :
  (forall o a p, P a -> loop_body o a = Ok p -> P (after p)) ->
  forall (fuel : nat) (a : agent) (passes : list pass) (final : str),
    P a ->
    main_loop fuel env a = Ok (passes, final) ->
    forall p, In p passes -> P (after p).
Proof.
  intros Step. induction fuel as [|fuel IH]; intros a passes final Pa; simpl.
  - intros H; inversion H; subst. intros p [].
  - destruct (has_reached_step_limit (execution_state a)).
    { intros H; inversion H; subst. intros p []. }
    destruct (loop_body _ a) as [q|e] eqn:B; simpl; [|discriminate].
    pose proof (Step _ _ _ Pa B) as Pq.
    assert (Hone : forall f, Ok ([q], f) = Ok (passes, final) ->
                   forall p, In p passes -> P (after p)).
    { intros f H. inversion H; subst. intros p [<-|[]]. exact Pq. }
    assert (Hmore : (more <- main_loop fuel env (after q) ;; Ok (q :: fst more, snd more))
                    = Ok (passes, final) ->
                    forall p, In p passes -> P (after p)).
    { destruct (main_loop fuel env (after q)) as [[ps f]|e] eqn:M; simpl; [|discriminate].
      intros H. inversion H; subst. intros p [<-|Hp]; [exact Pq|].
      exact (IH _ _ _ Pq M p Hp). }
    destruct (ended q) as [|[|]|f].
    + exact Hmore.
    + apply Hone.
    + exact Hmore.
    + apply Hone.
Qed.

Lemma execute_parsed_action_history (executed_actions_history : list str)
      (action_command : str) :
  (List.length executed_actions_history <= 10)%nat ->
  (List.length (history_after
                  (execute_parsed_action executed_actions_history action_command))
   <= 10)%nat.
Proof.
  intros H. unfold execute_parsed_action.
  destruct (Re.tap_search _) as [[gx gy]|].
  - destruct (is_action_repeating _ _); simpl; [exact H|].
    destruct (x_coord <- int_of_str gx ;; y_coord <- int_of_str gy ;;
              Ok (x_coord, y_coord)) as [[x y]|e]; simpl; apply last_n_length.
  - destruct (Re.group1 _ _) as [input_text|].
    + destruct (AndroidController.adb_calls _); exact H.
    + destruct (has_upper "SCROLL" _); exact H.
Qed.

Lemma loop_body_histories (o : observation) (a : agent) (p : pass) :
  (List.length (screen_hash_history (execution_state a)) <= 5)%nat
  /\ (List.length (executed_actions_history a) <= 10)%nat ->
  loop_body o a = Ok p ->
  (List.length (screen_hash_history (execution_state (after p))) <= 5)%nat
  /\ (List.length (executed_actions_history (after p)) <= 10)%nat.
Proof.
  intros [Hs Ha] H. apply loop_body_cases in H.
  destruct H as [[_ ->]|(_ & act & t & s2 & flag & C & _ & ->)].
  - simpl. split; assumption.
  - cbn [after execution_state executed_actions_history].
    split; [|now apply execute_parsed_action_history].
    destruct (update_task_progress_frame s2 act) as (-> & _).
    apply choose_action_advanced in C. destruct C as (-> & _).
    destruct (screen_hash o); simpl; [apply last_n_length | exact Hs].
Qed.

(** X11.  However long a task runs, the agent remembers at most five screen
    hashes and at most ten tap identities: after every pass both histories
    are within these lengths. *)
Theorem X11_histories_bounded :
  forall (self : agent) (task_instruction : str) (launched : bool)
         (env : Z -> observation) (passes : list pass) (text : str),
    execute_task_instruction self task_instruction launched env = Ok (passes, text) ->
    forall p, In p passes ->
      (List.length (screen_hash_history (execution_state (after p))) <= 5)%nat
      /\ (List.length (executed_actions_history (after p)) <= 10)%nat.
Proof.
  intros self t launched env passes text. unfold execute_task_instruction.
  destruct (negb (str_eqb _ _) && negb launched).
  { intros H; inversion H; subst. intros p []. }
  match goal with
  | |- (run <- main_loop ?f env ?a0 ;; _) = _ -> _ =>
      destruct (main_loop f env a0) as [[ps final]|e] eqn:M; simpl; [|discriminate]
  end.
  intros H. inversion H; subst; clear H.
  refine (@main_loop_invariant
            (fun a => (List.length (screen_hash_history (execution_state a)) <= 5)%nat
                      /\ (List.length (executed_actions_history a) <= 10)%nat)
            env _ _ _ _ _ _ M).
  - intros o a p. apply loop_body_histories.
  - simpl. unfold reset_action_history. simpl. lia.
Qed.

Lemma X11_witness :
  match execute_task_instruction (new_agent 8) (lit "find watermelons") true
          (fun _ => blind) with
  | Ok (passes, _) =>
      Forall (fun p =>
                (List.length (screen_hash_history (execution_state (after p))) <= 5)%nat
                /\ (List.length (executed_actions_history (after p)) <= 10)%nat)
             passes
  | Raise _ => False
  end.
Proof.
  destruct (execute_task_instruction (new_agent 8) (lit "find watermelons") true
              (fun _ => blind)) as [[passes text]|e] eqn:E;
    [|vm_compute in E; discriminate].
  apply Forall_forall. exact (@X11_histories_bounded _ _ _ _ _ _ E).
Defined.

End Histories.

(** ** Matches with their remainder, and all matches of a text *)

Section Spans.
Import Re.

Lemma match_span_sound (r : regex) :
  forall s gs rest, match_span r s = Some (gs, rest) -> Match r s gs rest.
Proof.
  induction r as [|a r IH]; intros s gs rest; simpl.
  - intros H; inversion H; subst. constructor.
  - destruct a as [c|p|p|p|p].
    + destruct s as [|x s]; [discriminate|].
      destruct (Ascii.eqb x c) eqn:E; [|discriminate].
      apply Ascii.eqb_eq in E. subst. intros H. constructor. now apply IH.
    + destruct s as [|x s]; [discriminate|].
      destruct (p x) eqn:E; [|discriminate]. intros H.
      constructor; [assumption | now apply IH].
    + intros H. apply greedy_sound in H.
      destruct H as (run & s' & -> & Hrun & H). simpl in H.
      constructor; [assumption | now apply IH].
    + destruct s as [|x s]; [discriminate|].
      destruct (p x) eqn:E; [|discriminate]. intros H.
      apply greedy_sound in H.
      destruct H as (run & s' & -> & Hrun & H). simpl in H.
      change (x :: run ++ s') with ((x :: run) ++ s').
      constructor; [now constructor | discriminate | now apply IH].
    + destruct s as [|x s]; [discriminate|].
      destruct (p x) eqn:E; [|discriminate]. intros H.
      apply greedy_sound in H.
      destruct H as (run & s' & -> & Hrun & H). simpl in H.
      destruct (match_span r s') as [[gs0 rest0]|] eqn:E0; [|discriminate].
      inversion H; subst.
      change (x :: run ++ s') with ((x :: run) ++ s').
      constructor; [now constructor | discriminate | now apply IH].
Qed.








(** Every entry of the result comes from a match somewhere in the text. *)
Lemma findall_matches (r : regex) (s : str) :
  forall k gs,
    In gs (findall_from r k s) ->
    exists a b rest, s = a ++ b /\ match_span r b = Some (gs, rest).
Proof.
  induction s as [|x s IH]; intros k gs.
  - destruct k; simpl; [|intros []].
    destruct (match_span r []) as [[g rest]|] eqn:E; [|intros []].
    intros [<-|[]]. now exists [], [], rest.
  - assert (Tail : forall k', In gs (findall_from r k' s) ->
                   exists a b rest, x :: s = a ++ b /\ match_span r b = Some (gs, rest)).
    { intros k' H. destruct (IH _ _ H) as (a & b & rest & -> & M).
      now exists (x :: a), b, rest. }
    destruct k as [|k]; cbn [findall_from]; [|apply Tail].
    destruct (match_span r (x :: s)) as [[g rest]|] eqn:E; [|apply Tail].
    intros [<-|H]; [|eapply Tail; exact H].
    now exists [], (x :: s), rest.
Qed.

Lemma bounds_match_shape (s : str) (gs : list str) (rest : str) :
  Match bounds_re s gs rest ->
  exists x y,
    gs = [x; y]
    /\ Forall (fun c => isdigit c = true) x
    /\ Forall (fun c => isdigit c = true) y.
Proof.
  unfold bounds_re. intros M.
  repeat match goal with
         | H : Match (Chr _ :: _) _ _ _ |- _ => inversion H; subst; clear H
         | H : Match (Group _ :: _) _ _ _ |- _ => inversion H; subst; clear H
         | H : Match [] _ _ _ |- _ => inversion H; subst; clear H
         end.
  eauto.
Qed.

Lemma findall_bounds_digits (s : str) (gs : list str) :
  In gs (findall bounds_re s) ->
  exists x y,
    gs = [x; y]
    /\ Forall (fun c => isdigit c = true) x
    /\ Forall (fun c => isdigit c = true) y.
Proof.
  intros H. apply findall_matches in H.
  destruct H as (a & b & rest & _ & M).
  apply match_span_sound in M. eapply bounds_match_shape; eassumption.
Qed.



End Spans.

(** ** The elements of the UI hierarchy *)

Section Hierarchy.
Import Re UIElementParser Notions.

Lemma xml_node_induction (P : xml_node -> Prop) :
  (forall node_attributes children,
      Forall P children -> P (Element node_attributes children)) ->
  forall node, P node.
Proof.
  intros H. fix IH 1. intros [a cs]. apply H.
  induction cs as [|c cs IHcs]; constructor; [apply IH | exact IHcs].
Qed.

Lemma extract_forall (Q : element -> Prop) :
  (forall node_attributes e, node_element node_attributes = Some e -> Q e) ->
  forall node, Forall Q (extract_element_data node).
Proof.
  intros H. apply xml_node_induction. intros a cs IH.
  cbn [extract_element_data]. apply Forall_app. split.
  - destruct (node_element a) as [e|] eqn:E; [|constructor].
    constructor; [|constructor]. now apply (H a).
  - induction IH as [|c cs Hc Hcs IH]; simpl; [constructor|].
    apply Forall_app. split; assumption.
Qed.

(** What is known of the element that a node gives. *)
Lemma node_element_some (node_attributes : list (str * str)) (e : element) :
  node_element node_attributes = Some e ->
  exists x1 y1 x2 y2,
    findall bounds_re (text_attribute node_attributes "bounds")
    = [[x1; y1]; [x2; y2]]
    /\ informative node_attributes = true
    /\ 0 < center_x e /\ 0 < center_y e
    /\ e = {| center_x := (int_of_digits x1 + int_of_digits x2) / 2;
              center_y := (int_of_digits y1 + int_of_digits y2) / 2;
              display_text := strip (text_attribute node_attributes "text");
              content_description :=
                strip (text_attribute node_attributes "content-desc");
              resource_id := strip (text_attribute node_attributes "resource-id");
              element_class := strip (text_attribute node_attributes "class");
              is_clickable := flag_attribute node_attributes "clickable";
              is_scrollable := flag_attribute node_attributes "scrollable";
              bounds_string := text_attribute node_attributes "bounds";
              element_width := int_of_digits x2 - int_of_digits x1;
              element_height := int_of_digits y2 - int_of_digits y1 |}.
Proof.
  unfold node_element, informative, text_attribute, flag_attribute.
  destruct (truthy (dict_get node_attributes (lit "bounds") [])); [|discriminate].
  destruct (findall bounds_re (dict_get node_attributes (lit "bounds") []))
    as [|[|x1 [|y1 [|? ?]]] [|[|x2 [|y2 [|? ?]]] [|? ?]]] eqn:F; try discriminate.
  assert (D1 : In [x1; y1] (findall bounds_re (dict_get node_attributes (lit "bounds") [])))
    by (rewrite F; now left).
  assert (D2 : In [x2; y2] (findall bounds_re (dict_get node_attributes (lit "bounds") [])))
    by (rewrite F; right; now left).
  apply findall_bounds_digits in D1, D2.
  destruct D1 as (? & ? & E1 & Dx1 & Dy1). injection E1 as <- <-.
  destruct D2 as (? & ? & E2 & Dx2 & Dy2). injection E2 as <- <-.
  destruct (int_of_str x1) as [v1|] eqn:I1; unfold bind at 1; [|discriminate].
  destruct (int_of_str y1) as [w1|] eqn:J1; unfold bind at 1; [|discriminate].
  destruct (int_of_str x2) as [v2|] eqn:I2; unfold bind at 1; [|discriminate].
  destruct (int_of_str y2) as [w2|] eqn:J2; unfold bind at 1; [|discriminate].
  destruct (int_of_str_ok Dx1 I1) as (-> & _).
  destruct (int_of_str_ok Dy1 J1) as (-> & _).
  destruct (int_of_str_ok Dx2 I2) as (-> & _).
  destruct (int_of_str_ok Dy2 J2) as (-> & _).
  match goal with
  | |- (if ?c && ?cx && ?cy then _ else _) = _ -> _ =>
      destruct c; [|discriminate];
      destruct cx eqn:Cx; [|discriminate];
      destruct cy eqn:Cy; [|discriminate]
  end.
  cbn [andb]. intros H. injection H as <-.
  apply Z.ltb_lt in Cx, Cy.
  exists x1, y1, x2, y2. repeat split; assumption.
Qed.

(** X12.  Every element that [parse_ui_hierarchy] returns has a centre with two
    positive coordinates, can be clicked or scrolled or shows a text or a
    description, and carries its four texts stripped.  Its centre, width
    and height come from two corners with non-negative coordinates: the
    centre is their midpoint rounded down, the width and the height are
    their differences. *)
Theorem X12_parsed_elements :
  forall xml_tree : option xml_node,
    Forall (fun e =>
              0 < center_x e /\ 0 < center_y e
              /\ (is_clickable e = true \/ is_scrollable e = true
                  \/ display_text e <> [] \/ content_description e <> [])
              /\ stripped (display_text e) /\ stripped (content_description e)
              /\ stripped (resource_id e) /\ stripped (element_class e)
              /\ exists x1 y1 x2 y2,
                   0 <= x1 /\ 0 <= y1 /\ 0 <= x2 /\ 0 <= y2
                   /\ center_x e = (x1 + x2) / 2 /\ center_y e = (y1 + y2) / 2
                   /\ element_width e = x2 - x1 /\ element_height e = y2 - y1)
           (parse_ui_hierarchy xml_tree).
Proof.
  intros [root|]; [|constructor]. simpl. apply extract_forall.
  intros a e H. apply node_element_some in H.
  destruct H as (x1 & y1 & x2 & y2 & F & I & Cx & Cy & ->).
  cbn [center_x center_y display_text content_description resource_id element_class
       is_clickable is_scrollable element_width element_height] in *.
  split; [exact Cx|]. split; [exact Cy|]. split.
  { unfold informative in I.
    destruct (flag_attribute a "clickable"); [now left|].
    destruct (flag_attribute a "scrollable"); [now right; left|].
    destruct (strip (text_attribute a "text")); [|right; right; left; discriminate].
    destruct (strip (text_attribute a "content-desc")); [discriminate|].
    right; right; right; discriminate. }
  repeat (split; [apply strip_idempotent|]).
  assert (D1 : In [x1; y1] (findall bounds_re (text_attribute a "bounds")))
    by (rewrite F; now left).
  assert (D2 : In [x2; y2] (findall bounds_re (text_attribute a "bounds")))
    by (rewrite F; right; now left).
  apply findall_bounds_digits in D1, D2.
  destruct D1 as (? & ? & E1 & Dx1 & Dy1). injection E1 as <- <-.
  destruct D2 as (? & ? & E2 & Dx2 & Dy2). injection E2 as <- <-.
  exists (int_of_digits x1), (int_of_digits y1), (int_of_digits x2), (int_of_digits y2).
  repeat split; try reflexivity; now apply int_of_digits_nonneg.
Qed.

End Hierarchy.

Section Bounds.
Import Re UIElementParser Notions.





End Bounds.

(** ** The fallback on the UI elements *)

Section UiFallback.
Import UIElementParser Notions.

Lemma get_clickable_In (element_list : list element) (e : element) :
  In e (get_clickable_elements element_list)
  <-> In e element_list /\ is_clickable e = true /\ 100 < element_width e.
Proof.
  unfold get_clickable_elements. rewrite filter_In, andb_true_iff, Z.ltb_lt.
  tauto.
Qed.

Lemma generate_fallback_action_spec (element_list : list element) (step_number : Z) :
  match get_clickable_elements element_list with
  | [] => generate_fallback_action element_list step_number = None
  | _ :: _ =>
      exists e,
        nth_error (get_clickable_elements element_list)
          (Z.to_nat (step_number
                     mod Z.of_nat (List.length (get_clickable_elements element_list))))
        = Some e
        /\ generate_fallback_action element_list step_number
           = Some (tap_text (center_x e) (center_y e)
                     (firstn 30 (str_or (display_text e)
                                   (str_or (content_description e)
                                      (lit "interactive element")))))
  end.
Proof.
  unfold generate_fallback_action.
  destruct element_list as [|e0 l]; [reflexivity|].
  destruct (get_clickable_elements (e0 :: l)) as [|c cs] eqn:C; [reflexivity|].
  set (n := Z.to_nat (step_number mod Z.of_nat (List.length (c :: cs)))).
  assert (Hn : (n < List.length (c :: cs))%nat).
  { subst n. pose proof (Z.mod_pos_bound step_number (Z.of_nat (List.length (c :: cs)))).
    simpl List.length in *. lia. }
  exists (nth n (c :: cs) c). split; [|reflexivity].
  now apply nth_error_nth'.
Qed.

(** X15.  [generate_fallback_action] gives nothing exactly when no element is
    clickable and wider than 100, an empty list included.  Otherwise it
    taps the centre of one of these elements: the one at the step number
    modulo their count, so that consecutive steps go round them in the order
    of the list, also for a negative step number.  The comment of the tap is
    the text of the element, or else its description, or else a fixed text,
    cut to 30 characters. *)
Theorem X15_ui_fallback_choice :
  forall (element_list : list element) (step_number : Z),
    (generate_fallback_action element_list step_number = None
     <-> get_clickable_elements element_list = [])
    /\ (forall action,
          generate_fallback_action element_list step_number = Some action ->
          exists e,
            nth_error (get_clickable_elements element_list)
              (Z.to_nat (step_number
                         mod Z.of_nat (List.length (get_clickable_elements element_list))))
            = Some e
            /\ In e element_list /\ is_clickable e = true /\ 100 < element_width e
            /\ action
               = tap_text (center_x e) (center_y e)
                   (firstn 30 (str_or (display_text e)
                                 (str_or (content_description e)
                                    (lit "interactive element"))))
            /\ (List.length
                  (firstn 30 (str_or (display_text e)
                                (str_or (content_description e)
                                   (lit "interactive element")))) <= 30)%nat)
    /\ generate_fallback_action element_list
         (step_number + Z.of_nat (List.length (get_clickable_elements element_list)))
       = generate_fallback_action element_list step_number.
Proof.
  intros l step. pose proof (generate_fallback_action_spec l step) as S.
  split; [|split].
  - destruct (get_clickable_elements l) as [|c cs].
    + rewrite S. tauto.
    + destruct S as (e & _ & ->). split; discriminate.
  - intros action H.
    destruct (get_clickable_elements l) as [|c cs] eqn:C; [congruence|].
    destruct S as (e & N & G). exists e. split; [exact N|].
    assert (I : In e (get_clickable_elements l))
      by (rewrite C; eapply nth_error_In; exact N).
    apply get_clickable_In in I. destruct I as (I1 & I2 & I3).
    repeat (split; [assumption|]). split; [congruence|].
    apply firstn_le_length.
  - pose proof (generate_fallback_action_spec l
                  (step + Z.of_nat (List.length (get_clickable_elements l)))) as S'.
    destruct (get_clickable_elements l) as [|c cs]; [congruence|].
    destruct S as (e & N & ->). destruct S' as (e' & N' & ->).
    replace ((step + Z.of_nat (List.length (c :: cs)))
             mod Z.of_nat (List.length (c :: cs)))
      with (step mod Z.of_nat (List.length (c :: cs))) in N'.
    + congruence.
    + rewrite <- (Z.mul_1_l (Z.of_nat (List.length (c :: cs)))) at 2.
      rewrite Z.mod_add; [reflexivity|]. simpl List.length. lia.
Qed.

End UiFallback.

(** ** From the UI elements to the device *)

Section UiTap.
Import Re AndroidController ActionCoordinator UIElementParser IntelligentMobileAgent Notions.
Import QwenVisionAgent.

Lemma split_app_line (a t : str) :
  one_line a ->
  exists l ls, split newline t = l :: ls /\ split newline (a ++ t) = (a ++ l) :: ls.
Proof.
  unfold one_line. induction a as [|c a IH]; intros H.
  - destruct (split_cons newline t) as (l & ls & E). now exists l, ls.
  - destruct IH as (l & ls & E1 & E2); [intros Hin; apply H; now right|].
    exists l, ls. split; [exact E1|]. simpl.
    destruct (Ascii.eqb c newline) eqn:E.
    + apply Ascii.eqb_eq in E. exfalso. apply H. now left.
    + now rewrite E2.
Qed.

Lemma tap_head_strip (X Y : Z) (tail : str) :
  strip (lit "TAP (" ++ str_of_int X ++ lit "," ++ str_of_int Y ++ lit ")" ++ tail)
  = lit "TAP (" ++ str_of_int X ++ lit "," ++ str_of_int Y ++ lit ")" ++ rstrip tail.
Proof.
  unfold strip.
  change (lit "TAP (" ++ ?t) with ("T"%char :: (lit "AP (" ++ t)).
  rewrite lstrip_head by reflexivity.
  replace ("T"%char :: lit "AP (" ++ str_of_int X ++ lit "," ++ str_of_int Y
             ++ lit ")" ++ tail)
    with (("T"%char :: lit "AP (" ++ str_of_int X ++ lit "," ++ str_of_int Y)
            ++ ")"%char :: tail)
    by (repeat (simpl; rewrite <- ?app_assoc); reflexivity).
  rewrite rstrip_app by reflexivity.
  repeat (simpl; rewrite <- ?app_assoc). reflexivity.
Qed.

Lemma tap_head_one_line (X Y : Z) :
  0 <= X -> 0 <= Y ->
  one_line (lit "TAP (" ++ str_of_int X ++ lit "," ++ str_of_int Y ++ lit ")").
Proof.
  intros HX HY.
  destruct (str_of_int_nonneg HX) as (_ & DX & _).
  destruct (str_of_int_nonneg HY) as (_ & DY & _).
  unfold one_line. intros Hin.
  repeat (apply in_app_or in Hin; destruct Hin as [Hin|Hin]);
    try (simpl in Hin; repeat (destruct Hin as [Hin|Hin]; [discriminate|]); exact Hin).
  - exact (digits_one_line DX Hin).
  - exact (digits_one_line DY Hin).
Qed.

(** A text that begins with a tap is executed as this tap, whatever
    follows the closing parenthesis. *)
Lemma tap_head_primary (X Y : Z) (tail : str) :
  0 <= X -> 0 <= Y ->
  tap_search
    (primary_action
       (lit "TAP (" ++ str_of_int X ++ lit "," ++ str_of_int Y ++ lit ")" ++ tail))
  = Some (str_of_int X, str_of_int Y).
Proof.
  intros HX HY.
  destruct (str_of_int_nonneg HX) as (NX & DX & _).
  destruct (str_of_int_nonneg HY) as (NY & DY & _).
  unfold primary_action. rewrite tap_head_strip.
  replace (lit "TAP (" ++ str_of_int X ++ lit "," ++ str_of_int Y ++ lit ")"
             ++ rstrip tail)
    with ((lit "TAP (" ++ str_of_int X ++ lit "," ++ str_of_int Y ++ lit ")")
            ++ rstrip tail)
    by (repeat (simpl; rewrite <- ?app_assoc); reflexivity).
  destruct (@split_app_line
              (lit "TAP (" ++ str_of_int X ++ lit "," ++ str_of_int Y ++ lit ")")
              (rstrip tail) (tap_head_one_line HX HY)) as (l & ls & _ & ->).
  cbn [first_action_line].
  replace ((lit "TAP (" ++ str_of_int X ++ lit "," ++ str_of_int Y ++ lit ")") ++ l)
    with (lit "TAP (" ++ str_of_int X ++ lit "," ++ str_of_int Y ++ lit ")" ++ l)
    by (repeat (simpl; rewrite <- ?app_assoc); reflexivity).
  rewrite tap_head_strip.
  assert (T : tap_search
                (lit "TAP (" ++ str_of_int X ++ lit "," ++ str_of_int Y ++ lit ")"
                   ++ rstrip l)
              = Some (str_of_int X, str_of_int Y))
    by now apply tap_re_canonical.
  unfold is_action_line. rewrite matches_tap_plain, T. cbn [orb]. exact T.
Qed.

Lemma tap_head_executes (history : list str) (X Y : Z) (tail : str) :
  0 <= X < 10 ^ Z.of_nat max_str_digits -> 0 <= Y < 10 ^ Z.of_nat max_str_digits ->
  execute_parsed_action history
    (lit "TAP (" ++ str_of_int X ++ lit "," ++ str_of_int Y ++ lit ")" ++ tail)
  = if max_action_repetitions
       <=? count str_eqb (coordinate_string (str_of_int X) (str_of_int Y))
             (last_n 4 history)
    then {| history_after := history;
            sent := [perform_scroll_action down];
            returned := Ok false |}
    else {| history_after :=
              last_n 10 (history ++ [coordinate_string (str_of_int X) (str_of_int Y)]);
            sent := [perform_tap_action X Y];
            returned := Ok false |}.
Proof.
  intros BX BY.
  assert (HX : 0 <= X) by lia. assert (HY : 0 <= Y) by lia.
  pose proof (@tap_head_primary X Y tail HX HY) as T.
  unfold execute_parsed_action, is_action_repeating. rewrite T.
  rewrite !int_of_str_of_int by assumption.
  reflexivity.
Qed.

(** The centre of an element lies between its corners, which [int] could
    read. *)
Lemma node_element_below (node_attributes : list (str * str)) (e : element) :
  node_element node_attributes = Some e ->
  0 < center_x e < 10 ^ Z.of_nat max_str_digits
  /\ 0 < center_y e < 10 ^ Z.of_nat max_str_digits.
Proof.
  intros H. pose proof H as N. apply node_element_some in N.
  destruct N as (x1 & y1 & x2 & y2 & F & _ & Cx & Cy & E).
  revert H. unfold node_element.
  change (dict_get node_attributes (lit "bounds") [])
    with (text_attribute node_attributes "bounds").
  rewrite F.
  assert (D1 : In [x1; y1] (findall bounds_re (text_attribute node_attributes "bounds")))
    by (rewrite F; now left).
  assert (D2 : In [x2; y2] (findall bounds_re (text_attribute node_attributes "bounds")))
    by (rewrite F; right; now left).
  apply findall_bounds_digits in D1, D2.
  destruct D1 as (? & ? & E1 & Dx1 & Dy1). injection E1 as <- <-.
  destruct D2 as (? & ? & E2 & Dx2 & Dy2). injection E2 as <- <-.
  destruct (truthy _); [|discriminate].
  destruct (int_of_str x1) as [v1|] eqn:I1; unfold bind at 1; [|discriminate].
  destruct (int_of_str y1) as [w1|] eqn:J1; unfold bind at 1; [|discriminate].
  destruct (int_of_str x2) as [v2|] eqn:I2; unfold bind at 1; [|discriminate].
  destruct (int_of_str y2) as [w2|] eqn:J2; unfold bind at 1; [|discriminate].
  intros _.
  assert (G : forall d v, Forall (fun c => isdigit c = true) d -> int_of_str d = Ok v ->
                          0 <= int_of_digits d < 10 ^ Z.of_nat max_str_digits).
  { intros d v D I. destruct (int_of_str_ok D I) as (_ & _ & L).
    pose proof (int_of_digits_bound D) as B.
    assert (10 ^ Z.of_nat (List.length d) <= 10 ^ Z.of_nat max_str_digits)
      by (apply Z.pow_le_mono_r; lia).
    lia. }
  pose proof (G _ _ Dx1 I1). pose proof (G _ _ Dy1 J1).
  pose proof (G _ _ Dx2 I2). pose proof (G _ _ Dy2 J2).
  rewrite E in *. cbn [center_x center_y] in *.
  split; (split; [assumption|]); apply Z.div_lt_upper_bound; lia.
Qed.

Lemma parsed_centre_positive (xml_tree : option xml_node) (e : element) :
  In e (parse_ui_hierarchy xml_tree) ->
  0 < center_x e < 10 ^ Z.of_nat max_str_digits
  /\ 0 < center_y e < 10 ^ Z.of_nat max_str_digits.
Proof.
  destruct xml_tree as [root|]; [|intros []]. simpl.
  pose proof (@extract_forall
                (fun e => 0 < center_x e < 10 ^ Z.of_nat max_str_digits
                          /\ 0 < center_y e < 10 ^ Z.of_nat max_str_digits)) as F.
  intros H. refine (proj1 (Forall_forall _ _) (F _ root) e H).
  intros a e0 N. exact (@node_element_below a e0 N).
Qed.

Lemma identify_search_elements_In (element_list : list element) (c : candidate) :
  In c (identify_search_elements element_list) -> In (elem c) element_list.
Proof.
  unfold identify_search_elements. intros H.
  assert (H' : In c (sort_desc (collect element_list))).
  { rewrite <- (firstn_skipn 5 (sort_desc (collect element_list))).
    apply in_or_app. now left. }
  clear H. rename H' into H.
  apply (Permutation_in _ (sort_desc_perm (collect element_list))) in H.
  apply collect_In in H. tauto.
Qed.

(** X16.  An action that the UI tier builds from the parsed hierarchy is a tap
    on the centre of one of the parsed elements, and the coordinator
    executes it as such: the device gets [input tap] with the two centre
    coordinates in decimal, and the identity of the tap enters the history;
    or, when this identity already stands twice among the last four of the
    history, the device gets the swipe of a scroll down and the history is
    kept.  This holds whatever text the element carries, line breaks
    included; the coordinator never reports completion for such an
    action. *)
Theorem X16_ui_action_taps_centre :
  forall (xml_tree : option xml_node) (s s' : TaskExecutionState.t)
         (action : str) (history : list str),
    secondary (parse_ui_hierarchy xml_tree) s = (Some action, s') ->
    exists e,
      In e (parse_ui_hierarchy xml_tree)
      /\ 0 < center_x e /\ 0 < center_y e
      /\ returned (execute_parsed_action history action) = Ok false
      /\ ((is_action_repeating history (primary_action action) = false
           /\ history_after (execute_parsed_action history action)
              = last_n 10 (history ++ [coordinate_string (str_of_int (center_x e))
                                         (str_of_int (center_y e))])
           /\ adb_log (sent (execute_parsed_action history action))
              = Ok [[lit "shell"; lit "input"; lit "tap";
                     str_of_int (center_x e); str_of_int (center_y e)]])
          \/ (is_action_repeating history (primary_action action) = true
              /\ history_after (execute_parsed_action history action) = history
              /\ adb_log (sent (execute_parsed_action history action))
                 = Ok [map lit ["shell"; "input"; "swipe"; "500"; "1000"; "500"; "300"]%string])).
Proof.
  intros tree s s' action history H.
  assert (E : exists e tail,
             In e (parse_ui_hierarchy tree)
             /\ action = lit "TAP (" ++ str_of_int (center_x e) ++ lit ","
                           ++ str_of_int (center_y e) ++ lit ")" ++ tail).
  { unfold secondary in H.
    destruct (negb (TaskExecutionState.search_initiated s)).
    - destruct (identify_search_elements (parse_ui_hierarchy tree))
        as [|best rest] eqn:I.
      + injection H as H _.
        pose proof (generate_fallback_action_spec (parse_ui_hierarchy tree)
                      (TaskExecutionState.current_step_number s)) as G.
        destruct (get_clickable_elements (parse_ui_hierarchy tree)) as [|c cs] eqn:C;
          [congruence|].
        destruct G as (e & N & G). rewrite G in H. injection H as <-.
        exists e, (lit " # " ++ firstn 30 (str_or (display_text e)
                                        (str_or (content_description e)
                                           (lit "interactive element")))).
        split; [|apply tap_text_shape].
        assert (In e (get_clickable_elements (parse_ui_hierarchy tree)))
          by (rewrite C; eapply nth_error_In; exact N).
        apply get_clickable_In in H. tauto.
      + injection H as <- _.
        exists (elem best),
               (lit " # Search: " ++ str_or (display_text (elem best))
                                      (content_description (elem best))).
        split.
        * apply identify_search_elements_In. rewrite I. now left.
        * unfold search_tap_text.
          repeat (simpl; rewrite <- ?app_assoc). reflexivity.
    - injection H as H _.
      pose proof (generate_fallback_action_spec (parse_ui_hierarchy tree)
                    (TaskExecutionState.current_step_number s)) as G.
      destruct (get_clickable_elements (parse_ui_hierarchy tree)) as [|c cs] eqn:C;
        [congruence|].
      destruct G as (e & N & G). rewrite G in H. injection H as <-.
      exists e, (lit " # " ++ firstn 30 (str_or (display_text e)
                                      (str_or (content_description e)
                                         (lit "interactive element")))).
      split; [|apply tap_text_shape].
      assert (In e (get_clickable_elements (parse_ui_hierarchy tree)))
        by (rewrite C; eapply nth_error_In; exact N).
      apply get_clickable_In in H. tauto. }
  destruct E as (e & tail & I & ->).
  destruct (parsed_centre_positive _ _ I) as [Cx Cy].
  exists e. split; [exact I|]. split; [lia|]. split; [lia|].
  assert (HX : 0 <= center_x e) by lia. assert (HY : 0 <= center_y e) by lia.
  rewrite (@tap_head_executes history _ _ tail) by lia.
  unfold is_action_repeating. rewrite (@tap_head_primary _ _ tail HX HY).
  destruct (max_action_repetitions <=? _); cbn [returned history_after sent].
  - split; [reflexivity|]. right. repeat split.
  - split; [reflexivity|]. left. repeat split.
Qed.

End UiTap.

Section UiTapExample.
Import Re AndroidController ActionCoordinator UIElementParser IntelligentMobileAgent Notions.

(** The search bar of a screen, found by the UI tier in a fresh task, is
    tapped at its centre. *)
Lemma X16_witness :
  adb_log
    (sent (execute_parsed_action [] (lit "TAP (540,120) # Search: Search")))
  = Ok [[lit "shell"; lit "input"; lit "tap"; lit "540"; lit "120"]].
Proof.
  assert (H : secondary (parse_ui_hierarchy (Some search_bar_node))
                (execution_state (new_agent 20))
              = (Some (lit "TAP (540,120) # Search: Search"),
                 TaskExecutionState.set_search_initiated
                   (execution_state (new_agent 20))))
    by (vm_compute; reflexivity).
  destruct (@X16_ui_action_taps_centre _ _ _ _ [] H)
    as (e & I & _ & _ & _ & [(_ & _ & A)|(R & _)]).
  - vm_compute in I. destruct I as [<-|[]]. exact A.
  - vm_compute in R. discriminate.
Defined.

End UiTapExample.

(** ** Looking elements up *)

Section Lookup.
Import UIElementParser Notions.

Lemma startswith_app (p b : str) : startswith Ascii.eqb p (p ++ b) = true.
Proof.
  induction p as [|c p IH]; simpl; [reflexivity|].
  now rewrite Ascii.eqb_refl, IH.
Qed.

Lemma startswith_split (p s : str) :
  startswith Ascii.eqb p s = true -> exists b, s = p ++ b.
Proof.
  revert s. induction p as [|c p IH]; intros s; simpl.
  - intros _. now exists s.
  - destruct s as [|x s]; [discriminate|]. intros H.
    apply andb_true_iff in H. destruct H as [E H].
    apply Ascii.eqb_eq in E. subst x.
    destruct (IH _ H) as (b & ->). now exists b.
Qed.

(** [p in s] holds exactly when [p] occurs in [s]. *)
Lemma contains_occurs (p s : str) :
  contains Ascii.eqb p s = true <-> occurs p s.
Proof.
  unfold occurs. split.
  - induction s as [|x s IH]; simpl; intros H.
    + rewrite orb_false_r in H. apply startswith_split in H.
      destruct H as (b & ->). now exists [], b.
    + apply orb_true_iff in H. destruct H as [H|H].
      * apply startswith_split in H. destruct H as (b & ->). now exists [], b.
      * destruct (IH H) as (a & b & ->). now exists (x :: a), b.
  - intros (a & b & ->). induction a as [|x a IH]; simpl.
    + destruct (p ++ b) eqn:E; simpl.
      * destruct p; [reflexivity | discriminate].
      * rewrite <- E, startswith_app. reflexivity.
    + rewrite IH. apply orb_true_r.
Qed.

Lemma lower_app (a b : str) : lower (a ++ b) = lower a ++ lower b.
Proof. apply map_app. Qed.

Lemma contains_nil (s : str) : contains Ascii.eqb [] s = true.
Proof. apply contains_occurs. now exists [], s. Qed.

(** X17.  [find_elements_with_text] keeps, in their order, the elements in whose
    text and description, joined by a space and put in lower case, the
    search text in lower case occurs.  So the empty search text finds every
    element, the letter case of the search text plays no part, and every
    element is found by its own text, by its own description, and by the
    two joined by a space. *)
Theorem X17_find_elements_with_text :
  forall (element_list : list element) (search_text : str),
    (forall e,
        In e (find_elements_with_text element_list search_text)
        <-> In e element_list /\ occurs (lower search_text) (element_content e))
    /\ find_elements_with_text element_list [] = element_list
    /\ find_elements_with_text element_list (lower search_text)
       = find_elements_with_text element_list search_text
    /\ (forall e,
          In e element_list ->
          In e (find_elements_with_text element_list (display_text e))
          /\ In e (find_elements_with_text element_list (content_description e))
          /\ In e (find_elements_with_text element_list
                     (display_text e ++ lit " " ++ content_description e)))
    /\ (forall more,
          find_elements_with_text (element_list ++ more) search_text
          = find_elements_with_text element_list search_text
            ++ find_elements_with_text more search_text).
Proof.
  intros l s.
  assert (Spec : forall l' s' e,
             In e (find_elements_with_text l' s')
             <-> In e l' /\ occurs (lower s') (element_content e)).
  { intros l' s' e. unfold find_elements_with_text.
    rewrite filter_In, contains_occurs. reflexivity. }
  split; [apply Spec|]. split; [|split; [|split]].
  - unfold find_elements_with_text. simpl lower.
    induction l as [|e l IH]; simpl; [reflexivity|].
    rewrite contains_nil. now f_equal.
  - unfold find_elements_with_text. now rewrite lower_idempotent.
  - intros e I. unfold occurs, element_content.
    repeat split; apply Spec; (split; [exact I|]); unfold occurs, element_content;
      rewrite !lower_app.
    + exists [], (lower (lit " ") ++ lower (content_description e)). reflexivity.
    + exists (lower (display_text e) ++ lower (lit " ")), [].
      now rewrite app_nil_r, <- app_assoc.
    + exists [], []. now rewrite app_nil_r.
  - intros more. unfold find_elements_with_text. apply filter_app.
Qed.

Lemma relevance_score_class (e : element) :
  has "edittext" (lower (element_class e)) = true -> 4 <= relevance_score e.
Proof.
  intros H. unfold relevance_score, has_lower. unfold has in H. rewrite H.
  repeat match goal with
         | |- context [if ?c then _ else _] => destruct c
         end; lia.
Qed.

(** X18.  [find_elements_by_class] keeps, in their order, the elements whose
    class holds the class name, letter case apart; the empty name finds
    every element.  The elements that it finds for the name [EditText], in
    any letter case, are search candidates: each scores at least 4, and
    [identify_search_elements] returns each of them with its score when the
    list has at most five elements of positive score. *)
Theorem X18_find_elements_by_class :
  forall (element_list : list element) (class_name : str),
    (forall e,
        In e (find_elements_by_class element_list class_name)
        <-> In e element_list /\ occurs (lower class_name) (lower (element_class e)))
    /\ find_elements_by_class element_list [] = element_list
    /\ (lower class_name = lit "edittext" ->
        forall e,
          In e (find_elements_by_class element_list class_name) ->
          4 <= relevance_score e
          /\ ((List.length (collect element_list) <= 5)%nat ->
              In {| elem := e; search_relevance_score := relevance_score e |}
                 (identify_search_elements element_list))).
Proof.
  intros l s. split; [|split].
  - intros e. unfold find_elements_by_class.
    rewrite filter_In, contains_occurs. reflexivity.
  - unfold find_elements_by_class. simpl lower.
    induction l as [|e l IH]; simpl; [reflexivity|].
    rewrite contains_nil. now f_equal.
  - intros L e I. unfold find_elements_by_class in I. rewrite L in I.
    apply filter_In in I. destruct I as [I C].
    pose proof (relevance_score_class e C) as S. split; [exact S|].
    intros Short. unfold identify_search_elements.
    rewrite firstn_all2.
    + apply (Permutation_in _ (Permutation_sym (sort_desc_perm (collect l)))).
      apply collect_In. simpl. unfold score. simpl.
      split; [exact I|]. split; [reflexivity | lia].
    + rewrite (Permutation_length (sort_desc_perm (collect l))). exact Short.
Qed.

End Lookup.

(** ** The configuration file *)

Section Environment.
Import AgentConfig Notions.

Lemma dropwhile_all (A : Type) (p : A -> bool) (ws l : list A) :
  Forall (fun c => p c = true) ws -> dropwhile p (ws ++ l) = dropwhile p l.
Proof. induction 1 as [|c ws Hc Hws IH]; simpl; [reflexivity | now rewrite Hc]. Qed.

Lemma lstrip_blank (ws s : str) :
  Forall (fun c => isspace c = true) ws -> lstrip (ws ++ s) = lstrip s.
Proof. apply dropwhile_all. Qed.

Lemma rstrip_blank (s ws : str) :
  Forall (fun c => isspace c = true) ws -> rstrip (s ++ ws) = rstrip s.
Proof.
  intros H. unfold rstrip. rewrite rev_app_distr, dropwhile_all; [reflexivity|].
  apply Forall_rev. exact H.
Qed.

Lemma stripped_rstrip (s : str) : stripped s -> rstrip s = s.
Proof.
  intros H.
  destruct (stripped_shape H) as [-> | [(c & Hc & ->) | (c & m & d & Hc & Hd & ->)]].
  - reflexivity.
  - change [c] with ([] ++ c :: []). now rewrite rstrip_app.
  - change (c :: m ++ [d]) with ((c :: m) ++ d :: []). now rewrite rstrip_app.
Qed.

Lemma strip_pad (ws1 s ws2 : str) :
  Forall (fun c => isspace c = true) ws1 ->
  Forall (fun c => isspace c = true) ws2 ->
  stripped s ->
  strip (ws1 ++ s ++ ws2) = s.
Proof.
  intros H1 H2 Hs. unfold strip. rewrite lstrip_blank by exact H1.
  destruct (stripped_shape Hs) as [-> | [(c & Hc & ->) | (c & m & d & Hc & Hd & ->)]].
  - simpl. rewrite <- (app_nil_r ws2), lstrip_blank by exact H2. reflexivity.
  - simpl app. rewrite lstrip_head by exact Hc.
    change (c :: ws2) with ([c] ++ ws2). rewrite rstrip_blank by exact H2.
    now apply stripped_rstrip.
  - simpl app. rewrite lstrip_head by exact Hc.
    change (c :: (m ++ [d]) ++ ws2) with ((c :: m ++ [d]) ++ ws2).
    rewrite rstrip_blank by exact H2. now apply stripped_rstrip.
Qed.

Lemma before_first_app (c : ascii) (a b : str) :
  ~ In c a -> before_first c (a ++ c :: b) = a.
Proof.
  induction a as [|x a IH]; simpl; intros H.
  - now rewrite Ascii.eqb_refl.
  - destruct (Ascii.eqb x c) eqn:E.
    + apply Ascii.eqb_eq in E. exfalso. apply H. now left.
    + f_equal. apply IH. intros Hin. apply H. now right.
Qed.

Lemma blank_no_equals (ws : str) :
  Forall (fun c => isspace c = true) ws -> ~ In "="%char ws.
Proof.
  intros H Hin. rewrite Forall_forall in H. specialize (H _ Hin). discriminate.
Qed.

(** A line that holds a name, the sign [=] and a value, with white space
    around each. *)
Lemma assignment_line (ws1 key ws2 ws3 value ws4 : str) :
  Forall (fun c => isspace c = true) ws1 ->
  Forall (fun c => isspace c = true) ws2 ->
  Forall (fun c => isspace c = true) ws3 ->
  Forall (fun c => isspace c = true) ws4 ->
  stripped key -> key <> [] -> ~ In "="%char key ->
  startswith Ascii.eqb (lit "#") key = false ->
  stripped value ->
  assignment (ws1 ++ key ++ ws2 ++ "="%char :: ws3 ++ value ++ ws4)
  = Some (key, value).
Proof.
  intros B1 B2 B3 B4 Sk Nk Ek Hk Sv.
  assert (Head : exists c k, key = c :: k /\ isspace c = false).
  { destruct (stripped_shape Sk) as [-> | [(c & Hc & ->) | (c & m & d & Hc & _ & ->)]].
    - contradiction.
    - now exists c, [].
    - now exists c, (m ++ [d]). }
  destruct Head as (c & k & -> & Hc).
  assert (R : rstrip (ws3 ++ value ++ ws4) = rstrip (ws3 ++ value)).
  { rewrite app_assoc. now apply rstrip_blank. }
  assert (L : strip (ws1 ++ (c :: k) ++ ws2 ++ "="%char :: ws3 ++ value ++ ws4)
              = ((c :: k) ++ ws2) ++ "="%char :: rstrip (ws3 ++ value)).
  { unfold strip. rewrite lstrip_blank by exact B1.
    simpl app at 1. rewrite lstrip_head by exact Hc.
    change (c :: k ++ ws2 ++ "="%char :: ws3 ++ value ++ ws4)
      with ((c :: k) ++ ws2 ++ "="%char :: ws3 ++ value ++ ws4).
    rewrite app_assoc, rstrip_app by reflexivity. now rewrite R. }
  assert (V : strip (rstrip (ws3 ++ value)) = value).
  { destruct value as [|v vs].
    - rewrite app_nil_r. unfold rstrip.
      rewrite <- (app_nil_r (rev ws3)), dropwhile_all by (now apply Forall_rev).
      reflexivity.
    - rewrite rstrip_stripped by (assumption || discriminate).
      rewrite <- (app_nil_r (v :: vs)) at 1.
      apply strip_pad; [assumption | constructor | assumption]. }
  unfold assignment. rewrite L.
  assert (NE : ~ In "="%char ((c :: k) ++ ws2)).
  { intros Hin. apply in_app_or in Hin. destruct Hin as [Hin|Hin];
      [now apply Ek | now apply (blank_no_equals B2)]. }
  rewrite before_first_app, after_first_app by exact NE.
  replace (truthy (((c :: k) ++ ws2) ++ "="%char :: rstrip (ws3 ++ value)))
    with true by reflexivity.
  replace (startswith Ascii.eqb (lit "#")
             (((c :: k) ++ ws2) ++ "="%char :: rstrip (ws3 ++ value)))
    with (startswith Ascii.eqb (lit "#") (c :: k)) by reflexivity.
  rewrite Hk.
  assert (H : has "=" (((c :: k) ++ ws2) ++ "="%char :: rstrip (ws3 ++ value)) = true).
  { apply has_char. apply in_or_app. right. now left. }
  rewrite H. cbn [negb andb]. rewrite V.
  rewrite <- (app_nil_l ((c :: k) ++ ws2)).
  rewrite strip_pad; [reflexivity | constructor | assumption | assumption].
Qed.

Lemma load_lines_cons (raw : str) (rest : list str) (env : environ) :
  load_lines (raw :: rest) env
  = match assignment raw with
    | Some (k, v) =>
        if assignable k v then load_lines rest ((k, v) :: env) else env
    | None => load_lines rest env
    end.
Proof.
  cbn [load_lines]. unfold assignment.
  destruct (truthy (strip raw) && _ && _); reflexivity.
Qed.

Lemma load_lines_app (pre rest : list str) (env : environ) :
  Forall passes_quietly pre ->
  load_lines (pre ++ rest) env = load_lines rest (load_lines pre env).
Proof.
  intros H. revert env. induction H as [|l pre Hl Hpre IH]; intros env; [reflexivity|].
  rewrite <- app_comm_cons, !load_lines_cons. unfold passes_quietly in Hl.
  destruct (assignment l) as [[k v]|]; [|apply IH].
  rewrite Hl. apply IH.
Qed.

Lemma getenv_load_other (key : str) (lines : list str) (env : environ) :
  Forall (leaves key) lines ->
  getenv (load_lines lines env) key = getenv env key.
Proof.
  intros H. revert env. induction H as [|l lines Hl Hlines IH]; intros env; [reflexivity|].
  rewrite load_lines_cons. unfold leaves in Hl.
  destruct (assignment l) as [[k v]|]; [|apply IH].
  destruct (assignable k v); [|reflexivity].
  rewrite IH. simpl. now rewrite str_eqb_neq.
Qed.

(** X19.  A line [name=value] of the configuration file, with white space
    allowed around the name, the sign and the value, puts the value under
    the name in the environment, both stripped.  The line is cut at its
    first [=]: the value can hold further [=] signs, and a [#] in it is not
    the start of a comment.  The other names keep their values. *)
Theorem X19_env_line_read_back :
  forall (ws1 key ws2 ws3 value ws4 : str) (env : environ),
    Forall (fun c => isspace c = true) ws1 ->
    Forall (fun c => isspace c = true) ws2 ->
    Forall (fun c => isspace c = true) ws3 ->
    Forall (fun c => isspace c = true) ws4 ->
    stripped key -> key <> [] -> ~ In "="%char key ->
    startswith Ascii.eqb (lit "#") key = false ->
    stripped value ->
    assignable key value = true ->
    getenv (load_environment_variables
              (Some [ws1 ++ key ++ ws2 ++ "="%char :: ws3 ++ value ++ ws4]) env) key
    = Some value
    /\ forall other,
         other <> key ->
         getenv (load_environment_variables
                   (Some [ws1 ++ key ++ ws2 ++ "="%char :: ws3 ++ value ++ ws4]) env)
                other
         = getenv env other.
Proof.
  intros ws1 key ws2 ws3 value ws4 env B1 B2 B3 B4 Sk Nk Ek Hk Sv A.
  cbn [load_environment_variables]. rewrite load_lines_cons.
  rewrite (assignment_line B1 B2 B3 B4 Sk Nk Ek Hk Sv), A.
  cbn [load_lines getenv]. rewrite str_eqb_refl. split; [reflexivity|].
  intros other N. rewrite str_eqb_neq by congruence. reflexivity.
Qed.

Lemma X19_witness :
  getenv (load_environment_variables
            (Some [lit "  MAXIMUM_EXECUTION_STEPS = 30 # a=b" ++ ["010"%char]]) [])
         (lit "MAXIMUM_EXECUTION_STEPS")
  = Some (lit "30 # a=b").
Proof.
  refine (proj1 (@X19_env_line_read_back
                   (lit "  ") (lit "MAXIMUM_EXECUTION_STEPS") (lit " ") (lit " ")
                   (lit "30 # a=b") ["010"%char] [] _ _ _ _ _ _ _ _ _ _));
    try (repeat constructor; fail); try reflexivity; try discriminate.
  simpl. intros H. repeat (destruct H as [H|H]; [discriminate|]). exact H.
Defined.

(** X20.  When the file is read without an exception, the value of a name is the
    one of the last line that assigns it: the lines after it that assign
    other names, or nothing, do not change it, whatever the lines before
    it did. *)
Theorem X20_last_assignment_wins :
  forall (pre post : list str) (raw key value : str) (env : environ),
    Forall passes_quietly pre ->
    assignment raw = Some (key, value) ->
    assignable key value = true ->
    Forall (leaves key) post ->
    getenv (load_environment_variables (Some (pre ++ raw :: post)) env) key
    = Some value.
Proof.
  intros pre post raw key value env Q A L P.
  cbn [load_environment_variables].
  rewrite load_lines_app by exact Q.
  rewrite load_lines_cons, A, L, getenv_load_other by exact P.
  simpl. now rewrite str_eqb_refl.
Qed.

Lemma X20_witness :
  getenv (load_environment_variables
            (Some [lit "A=1"; lit "A=2"; lit "# A=3"; lit "B=4"]) [])
         (lit "A")
  = Some (lit "2").
Proof.
  refine (@X20_last_assignment_wins [lit "A=1"] [lit "# A=3"; lit "B=4"]
            (lit "A=2") (lit "A") (lit "2") [] _ _ _ _).
  - repeat constructor.
  - reflexivity.
  - reflexivity.
  - repeat constructor. vm_compute. discriminate.
Defined.

(** X21.  An assignment that raises, for an empty name or a NUL character, ends
    the reading of the file: the lines after it are not read, and what the
    lines before it assigned stays.  A line that begins with [=] is such a
    line. *)
Theorem X21_bad_line_ends_loading :
  forall (pre post : list str) (raw key value : str) (env : environ),
    Forall passes_quietly pre ->
    assignment raw = Some (key, value) ->
    assignable key value = false ->
    load_environment_variables (Some (pre ++ raw :: post)) env
    = load_environment_variables (Some pre) env.
Proof.
  intros pre post raw key value env Q A L.
  cbn [load_environment_variables].
  rewrite load_lines_app by exact Q.
  rewrite load_lines_cons, A, L.
  rewrite <- (app_nil_r pre) at 2. now rewrite load_lines_app.
Qed.

Lemma X21_witness :
  load_environment_variables
    (Some [lit "A=1"; lit "=oops"; lit "HUGGINGFACE_API_TOKEN=hf_abc"]) []
  = [(lit "A", lit "1")].
Proof.
  refine (eq_trans
            (@X21_bad_line_ends_loading [lit "A=1"] [lit "HUGGINGFACE_API_TOKEN=hf_abc"]
               (lit "=oops") [] (lit "oops") [] _ _ _) _).
  - repeat constructor.
  - reflexivity.
  - reflexivity.
  - reflexivity.
Defined.

End Environment.

(** ** The configuration of the agent *)

Section Configuration.
Import TaskExecutionState IntelligentMobileAgent AgentConfig Notions.

Lemma validate_configuration_true (self : AgentConfiguration) :
  validate_configuration self = true
  <-> huggingface_api_token self <> []
      /\ huggingface_api_token self <> lit "your_hugging_face_api_key_here"
      /\ 1 <= maximum_steps self <= 50.
Proof.
  unfold validate_configuration.
  set (placeholder := lit "your_hugging_face_api_key_here").
  destruct (huggingface_api_token self) as [|c token]; cbn [truthy negb orb].
  { split; [discriminate | intros (N & _); now elim N]. }
  destruct (str_eqb (c :: token) placeholder) eqn:E.
  { apply str_eqb_eq in E. split; [discriminate | intros (_ & N & _); contradiction]. }
  assert (N : c :: token <> placeholder).
  { intros H. apply str_eqb_eq in H. congruence. }
  destruct (maximum_steps self <? 1) eqn:L1; cbn [orb].
  { apply Z.ltb_lt in L1. split; [discriminate | lia]. }
  destruct (50 <? maximum_steps self) eqn:L2.
  { apply Z.ltb_lt in L2. split; [discriminate | lia]. }
  apply Z.ltb_ge in L1, L2. split; [|reflexivity].
  intros _. split; [discriminate|]. split; [exact N | lia].
Qed.

(** X22.  The first call of [get_agent_configuration] returns a configuration
    only if it is valid: the token is neither empty nor the placeholder of
    the example file, and the number of steps lies between 1 and 50.  But
    the instance is stored before it is validated: when the validation
    fails the call raises, and every later call returns the stored
    configuration, which is not valid, without validating it again.  When
    the constructor raises, nothing is stored. *)
Theorem X22_configuration_instance :
  forall constructed : result AgentConfiguration,
    (forall c g,
        get_agent_configuration None constructed = (Ok c, g) ->
        g = Some c /\ constructed = Ok c
        /\ huggingface_api_token c <> []
        /\ huggingface_api_token c <> lit "your_hugging_face_api_key_here"
        /\ 1 <= maximum_steps c <= 50)
    /\ (forall c,
          constructed = Ok c ->
          validate_configuration c = false ->
          get_agent_configuration None constructed = (Raise ValueError, Some c)
          /\ forall again,
               get_agent_configuration
                 (snd (get_agent_configuration None constructed)) again
               = (Ok c, Some c))
    /\ (forall e,
          constructed = Raise e ->
          get_agent_configuration None constructed = (Raise e, None)).
Proof.
  intros constructed. split; [|split].
  - intros c g. unfold get_agent_configuration.
    destruct constructed as [i|e]; [|discriminate].
    destruct (validate_configuration i) eqn:V; [|discriminate].
    intros H. injection H as <- <-.
    apply validate_configuration_true in V. tauto.
  - intros c -> V. unfold get_agent_configuration. rewrite V. simpl.
    split; reflexivity.
  - intros e ->. reflexivity.
Qed.

(** X23.  A configuration that [get_agent_configuration] returned at its
    first call has a number of steps between 1 and 50; a loop run under
    this limit, entered at a step that is not negative and allowed any
    number of passes, makes at most 50 passes. *)
Theorem X23_valid_configuration_bounds_task :
  forall (constructed : result AgentConfiguration) (c : AgentConfiguration)
         (g : option AgentConfiguration) (fuel : nat) (env : Z -> observation)
         (a : agent) (passes : list pass) (final : str),
    get_agent_configuration None constructed = (Ok c, g) ->
    maximum_allowed_steps (execution_state a) = maximum_steps c ->
    0 <= step_of a ->
    main_loop fuel env a = Ok (passes, final) ->
    1 <= maximum_steps c <= 50
    /\ (List.length passes <= 50)%nat.
Proof.
  intros constructed c g fuel env a passes final G M S H.
  apply main_loop_count in H. rewrite M in H.
  assert (V : validate_configuration c = true).
  { unfold get_agent_configuration in G. destruct constructed as [i|e]; [|discriminate].
    destruct (validate_configuration i) eqn:V; [|discriminate].
    injection G as <- _. exact V. }
  apply validate_configuration_true in V. lia.
Qed.

(** A loop allowed a hundred passes, under the limit of a valid
    configuration. *)
Lemma X23_witness :
  match main_loop 100 (fun _ => blind) (new_agent 20) with
  | Ok (passes, _) => (List.length passes <= 50)%nat
  | Raise _ => False
  end.
Proof.
  destruct (main_loop 100 (fun _ => blind) (new_agent 20)) as [[passes final]|e] eqn:E;
    [|vm_compute in E; discriminate].
  refine (proj2 (@X23_valid_configuration_bounds_task
            (Ok {| huggingface_api_token := lit "hf_token";
                   target_android_device_id := None;
                   maximum_steps := 20;
                   maximum_action_repetitions := 3;
                   screenshot_compression_quality := 95;
                   debug_logging_enabled := false |})
            _ _ 100%nat (fun _ => blind) (new_agent 20) passes final
            eq_refl eq_refl _ E)).
  vm_compute. discriminate.
Defined.

End Configuration.

(** ** The files of a step *)

Section StepFiles.
Import TaskExecutionState IntelligentMobileAgent Notions.

Lemma format_02d_read_back (n : Z) :
  0 <= n ->
  (2 <= List.length (format_02d n))%nat
  /\ Forall (fun c => isdigit c = true) (format_02d n)
  /\ int_of_digits (format_02d n) = n.
Proof.
  intros Hn. destruct (str_of_int_nonneg Hn) as (N & D & V).
  unfold format_02d. destruct (List.length (str_of_int n) <? 2)%nat eqn:L.
  - split; [|split].
    + destruct (str_of_int n); [contradiction | simpl; lia].
    + constructor; [reflexivity | exact D].
    + exact V.
  - apply Nat.ltb_ge in L. repeat split; assumption.
Qed.

(** X24.  [capture_device_state] advances the step counter by one whether the
    captures succeed or not, and names the two files after the new step
    number: the number is written with at least two digits, a zero in front
    of a single digit, and it is read back from the name.  A path is
    returned only for a capture that succeeded. *)
Theorem X24_step_files :
  forall (s : TaskExecutionState.t) (screenshot_captured ui_hierarchy_captured : bool),
    0 <= current_step_number s ->
    exists digits,
      (2 <= List.length digits)%nat
      /\ Forall (fun c => isdigit c = true) digits
      /\ int_of_digits digits = current_step_number s + 1
      /\ capture_device_state s screenshot_captured ui_hierarchy_captured
         = (advance_step_counter s,
            (if screenshot_captured
             then Some (lit "device_screenshots/step_" ++ digits ++ lit ".png")
             else None,
             if ui_hierarchy_captured
             then Some (lit "ui_hierarchy_dumps/step_" ++ digits ++ lit ".xml")
             else None)).
Proof.
  intros s sc ui H.
  exists (format_02d (current_step_number s + 1)).
  destruct (@format_02d_read_back (current_step_number s + 1)) as (L & D & V); [lia|].
  repeat (split; [assumption|]). reflexivity.
Qed.

Lemma X24_witness :
  exists digits,
    (2 <= List.length digits)%nat
    /\ Forall (fun c => isdigit c = true) digits
    /\ int_of_digits digits = 1
    /\ capture_device_state (execution_state (new_agent 20)) true false
       = (advance_step_counter (execution_state (new_agent 20)),
          (Some (lit "device_screenshots/step_" ++ digits ++ lit ".png"), None)).
Proof.
  apply (@X24_step_files (execution_state (new_agent 20)) true false).
  simpl. lia.
Defined.

End StepFiles.

(** ** The prompt *)

Section Prompt.
Import TaskExecutionState QwenVisionAgent Notions.

(** X25.  The prompt begins with the task and the step number over a fixed 15,
    whatever the step limit is.  What follows depends on the two progress
    flags: while no search has been initiated it asks to locate the search
    bar, whether a query has been entered or not; then it asks for the
    query; then, with both flags set, it asks to look at the results.  An
    action with [TYPE] that is not a search tap sets the second flag only:
    after it, in a task that has initiated no search, the prompt still asks
    to locate the search bar. *)
Theorem X25_prompt_follows_flags :
  forall (task_instruction : str) (current_step : Z) (s : TaskExecutionState.t)
         (executed_action : str),
    generate_context_aware_prompt task_instruction current_step
      (search_initiated s) (query_entered s)
    = (lit "Task: " ++ task_instruction ++ [newline]
         ++ lit "Step: " ++ str_of_int current_step ++ lit "/15" ++ [newline; newline])
        ++ match search_initiated s, query_entered s with
           | false, _ => locate_search_text
           | true, false => enter_query_text
           | true, true => browse_results_text
           end
    /\ (search_initiated s = false ->
        is_search_tap executed_action = false ->
        generate_context_aware_prompt task_instruction current_step
          (search_initiated (update_task_progress s executed_action))
          (query_entered (update_task_progress s executed_action))
        = generate_context_aware_prompt task_instruction current_step false false).
Proof.
  intros t n s a. split.
  - unfold generate_context_aware_prompt.
    destruct (search_initiated s), (query_entered s); simpl negb; cbv iota;
      repeat rewrite <- app_assoc; reflexivity.
  - intros S T. rewrite update_task_progress_cases, T.
    destruct (has "TYPE" a); simpl; rewrite S; reflexivity.
Qed.

End Prompt.

(** ** From an action line to the device *)

Section Dispatch.
Import Re AndroidController ActionCoordinator Notions.

Lemma primary_action_line (line : str) :
  stripped line -> one_line line -> is_action_line line = true ->
  primary_action line = line.
Proof.
  intros Hs Hl Ha. unfold primary_action.
  rewrite Hs, split_one_line by exact Hl.
  cbn [first_action_line]. now rewrite Hs, Ha.
Qed.

(** X26.  The direction of a scroll is read from the whole line, the comment
    included: a line with [SCROLL], without a tap and without a quoted
    text to type, swipes up on the device exactly when the letters [up]
    occur somewhere in it, in any letter case, and swipes down otherwise.
    The history of taps is not touched and the completion is not
    reported. *)
Theorem X26_scroll_direction :
  forall (history : list str) (line : str),
    stripped line -> one_line line ->
    tap_search line = None ->
    group1 type_re line = None ->
    has_upper "SCROLL" line = true ->
    execute_parsed_action history line
    = {| history_after := history;
         sent := [perform_scroll_action (if has_lower "up" line then up else down)];
         returned := Ok false |}
    /\ adb_log (sent (execute_parsed_action history line))
       = Ok [map lit (if has_lower "up" line
                      then ["shell"; "input"; "swipe"; "500"; "300"; "500"; "1000"]
                      else ["shell"; "input"; "swipe"; "500"; "1000"; "500"; "300"])%string].
Proof.
  intros history line Hs Hl T G S.
  assert (P : primary_action line = line).
  { apply primary_action_line; try assumption.
    unfold is_action_line. rewrite S. now rewrite !orb_true_r. }
  assert (E : execute_parsed_action history line
              = {| history_after := history;
                   sent := [perform_scroll_action
                              (if has_lower "up" line then up else down)];
                   returned := Ok false |}).
  { unfold execute_parsed_action. rewrite P, T, G, S. reflexivity. }
  split; [exact E|]. rewrite E. cbn [sent].
  destruct (has_lower "up" line); reflexivity.
Qed.

Lemma X26_witness :
  adb_log
    (sent (execute_parsed_action [] (lit "SCROLL down # look up the list")))
  = Ok [map lit ["shell"; "input"; "swipe"; "500"; "300"; "500"; "1000"]%string].
Proof.
  refine (proj2 (@X26_scroll_direction [] (lit "SCROLL down # look up the list")
                   _ _ _ _ _)); try reflexivity.
  unfold one_line. simpl. intros H.
  repeat (destruct H as [H|H]; [discriminate|]). exact H.
Defined.




End Dispatch.

(** ** The configuration read from the file *)

Section Constructor.
Import AgentConfig Notions.

Lemma digits_stripped (d : str) :
  Forall (fun c => isdigit c = true) d -> stripped d.
Proof.
  intros H.
  assert (NS : Forall (fun c => isspace c = false) d).
  { eapply Forall_impl; [|exact H]. apply isdigit_not_space. }
  unfold stripped, strip, rstrip, lstrip.
  rewrite (dropwhile_none _ NS).
  rewrite (dropwhile_none isspace (l := rev d)) by (now apply Forall_rev).
  apply rev_involutive.
Qed.

(** X28.  Read into an empty environment, a configuration file with the
    token and the number of steps, a number below [10 ^ 4300], gives a
    configuration with this token and this number, and the defaults 3 and
    95 and no debugging for what the file does not set.  The first call of
    [get_agent_configuration] returns it when the number lies between 1 and
    50 and the token is not the placeholder of the example file, and raises
    otherwise.  For a number that is not below [10 ^ 4300] the constructor
    raises [ValueError]. *)
Theorem X28_configuration_from_file :
  forall (token : str) (n : Z),
    stripped token -> token <> [] -> ~ In nul token -> 0 <= n ->
    (n < 10 ^ 4300 ->
     __init__ (Some [lit "HUGGINGFACE_API_TOKEN=" ++ token ++ ["010"%char];
                     lit "MAXIMUM_EXECUTION_STEPS=" ++ str_of_int n ++ ["010"%char]])
              []
     = Ok {| huggingface_api_token := token;
             target_android_device_id := None;
             maximum_steps := n;
             maximum_action_repetitions := 3;
             screenshot_compression_quality := 95;
             debug_logging_enabled := false |}
     /\ (fst (get_agent_configuration None
                (__init__ (Some [lit "HUGGINGFACE_API_TOKEN=" ++ token ++ ["010"%char];
                                 lit "MAXIMUM_EXECUTION_STEPS=" ++ str_of_int n
                                   ++ ["010"%char]])
                          []))
         = if negb (str_eqb token (lit "your_hugging_face_api_key_here"))
              && (1 <=? n) && (n <=? 50)
           then Ok {| huggingface_api_token := token;
                      target_android_device_id := None;
                      maximum_steps := n;
                      maximum_action_repetitions := 3;
                      screenshot_compression_quality := 95;
                      debug_logging_enabled := false |}
           else Raise ValueError))
    /\ (10 ^ 4300 <= n ->
        __init__ (Some [lit "HUGGINGFACE_API_TOKEN=" ++ token ++ ["010"%char];
                        lit "MAXIMUM_EXECUTION_STEPS=" ++ str_of_int n ++ ["010"%char]])
                 []
        = Raise ValueError).
Proof.
  intros token n St Nt Zt Hn.
  destruct (str_of_int_nonneg Hn) as (Nd & Dd & _).
  assert (A1 : assignment (lit "HUGGINGFACE_API_TOKEN=" ++ token ++ ["010"%char])
               = Some (lit "HUGGINGFACE_API_TOKEN", token)).
  { apply (@assignment_line [] (lit "HUGGINGFACE_API_TOKEN") [] [] token ["010"%char]);
      try constructor; try reflexivity; try discriminate; try assumption; try constructor.
    simpl. intros H. repeat (destruct H as [H|H]; [discriminate|]). exact H. }
  assert (A2 : assignment (lit "MAXIMUM_EXECUTION_STEPS=" ++ str_of_int n ++ ["010"%char])
               = Some (lit "MAXIMUM_EXECUTION_STEPS", str_of_int n)).
  { apply (@assignment_line [] (lit "MAXIMUM_EXECUTION_STEPS") [] []
             (str_of_int n) ["010"%char]);
      try constructor; try reflexivity; try discriminate; try constructor.
    - simpl. intros H. repeat (destruct H as [H|H]; [discriminate|]). exact H.
    - now apply digits_stripped. }
  assert (G1 : assignable (lit "HUGGINGFACE_API_TOKEN") token = true).
  { unfold assignable. cbn [truthy lit list_ascii_of_string andb].
    replace (existsb (Ascii.eqb nul) (lit "HUGGINGFACE_API_TOKEN")) with false
      by reflexivity.
    destruct (existsb (Ascii.eqb nul) token) eqn:E; [|reflexivity].
    apply existsb_exists in E. destruct E as (c & I & E).
    apply Ascii.eqb_eq in E. subst c. contradiction. }
  assert (G2 : assignable (lit "MAXIMUM_EXECUTION_STEPS") (str_of_int n) = true).
  { unfold assignable.
    replace (existsb (Ascii.eqb nul) (lit "MAXIMUM_EXECUTION_STEPS")) with false
      by reflexivity.
    destruct (existsb (Ascii.eqb nul) (str_of_int n)) eqn:E; [|reflexivity].
    apply existsb_exists in E. destruct E as (c & I & E).
    apply Ascii.eqb_eq in E. subst c.
    rewrite Forall_forall in Dd. specialize (Dd _ I). discriminate. }
  assert (I : __init__
                (Some [lit "HUGGINGFACE_API_TOKEN=" ++ token ++ ["010"%char];
                       lit "MAXIMUM_EXECUTION_STEPS=" ++ str_of_int n ++ ["010"%char]])
                []
              = if n <? 10 ^ Z.of_nat max_str_digits
                then Ok {| huggingface_api_token := token;
                           target_android_device_id := None;
                           maximum_steps := n;
                           maximum_action_repetitions := 3;
                           screenshot_compression_quality := 95;
                           debug_logging_enabled := false |}
                else Raise ValueError).
  { unfold __init__. cbn [load_environment_variables].
    rewrite load_lines_cons, A1, G1, load_lines_cons, A2, G2.
    cbn [load_lines]. unfold getenv_default.
    replace (getenv [(lit "MAXIMUM_EXECUTION_STEPS", str_of_int n);
                     (lit "HUGGINGFACE_API_TOKEN", token)]
                    (lit "HUGGINGFACE_API_TOKEN"))
      with (Some token) by reflexivity.
    replace (getenv [(lit "MAXIMUM_EXECUTION_STEPS", str_of_int n);
                     (lit "HUGGINGFACE_API_TOKEN", token)]
                    (lit "MAXIMUM_EXECUTION_STEPS"))
      with (Some (str_of_int n)) by reflexivity.
    replace (getenv [(lit "MAXIMUM_EXECUTION_STEPS", str_of_int n);
                     (lit "HUGGINGFACE_API_TOKEN", token)]
                    (lit "MAXIMUM_ACTION_REPETITIONS"))
      with (@None str) by reflexivity.
    replace (getenv [(lit "MAXIMUM_EXECUTION_STEPS", str_of_int n);
                     (lit "HUGGINGFACE_API_TOKEN", token)]
                    (lit "SCREENSHOT_COMPRESSION_QUALITY"))
      with (@None str) by reflexivity.
    replace (getenv [(lit "MAXIMUM_EXECUTION_STEPS", str_of_int n);
                     (lit "HUGGINGFACE_API_TOKEN", token)]
                    (lit "DEBUG_LOGGING_ENABLED"))
      with (@None str) by reflexivity.
    replace (getenv [(lit "MAXIMUM_EXECUTION_STEPS", str_of_int n);
                     (lit "HUGGINGFACE_API_TOKEN", token)]
                    (lit "TARGET_ANDROID_DEVICE_ID"))
      with (@None str) by reflexivity.
    destruct token as [|t0 token']; [contradiction|]. cbn [truthy negb].
    rewrite (int_of_str_of_nonneg Hn).
    destruct (n <? 10 ^ Z.of_nat max_str_digits); reflexivity. }
  change (10 ^ 4300) with (10 ^ Z.of_nat max_str_digits).
  split.
  2:{ intros L. rewrite I.
      destruct (Z.ltb_spec n (10 ^ Z.of_nat max_str_digits)); [lia | reflexivity]. }
  intros L. apply Z.ltb_lt in L. rewrite L in I.
  split; [exact I|]. rewrite I.
  unfold get_agent_configuration, validate_configuration.
  cbn [huggingface_api_token maximum_steps].
  destruct token as [|t0 token']; [contradiction|]. cbn [truthy negb orb].
  destruct (str_eqb (t0 :: token') (lit "your_hugging_face_api_key_here"));
    [reflexivity|]. cbn [negb andb].
  destruct (Z.ltb_spec n 1), (Z.leb_spec 1 n); try lia; cbn [orb andb];
    [reflexivity|].
  destruct (Z.ltb_spec 50 n), (Z.leb_spec n 50); try lia; reflexivity.
Qed.

Lemma X28_witness :
  __init__ (Some [lit "HUGGINGFACE_API_TOKEN=hf_a=b" ++ ["010"%char];
                  lit "MAXIMUM_EXECUTION_STEPS=30" ++ ["010"%char]]) []
  = Ok {| huggingface_api_token := lit "hf_a=b";
          target_android_device_id := None;
          maximum_steps := 30;
          maximum_action_repetitions := 3;
          screenshot_compression_quality := 95;
          debug_logging_enabled := false |}.
Proof.
  refine (proj1 (proj1 (@X28_configuration_from_file (lit "hf_a=b") 30 _ _ _ _) _));
    try reflexivity; try discriminate; try lia.
  simpl. intros H. repeat (destruct H as [H|H]; [discriminate|]). exact H.
Defined.

End Constructor.

Section ConstructorErrors.
Import AgentConfig Notions.

Lemma int_digits_bad (c : ascii) :
  isdigit c = false -> Ascii.eqb c "_" = false ->
  forall (n : nat) (s : str) (acc : Z),
    (List.length s <= n)%nat -> In c s -> int_digits acc s = None.
Proof.
  intros Hd Hu. induction n as [|n IH]; intros s acc L I.
  - destruct s; [contradiction | simpl in L; lia].
  - destruct s as [|x s]; [contradiction|]. simpl in L. cbn [int_digits].
    destruct (isdigit x) eqn:Dx.
    + destruct I as [->|I]; [congruence|]. apply IH; [lia | exact I].
    + destruct (Ascii.eqb x "_") eqn:Ux; [|reflexivity].
      destruct I as [->|I]; [congruence|].
      destruct s as [|d s]; [reflexivity|].
      destruct (isdigit d) eqn:Dd; [|reflexivity].
      destruct I as [->|I]; [congruence|].
      apply IH; [simpl in L; lia | exact I].
Qed.

Lemma int_of_str_raises (v : str) (e : exn) :
  int_of_str v = Raise e -> e = ValueError.
Proof.
  unfold int_of_str.
  destruct (match rev (dropwhile int_space (rev (dropwhile int_space v))) with
            | [] => _ | _ :: _ => _ end) as [negative body].
  destruct body as [|d rest]; [congruence|].
  destruct (isdigit d); [|congruence].
  destruct (int_digits _ rest); [|congruence].
  destruct (max_str_digits <? _)%nat; congruence.
Qed.

Lemma int_of_str_not_numeric (v : str) (c : ascii) :
  In c v -> not_numeric c = true -> int_of_str v = Raise ValueError.
Proof.
  intros I B. unfold not_numeric in B. apply negb_true_iff in B.
  repeat (apply orb_false_iff in B; destruct B as [B ?]).
  rename B into Hd.
  assert (It : In c (rev (dropwhile int_space (rev (dropwhile int_space v))))).
  { apply -> in_rev. apply dropwhile_keeps; [|assumption].
    apply -> in_rev. now apply dropwhile_keeps. }
  unfold int_of_str.
  destruct (rev (dropwhile int_space (rev (dropwhile int_space v)))) as [|x b];
    [contradiction|].
  assert (Tail : forall d rest,
             In c (d :: rest) ->
             (if isdigit d
              then match int_digits (digit_value d) rest with
                   | Some v0 =>
                       if (max_str_digits <? List.length (filter isdigit (d :: rest)))%nat
                       then Raise ValueError
                       else Ok v0
                   | None => Raise ValueError
                   end
              else Raise ValueError) = Raise ValueError
             /\ (if isdigit d
                 then match int_digits (digit_value d) rest with
                      | Some v0 =>
                          if (max_str_digits <? List.length (filter isdigit (d :: rest)))%nat
                          then Raise ValueError
                          else Ok (- v0)
                      | None => Raise ValueError
                      end
                 else Raise ValueError) = Raise ValueError).
  { intros d rest J. destruct (isdigit d) eqn:Dd; [|split; reflexivity].
    destruct J as [->|J]; [congruence|].
    rewrite (@int_digits_bad c Hd H1 (List.length rest) rest _ (le_n _) J).
    split; reflexivity. }
  destruct (Ascii.eqb x "-") eqn:Em.
  { apply Ascii.eqb_eq in Em. subst x.
    destruct It as [<-|It]; [discriminate|].
    destruct b as [|d rest]; [reflexivity|]. apply (Tail d rest It). }
  destruct (Ascii.eqb x "+") eqn:Ep.
  { apply Ascii.eqb_eq in Ep. subst x.
    destruct It as [<-|It]; [discriminate|].
    destruct b as [|d rest]; [reflexivity|]. apply (Tail d rest It). }
  apply (Tail x b It).
Qed.

(** X29.  The constructor of the configuration raises [ValueError] when the
    token is missing or empty in the environment, once the file is loaded.
    It also raises [ValueError] when the value of one of its three numbers
    holds a character that is neither a digit, a sign, an underscore nor
    white space: a comment behind the number on its line, which the loading
    keeps in the value, is such a case. *)
Theorem X29_constructor_raises :
  forall (config_file : option (list str)) (env : environ),
    (getenv (load_environment_variables config_file env)
            (lit "HUGGINGFACE_API_TOKEN") = None
     \/ getenv (load_environment_variables config_file env)
               (lit "HUGGINGFACE_API_TOKEN") = Some [] ->
     __init__ config_file env = Raise ValueError)
    /\ (forall name default value c,
          In (name, default) numeric_settings ->
          getenv (load_environment_variables config_file env) (lit name) = Some value ->
          In c value -> not_numeric c = true ->
          __init__ config_file env = Raise ValueError).
Proof.
  intros file env. split.
  - intros H. unfold __init__, getenv_default.
    destruct H as [-> | ->]; reflexivity.
  - intros name default value c I G Ic B.
    pose proof (@int_of_str_not_numeric value c Ic B) as R.
    unfold __init__, getenv_default.
    destruct (negb (truthy _)); [reflexivity|].
    destruct (int_of_str
                match getenv (load_environment_variables file env)
                        (lit "MAXIMUM_EXECUTION_STEPS") with
                | Some v => v | None => lit "20" end) as [a|e] eqn:E1;
      [|now rewrite (@int_of_str_raises _ _ E1)].
    destruct (int_of_str
                match getenv (load_environment_variables file env)
                        (lit "MAXIMUM_ACTION_REPETITIONS") with
                | Some v => v | None => lit "3" end) as [b|e] eqn:E2;
      [|unfold bind; now rewrite (@int_of_str_raises _ _ E2)].
    destruct (int_of_str
                match getenv (load_environment_variables file env)
                        (lit "SCREENSHOT_COMPRESSION_QUALITY") with
                | Some v => v | None => lit "95" end) as [q|e] eqn:E3;
      [|unfold bind; now rewrite (@int_of_str_raises _ _ E3)].
    exfalso. simpl in I.
    destruct I as [I|[I|[I|[]]]]; injection I as <- <-.
    + rewrite G in E1. congruence.
    + rewrite G in E2. congruence.
    + rewrite G in E3. congruence.
Qed.

End ConstructorErrors.
